(** * devctl TSS session orchestration: a shallow embedding

    The development follows [local/cmd/devctl/cmd] of vultisig-cluster: the
    [TSSService] operations ([Keygen], [Reshare], [ReshareWithPlugin],
    [Keysign], [KeysignWithVerifier]), the recruitment loop [waitForParties],
    the party-id hash [generateServerPartyID], the vault store ([SaveVault],
    [LoadVault], [ListVaults]), the commands [runVaultReshare] and
    [runVaultKeysign] with [GetAuthHeader], and the helper [truncateStr].

    Go code runs against a relay, two HTTP services, a clock, a random source
    and a file system.  These are an explicit environment ([Env]) of oracles
    and an explicit [World] that every operation threads: the clock, the heap
    of [*LocalVault] objects (pointers are indices, so aliasing is visible),
    the vault directory and the trace of outward calls. *)

From Stdlib Require Import ZArith NArith String Ascii Strings.Byte List Lia DecimalString.
From stdpp Require Import base list.

Open Scope string_scope.
Open Scope list_scope.
Open Scope Z_scope.

(** ** Go runtime pieces used by the code *)

Module Go.

(** [int] is 64 bits wide on the platforms devctl is built for; arithmetic
    wraps around in two's complement. *)
Definition int_bits : Z := 64.
Definition min_int : Z := - 2 ^ (int_bits - 1).
Definition max_int : Z := 2 ^ (int_bits - 1) - 1.

Definition wrap (z : Z) : Z :=
  (z + 2 ^ (int_bits - 1)) mod 2 ^ int_bits - 2 ^ (int_bits - 1).

Definition in_int (z : Z) : Prop := min_int <= z <= max_int.

Definition add (a b : Z) : Z := wrap (a + b).
Definition mul (a b : Z) : Z := wrap (a * b).
Definition neg (a : Z) : Z := wrap (- a).

(** Strings are byte sequences; [len] counts bytes. *)
Definition len (s : string) : Z := Z.of_nat (String.length s).

Definition bytes_of (s : string) : list Z :=
  map (fun c => Z.of_N (N_of_ascii c)) (list_ascii_of_string s).

(** [s[lo:]] and [s[:hi]]: out-of-range bounds panic ([None]). *)
Definition slice_from (s : string) (lo : Z) : option string :=
  if (lo <? 0) || (len s <? lo) then None
  else Some (substring (Z.to_nat lo) (String.length s - Z.to_nat lo) s).

Definition slice_to (s : string) (hi : Z) : option string :=
  if (hi <? 0) || (len s <? hi) then None
  else Some (substring 0 (Z.to_nat hi) s).

(** [for _, c := range s] decodes UTF-8; a byte that does not start a
    well-formed sequence yields [RuneError] and is consumed alone. *)
Definition RuneError : Z := 65533.

Inductive lead : Type :=
| LeadAscii
| LeadInvalid
| LeadMulti (size : nat) (lo hi : Z).

Definition first (b : Z) : lead :=
  if b <? 128 then LeadAscii
  else if b <? 194 then LeadInvalid
  else if b <? 224 then LeadMulti 2 128 191
  else if b =? 224 then LeadMulti 3 160 191
  else if b <? 237 then LeadMulti 3 128 191
  else if b =? 237 then LeadMulti 3 128 159
  else if b <? 240 then LeadMulti 3 128 191
  else if b =? 240 then LeadMulti 4 144 191
  else if b <? 244 then LeadMulti 4 128 191
  else if b =? 244 then LeadMulti 4 128 143
  else LeadInvalid.

Definition cont (b : Z) : bool := (128 <=? b) && (b <=? 191).

Fixpoint decode_runes (bs : list Z) : list Z :=
  match bs with
  | [] => []
  | s0 :: t0 =>
    match first s0 with
    | LeadAscii => s0 :: decode_runes t0
    | LeadInvalid => RuneError :: decode_runes t0
    | LeadMulti sz lo hi =>
      if (length bs <? sz)%nat then RuneError :: decode_runes t0 else
      match t0 with
      | [] => RuneError :: decode_runes t0
      | s1 :: t1 =>
        if (s1 <? lo) || (hi <? s1) then RuneError :: decode_runes t0
        else if (sz <=? 2)%nat then
          Z.lor (Z.shiftl (Z.land s0 31) 6) (Z.land s1 63) :: decode_runes t1
        else
        match t1 with
        | [] => RuneError :: decode_runes t0
        | s2 :: t2 =>
          if negb (cont s2) then RuneError :: decode_runes t0
          else if (sz <=? 3)%nat then
            Z.lor (Z.lor (Z.shiftl (Z.land s0 15) 12)
                         (Z.shiftl (Z.land s1 63) 6))
                  (Z.land s2 63) :: decode_runes t2
          else
          match t2 with
          | [] => RuneError :: decode_runes t0
          | s3 :: t3 =>
            if negb (cont s3) then RuneError :: decode_runes t0
            else
              Z.lor (Z.lor (Z.lor (Z.shiftl (Z.land s0 7) 18)
                                  (Z.shiftl (Z.land s1 63) 12))
                           (Z.shiftl (Z.land s2 63) 6))
                    (Z.land s3 63) :: decode_runes t3
          end
        end
      end
    end
  end.

Definition runes (s : string) : list Z := decode_runes (bytes_of s).

(** [utf8.AppendRune]: a rune that is no Unicode scalar value is written as
    [RuneError]. *)
Definition encode_rune (r : Z) : list Z :=
  if (0 <=? r) && (r <? 128) then [r]
  else if (0 <=? r) && (r <? 2048) then
    [Z.lor 192 (Z.shiftr r 6); Z.lor 128 (Z.land r 63)]
  else
    let r := if (r <? 0) || (1114111 <? r) || ((55296 <=? r) && (r <=? 57343))
             then RuneError else r in
    if r <? 65536 then
      [Z.lor 224 (Z.shiftr r 12); Z.lor 128 (Z.land (Z.shiftr r 6) 63);
       Z.lor 128 (Z.land r 63)]
    else
      [Z.lor 240 (Z.shiftr r 18); Z.lor 128 (Z.land (Z.shiftr r 12) 63);
       Z.lor 128 (Z.land (Z.shiftr r 6) 63); Z.lor 128 (Z.land r 63)].

Definition string_of_bytes (bs : list Z) : string :=
  string_of_list_ascii (map (fun b => ascii_of_N (Z.to_N b)) bs).

(** [string(rs)] for a slice of runes. *)
Definition string_of_runes (rs : list Z) : string :=
  string_of_bytes (flat_map encode_rune rs).

(** [fmt.Sprintf("%d", h)]. *)
Definition itoa (z : Z) : string := NilZero.string_of_int (Z.to_int z).

(** Durations are nanosecond counts. *)
Definition Nanosecond : Z := 1.
Definition Second : Z := 1000000000 * Nanosecond.
Definition Minute : Z := 60 * Second.

End Go.

(** ** The Fast Vault Server party id *)

Definition hash_step (h c : Z) : Z := Go.add (Go.mul 31 h) c.

(** The accumulator of the loop [for _, c := range sessionID]. *)
Definition hash31 (sessionID : string) : Z :=
  fold_left hash_step (Go.runes sessionID) 0.

(** [generateServerPartyID]; [None] would be a slice-bounds panic. *)
Definition generateServerPartyID (sessionID : string) : option string :=
  let h := hash31 sessionID in
  let h := if h <? 0 then Go.neg h else h in
  let suffix := Go.itoa h in
  match (if Go.len suffix >? 5
         then Go.slice_from suffix (Go.len suffix - 5)
         else Some suffix) with
  | Some suffix => Some ("Server-" ++ suffix)%string
  | None => None
  end.

(** ** Data model *)

Record KeyShare : Type := {
  PubKey : string;
  Keyshare : string
}.

Record LocalVault : Type := {
  Name : string;
  PublicKeyECDSA : string;
  PublicKeyEdDSA : string;
  HexChainCode : string;
  LocalPartyID : string;
  Signers : list string;
  KeyShares : list KeyShare;
  ResharePrefix : string;
  CreatedAt : string;
  LibType : Z
}.

Definition set_Signers (parties : list string) (v : LocalVault) : LocalVault :=
  {| Name := Name v; PublicKeyECDSA := PublicKeyECDSA v;
     PublicKeyEdDSA := PublicKeyEdDSA v; HexChainCode := HexChainCode v;
     LocalPartyID := LocalPartyID v; Signers := parties;
     KeyShares := KeyShares v; ResharePrefix := ResharePrefix v;
     CreatedAt := CreatedAt v; LibType := LibType v |}.

(** What [encoding/json] makes of a string on the way to a file and back: the
    encoder writes [\ufffd] for every byte that does not start a well-formed
    UTF-8 sequence, and the decoder reads that as U+FFFD. Every other
    character comes back as it was. *)
Definition json_string (s : string) : string :=
  Go.string_of_runes (Go.runes s).

Definition json_KeyShare (k : KeyShare) : KeyShare :=
  {| PubKey := json_string (PubKey k); Keyshare := json_string (Keyshare k) |}.

(** The vault [json.Unmarshal] reads from the bytes [json.MarshalIndent]
    wrote for [v]. *)
Definition json_vault (v : LocalVault) : LocalVault :=
  {| Name := json_string (Name v);
     PublicKeyECDSA := json_string (PublicKeyECDSA v);
     PublicKeyEdDSA := json_string (PublicKeyEdDSA v);
     HexChainCode := json_string (HexChainCode v);
     LocalPartyID := json_string (LocalPartyID v);
     Signers := map json_string (Signers v);
     KeyShares := map json_KeyShare (KeyShares v);
     ResharePrefix := json_string (ResharePrefix v);
     CreatedAt := json_string (CreatedAt v);
     LibType := LibType v |}.

Record KeysignResult : Type := {
  ks_R : string;
  ks_S : string;
  ks_RecoveryID : string;
  ks_DerSignature : string
}.

Record TSSService : Type := {
  localPartyID : string
}.

Definition NewTSSService (party : string) : TSSService :=
  {| localPartyID := party |}.

Definition DefaultLocalParty : string := "devctl".
Definition KeygenTimeout : Z := 3 * Go.Minute.
Definition MessagePollTimeout : Z := 2 * Go.Minute.

(** *** Request bodies sent to the remote parties *)

Record VaultCreateRequest : Type := {
  vc_Name : string;
  vc_SessionID : string;
  vc_HexEncryptionKey : string;
  vc_HexChainCode : string;
  vc_LocalPartyId : string;
  vc_EncryptionPassword : string;
  vc_Email : string;
  vc_LibType : Z
}.

Record FastVaultReshareRequest : Type := {
  fr_Name : string;
  fr_PublicKey : string;
  fr_SessionID : string;
  fr_HexEncryptionKey : string;
  fr_HexChainCode : string;
  fr_LocalPartyId : string;
  fr_OldParties : list string;
  fr_OldResharePrefix : string;
  fr_EncryptionPassword : string;
  fr_Email : string;
  fr_ReshareType : Z;
  fr_LibType : Z
}.

Record VerifierReshareRequest : Type := {
  vr_Name : string;
  vr_PublicKey : string;
  vr_SessionID : string;
  vr_HexEncryptionKey : string;
  vr_HexChainCode : string;
  vr_LocalPartyId : string;
  vr_OldParties : list string;
  vr_Email : string;
  vr_PluginID : string
}.

Record VerifierKeysignRequest : Type := {
  vk_PublicKey : string;
  vk_Messages : list string;
  vk_Session : string;
  vk_HexEncryptionKey : string;
  vk_DerivePath : string;
  vk_PluginID : string;
  vk_IsECDSA : bool
}.

Record FastVaultSignRequest : Type := {
  fs_PublicKey : string;
  fs_Messages : list string;
  fs_Session : string;
  fs_HexEncryptionKey : string;
  fs_DerivePath : string;
  fs_IsECDSA : bool;
  fs_VaultPassword : string
}.

Inductive Payload : Type :=
| BodyVaultCreate (r : VaultCreateRequest)
| BodyFastVaultReshare (r : FastVaultReshareRequest)
| BodyVerifierReshare (r : VerifierReshareRequest)
| BodyVerifierKeysign (r : VerifierKeysignRequest)
| BodyFastVaultSign (r : FastVaultSignRequest).

(** *** Session ids and random bytes *)

(** [uuid.UUID] is a [[16]byte]. *)
Record UUID : Type := {
  u0 : byte; u1 : byte; u2 : byte; u3 : byte;
  u4 : byte; u5 : byte; u6 : byte; u7 : byte;
  u8 : byte; u9 : byte; u10 : byte; u11 : byte;
  u12 : byte; u13 : byte; u14 : byte; u15 : byte
}.

Definition hexdigit (n : N) : ascii :=
  match n with
  | 0 => "0" | 1 => "1" | 2 => "2" | 3 => "3" | 4 => "4" | 5 => "5"
  | 6 => "6" | 7 => "7" | 8 => "8" | 9 => "9" | 10 => "a" | 11 => "b"
  | 12 => "c" | 13 => "d" | 14 => "e" | _ => "f"
  end%N%char.

Definition hex_byte (b : byte) (rest : string) : string :=
  String (hexdigit (Byte.to_N b / 16)) (String (hexdigit (Byte.to_N b mod 16)) rest).

(** [hex.EncodeToString]. *)
Definition hex_EncodeToString (bs : list byte) : string :=
  fold_right hex_byte EmptyString bs.

(** [UUID.String]: the 8-4-4-4-12 rendering. *)
Definition uuid_String (u : UUID) : string :=
  hex_byte (u0 u) (hex_byte (u1 u) (hex_byte (u2 u) (hex_byte (u3 u)
  (String "-" (hex_byte (u4 u) (hex_byte (u5 u)
  (String "-" (hex_byte (u6 u) (hex_byte (u7 u)
  (String "-" (hex_byte (u8 u) (hex_byte (u9 u)
  (String "-" (hex_byte (u10 u) (hex_byte (u11 u) (hex_byte (u12 u)
  (hex_byte (u13 u) (hex_byte (u14 u) (hex_byte (u15 u) EmptyString))))))))))))))))))).

Definition uuid_prefix8 (u : UUID) : string :=
  hex_byte (u0 u) (hex_byte (u1 u) (hex_byte (u2 u) (hex_byte (u3 u) EmptyString))).

(** ** The outside world *)

Inductive HttpResult : Type :=
| HttpBadRequest (err : string)          (* http.NewRequestWithContext failed *)
| HttpSendError (err : string)           (* http.DefaultClient.Do failed *)
| HttpResponse (status : Z) (body : string).

Definition StatusOK : Z := 200.

Inductive CtxErr : Type := Canceled | DeadlineExceeded.

Definition ctx_err_msg (e : CtxErr) : string :=
  match e with
  | Canceled => "context canceled"
  | DeadlineExceeded => "context deadline exceeded"
  end.

(** A [context.Context]. [ctx_done_at] is the instant at which its [Done]
    channel is closed, if it ever is; [ctx_cause] is what [Err] returns from
    then on. *)
Record Context : Type := {
  ctx_done_at : option Z;
  ctx_cause : CtxErr
}.

Definition Background : Context :=
  {| ctx_done_at := None; ctx_cause := Canceled |}.

(** [context.WithTimeout(context.Background(), d)] called at [now]. A
    timeout that is not positive cancels the context on the spot. Otherwise
    the deadline is [now + d] and [Done] is closed by the callback of a timer
    set to it, which the runtime runs at the deadline or later: [lag] is how
    much later. *)
Definition WithTimeout (now d : Z) (lag : N) : Context :=
  {| ctx_done_at := Some (if d <=? 0 then now else now + d + Z.of_N lag);
     ctx_cause := DeadlineExceeded |}.

(** [ctx.Done()] is closed at the instant [now]. *)
Definition ctx_Done (ctx : Context) (now : Z) : bool :=
  match ctx_done_at ctx with
  | Some t => t <=? now
  | None => false
  end.

(** How far an [os.WriteFile] that returns an error got. *)
Inductive WriteProgress : Type :=
| NotOpened                  (* the file could not be opened: it is as it was *)
| Truncated (raw : string)   (* opened and cut to length zero; [raw] is the
                                part of the data that reached it *)
| Written.                   (* all of the data reached it *)

Record DevConfig : Type := {
  cfg_PublicKeyECDSA : string;
  cfg_AuthToken : string;
  cfg_AuthPublicKey : string;
  cfg_AuthExpiresAt : string
}.

(** Everything the process does not decide itself.  The relay and the HTTP
    services answer per request; [uuid.New], [rand.Read], the configuration
    file and file-system faults are indexed by the number [k] of outward
    calls made so far, and [GetSession] by the number [n] of polls made so
    far.  An HTTP oracle may answer [HttpSendError] to any request, which
    covers a request cut short by its context.  [timer_lag k] is how late the
    runtime closes [Done] for a context created after [k] outward calls.
    [fs_progress k] is how far the write of call [k] got when it fails, and
    [fs_path] names the file a path with separators leads to. *)
Record Env : Type := {
  FastVaultServer : string;
  RelayServer : string;
  uuid_New : nat -> UUID;
  rand_Read : nat -> option (list byte);
  relay_RegisterSession : string -> string -> option string;
  relay_GetSession : nat -> string -> string + list string;
  relay_StartSession : string -> list string -> option string;
  relay_CompleteSession : string -> string -> option string;
  http_Do : string -> option string -> Payload -> HttpResult;
  latency : nat -> N;
  select_pick : nat -> bool;
  time_Format : Z -> string;
  time_Parse : string -> option Z;
  cfg_Load : nat -> string + DevConfig;
  fs_fault : nat -> option string;
  fs_progress : nat -> WriteProgress;
  fs_path : string -> string;
  timer_lag : nat -> N
}.

Inductive Level : Type := Debug | Info | Warn.

Inductive Event : Type :=
| ELog (lvl : Level) (msg : string)
| ERegisterSession (sid party : string)
| EGetSession (sid : string) (resp : string + list string)
| EStartSession (sid : string) (parties : list string)
| ECompleteSession (sid party : string)
| EHttpPost (url : string) (auth : option string) (body : Payload)
| ESleep (d : Z)
| EWriteFile (name : string).

(** A file, by what [json.Unmarshal] makes of its bytes. *)
Inductive FileData : Type :=
| FileVault (v : LocalVault)     (* they decode into the vault [v] *)
| FileOther (raw : string).      (* they fail to decode *)

Definition ptr : Type := nat.

Record World : Type := {
  clock : Z;
  calls : nat;
  polls : nat;
  heap : list LocalVault;
  disk : option (list (string * FileData));
  trace : list Event
}.

(** [disk] is [None] as long as the vault directory does not exist. After
    that it holds the files the process can reach through the directory,
    each under the path that names it from there. The entries of the
    directory itself are the files whose path is a plain name; a path with
    separators names a file of a sub-directory or, through [..], a file
    outside. *)

(** ** Results and the state monad of the embedding *)

Inductive Res (A : Type) : Type :=
| Ok (a : A)
| Err (e : string)
| Panic (msg : string)
| OutOfFuel.

Arguments Ok {A} a.
Arguments Err {A} e.
Arguments Panic {A} msg.
Arguments OutOfFuel {A}.

Definition M (A : Type) : Type := World -> Res A * World.

Definition ret {A} (a : A) : M A := fun w => (Ok a, w).

Definition bind {A B} (m : M A) (k : A -> M B) : M B :=
  fun w =>
    match m w with
    | (Ok a, w') => k a w'
    | (Err e, w') => (Err e, w')
    | (Panic msg, w') => (Panic msg, w')
    | (OutOfFuel, w') => (OutOfFuel, w')
    end.

Declare Scope go_scope.
Delimit Scope go_scope with go.
Notation "x <- m ;; k" := (bind m (fun x => k))
  (at level 100, m at next level, k at level 200, right associativity,
   only parsing) : go_scope.
Notation "m ;; k" := (bind m (fun _ => k))
  (at level 100, k at level 200, right associativity, only parsing) : go_scope.
Open Scope go_scope.

Definition fail {A} (e : string) : M A := fun w => (Err e, w).
Definition panic {A} (msg : string) : M A := fun w => (Panic msg, w).

(** [return nil, fmt.Errorf("prefix: %w", err)]. *)
Definition wrapped {A} (prefix : string) (m : M A) : M A :=
  fun w =>
    match m w with
    | (Err e, w') => (Err (prefix ++ e)%string, w')
    | r => r
    end.

(** [err := f(...)] whose error is inspected instead of returned. *)
Definition attempt {A} (m : M A) : M (string + A) :=
  fun w =>
    match m w with
    | (Ok a, w') => (Ok (inr a), w')
    | (Err e, w') => (Ok (inl e), w')
    | (Panic msg, w') => (Panic msg, w')
    | (OutOfFuel, w') => (OutOfFuel, w')
    end.

Definition get : M World := fun w => (Ok w, w).

Definition emit (e : Event) : M unit :=
  fun w => (Ok tt, {| clock := clock w; calls := calls w; polls := polls w;
                      heap := heap w; disk := disk w;
                      trace := trace w ++ [e] |}).

Definition log (lvl : Level) (msg : string) : M unit := emit (ELog lvl msg).

(** One outward call: it takes [latency] and is counted. *)
Definition outward (env : Env) : M nat :=
  fun w => (Ok (calls w),
            {| clock := clock w + Z.of_N (latency env (calls w));
               calls := Datatypes.S (calls w); polls := polls w;
               heap := heap w; disk := disk w; trace := trace w |}).

Definition count_poll : M nat :=
  fun w => (Ok (polls w),
            {| clock := clock w; calls := calls w;
               polls := Datatypes.S (polls w);
               heap := heap w; disk := disk w; trace := trace w |}).

Definition advance (d : Z) : M unit :=
  fun w => (Ok tt, {| clock := clock w + d; calls := calls w; polls := polls w;
                      heap := heap w; disk := disk w; trace := trace w |}).

Definition set_heap (h : list LocalVault) : M unit :=
  fun w => (Ok tt, {| clock := clock w; calls := calls w; polls := polls w;
                      heap := h; disk := disk w; trace := trace w |}).

Definition set_disk (d : option (list (string * FileData))) : M unit :=
  fun w => (Ok tt, {| clock := clock w; calls := calls w; polls := polls w;
                      heap := heap w; disk := d; trace := trace w |}).

(** [time.Sleep(d)]. *)
Definition Sleep (d : Z) : M unit := emit (ESleep d) ;; advance d.

(** Pointers: [&LocalVault{...}], field reads through a pointer, and
    assignment through a pointer.  A pointer outside the heap is [nil]. *)
Definition new (v : LocalVault) : M ptr :=
  w <- get ;; set_heap (heap w ++ [v]) ;; ret (length (heap w)).

Definition load (p : ptr) : M LocalVault :=
  w <- get ;;
  match heap w !! p with
  | Some v => ret v
  | None => panic "nil pointer dereference"
  end.

Definition store (p : ptr) (f : LocalVault -> LocalVault) : M unit :=
  w <- get ;;
  match heap w !! p with
  | Some v => set_heap (<[p := f v]> (heap w))
  | None => panic "nil pointer dereference"
  end.

(** A value that may panic. *)
Definition must {A} (o : option A) (msg : string) : M A :=
  match o with
  | Some a => ret a
  | None => panic msg
  end.

Definition of_error (o : option string) : M unit :=
  match o with
  | Some e => fail e
  | None => ret tt
  end.

(** ** The TSS service *)

Inductive Selected : Type := SelCtx | SelTimeout | SelDefault.

(** A [select] with a [default] branch over [ctx.Done()] and the timer:
    when both channels are ready the runtime picks either. *)
Definition select (ctx_ready timer_ready pick : bool) : Selected :=
  match ctx_ready, timer_ready with
  | true, true => if pick then SelCtx else SelTimeout
  | true, false => SelCtx
  | false, true => SelTimeout
  | false, false => SelDefault
  end.

Definition auth_of (authHeader : string) : option string :=
  if String.eqb authHeader "" then None else Some authHeader.

Section Service.

Variable env : Env.

(** *** Relay client *)

Definition RegisterSession (sessionID party : string) : M unit :=
  outward env ;;
  emit (ERegisterSession sessionID party) ;;
  of_error (relay_RegisterSession env sessionID party).

Definition GetSession (sessionID : string) : M (list string) :=
  outward env ;;
  n <- count_poll ;;
  emit (EGetSession sessionID (relay_GetSession env n sessionID)) ;;
  match relay_GetSession env n sessionID with
  | inl e => fail e
  | inr parties => ret parties
  end.

Definition StartSession (sessionID : string) (parties : list string) : M unit :=
  outward env ;;
  emit (EStartSession sessionID parties) ;;
  of_error (relay_StartSession env sessionID parties).

Definition CompleteSession (sessionID party : string) : M unit :=
  outward env ;;
  emit (ECompleteSession sessionID party) ;;
  of_error (relay_CompleteSession env sessionID party).

(** *** Join requests

    Every request function builds its body, posts it and maps a non-200
    answer to an error; [post] is that common tail. [json.Marshal] cannot
    fail on these bodies. *)
Definition post (url : string) (auth : option string) (body : Payload)
    (who : string) : M unit :=
  outward env ;;
  match http_Do env url auth body with
  | HttpBadRequest e => fail ("create request: " ++ e)%string
  | HttpSendError e =>
      emit (EHttpPost url auth body) ;; fail ("send request: " ++ e)%string
  | HttpResponse status rbody =>
      emit (EHttpPost url auth body) ;;
      if status =? StatusOK then ret tt
      else fail (who ++ " returned " ++ Go.itoa status ++ ": " ++ rbody)%string
  end.

Definition requestFastVaultKeygen (t : TSSService) (ctx : Context)
    (name sessionID hexEncKey hexChainCode : string) : M unit :=
  serverPartyID <- must (generateServerPartyID sessionID) "slice bounds out of range" ;;
  log Debug "Generated server party ID" ;;
  post (FastVaultServer env ++ "/vault/create")%string None
    (BodyVaultCreate
       {| vc_Name := name;
          vc_SessionID := sessionID;
          vc_HexEncryptionKey := hexEncKey;
          vc_HexChainCode := hexChainCode;
          vc_LocalPartyId := serverPartyID;
          vc_EncryptionPassword := "";
          vc_Email := "";
          vc_LibType := 1 |})
    "fast vault server".

Definition requestFastVaultReshare (t : TSSService) (ctx : Context)
    (vault : ptr) (sessionID hexEncKey password : string) : M unit :=
  serverPartyID <- must (generateServerPartyID sessionID) "slice bounds out of range" ;;
  v <- load vault ;;
  log Debug "Sending reshare request to Fast Vault Server" ;;
  post (FastVaultServer env ++ "/vault/reshare")%string None
    (BodyFastVaultReshare
       {| fr_Name := Name v;
          fr_PublicKey := PublicKeyECDSA v;
          fr_SessionID := sessionID;
          fr_HexEncryptionKey := hexEncKey;
          fr_HexChainCode := HexChainCode v;
          fr_LocalPartyId := serverPartyID;
          fr_OldParties := Signers v;
          fr_OldResharePrefix := ResharePrefix v;
          fr_EncryptionPassword := password;
          fr_Email := "";
          fr_ReshareType := 1;
          fr_LibType := LibType v |})
    "fast vault server".

Definition requestVerifierReshare (t : TSSService) (ctx : Context)
    (vault : ptr) (sessionID hexEncKey pluginID verifierURL authHeader : string)
    : M unit :=
  v <- load vault ;;
  sid8 <- must (Go.slice_to sessionID 8) "slice bounds out of range" ;;
  post (verifierURL ++ "/vault/reshare")%string (auth_of authHeader)
    (BodyVerifierReshare
       {| vr_Name := Name v;
          vr_PublicKey := PublicKeyECDSA v;
          vr_SessionID := sessionID;
          vr_HexEncryptionKey := hexEncKey;
          vr_HexChainCode := HexChainCode v;
          vr_LocalPartyId := ("verifier-" ++ sid8)%string;
          vr_OldParties := Signers v;
          vr_Email := "";
          vr_PluginID := pluginID |})
    "verifier".

Definition requestVerifierKeysign (t : TSSService) (ctx : Context)
    (vault : ptr) (sessionID hexEncKey : string) (messages : list string)
    (derivePath pluginID verifierURL authHeader : string) : M unit :=
  v <- load vault ;;
  post (verifierURL ++ "/vault/keysign")%string (auth_of authHeader)
    (BodyVerifierKeysign
       {| vk_PublicKey := PublicKeyECDSA v;
          vk_Messages := messages;
          vk_Session := sessionID;
          vk_HexEncryptionKey := hexEncKey;
          vk_DerivePath := derivePath;
          vk_PluginID := pluginID;
          vk_IsECDSA := true |})
    "verifier keysign".

Definition requestFastVaultKeysign (t : TSSService) (ctx : Context)
    (vault : ptr) (sessionID hexEncKey : string) (messages : list string)
    (derivePath : string) (isEdDSA : bool) (vaultPassword : string) : M unit :=
  v <- load vault ;;
  post (FastVaultServer env ++ "/vault/sign")%string None
    (BodyFastVaultSign
       {| fs_PublicKey := if isEdDSA then PublicKeyEdDSA v else PublicKeyECDSA v;
          fs_Messages := messages;
          fs_Session := sessionID;
          fs_HexEncryptionKey := hexEncKey;
          fs_DerivePath := derivePath;
          fs_IsECDSA := negb isEdDSA;
          fs_VaultPassword := vaultPassword |})
    "fast vault server".

(** *** Party recruitment

    The [for { select { ... } }] loop of [waitForParties]; [deadline] is the
    instant at which the channel of [time.After(KeygenTimeout)] fires. *)
Fixpoint waitLoop (fuel : nat) (ctx : Context) (deadline : Z)
    (sessionID : string) (expected : Z) : M (list string) :=
  match fuel with
  | O => fun w => (OutOfFuel, w)
  | Datatypes.S fuel' =>
    w <- get ;;
    match select (ctx_Done ctx (clock w)) (deadline <=? clock w)
                 (select_pick env (polls w)) with
    | SelCtx => fail (ctx_err_msg (ctx_cause ctx))
    | SelTimeout => fail "timeout waiting for parties"
    | SelDefault =>
      r <- attempt (GetSession sessionID) ;;
      match r with
      | inl _ =>
          log Debug "Failed to get session" ;;
          Sleep Go.Second ;;
          waitLoop fuel' ctx deadline sessionID expected
      | inr parties =>
          if Z.of_nat (length parties) >=? expected then ret parties
          else
            log Debug "Waiting for more parties..." ;;
            Sleep Go.Second ;;
            waitLoop fuel' ctx deadline sessionID expected
      end
    end
  end.

(** Every turn of the loop that does not return sleeps one second, so the
    timer channel is ready after at most [KeygenTimeout / Second] turns. *)
Definition wait_fuel : nat := Datatypes.S (Z.to_nat (KeygenTimeout / Go.Second)).

Definition waitForParties (t : TSSService) (ctx : Context)
    (sessionID : string) (expected : Z) : M (list string) :=
  w <- get ;;
  waitLoop wait_fuel ctx (clock w + KeygenTimeout) sessionID expected.

(** *** Shared prologue: session id and encryption key *)

Definition new_uuid : M string :=
  k <- outward env ;; ret (uuid_String (uuid_New env k)).

Definition random_hex : M string :=
  k <- outward env ;;
  match rand_Read env k with
  | Some bs => ret (hex_EncodeToString bs)
  | None => fail "rand: read failed"
  end.

Definition time_Now_RFC3339 : M string :=
  w <- get ;; ret (time_Format env (clock w)).

Definition warn_on_error (r : string + unit) (msg : string) : M unit :=
  match r with
  | inl _ => log Warn msg
  | inr _ => ret tt
  end.

(** *** Keygen *)

Definition Keygen (t : TSSService) (ctx : Context) (vaultName : string)
    : M ptr :=
  sessionID <- new_uuid ;;
  hexEncryptionKey <- wrapped "generate encryption key: " random_hex ;;
  hexChainCode <- wrapped "generate chain code: " random_hex ;;
  log Info "Starting keygen session" ;;
  wrapped "register session: " (RegisterSession sessionID (localPartyID t)) ;;
  log Info "Requesting Fast Vault Server to join keygen..." ;;
  wrapped "request fast vault keygen: "
    (requestFastVaultKeygen t ctx vaultName sessionID hexEncryptionKey
       hexChainCode) ;;
  log Info "Waiting for Fast Vault Server to join..." ;;
  parties <- wrapped "wait for parties: " (waitForParties t ctx sessionID 2) ;;
  log Info "All parties joined, starting keygen" ;;
  wrapped "start session: " (StartSession sessionID parties) ;;
  log Info "Running DKLS keygen protocol..." ;;
  log Info "[NOTE: This requires go-wrappers CGO library]" ;;
  log Info "The keygen protocol would execute here with the DKLS library" ;;
  log Info "For full TSS operation, ensure DYLD_LIBRARY_PATH is set:" ;;
  log Info "export DYLD_LIBRARY_PATH=/Users/dev/dev/vultisig/go-wrappers/includes/darwin/:$DYLD_LIBRARY_PATH" ;;
  r <- attempt (CompleteSession sessionID (localPartyID t)) ;;
  warn_on_error r "Failed to complete session" ;;
  now <- time_Now_RFC3339 ;;
  new {| Name := vaultName;
         PublicKeyECDSA := "";
         PublicKeyEdDSA := "";
         HexChainCode := hexChainCode;
         LocalPartyID := localPartyID t;
         Signers := parties;
         KeyShares := [];
         ResharePrefix := "";
         CreatedAt := now;
         LibType := 1 |}.

(** *** Reshare: the vault is reached through the caller's pointer *)

Definition Reshare (t : TSSService) (ctx : Context) (vault : ptr)
    (pluginID verifierURL authHeader vaultPassword : string) : M ptr :=
  sessionID <- new_uuid ;;
  hexEncryptionKey <- wrapped "generate encryption key: " random_hex ;;
  load vault ;;
  log Info "Starting reshare session" ;;
  wrapped "register session: " (RegisterSession sessionID (localPartyID t)) ;;
  log Info "Requesting Fast Vault Server to join reshare..." ;;
  r <- attempt (requestFastVaultReshare t ctx vault sessionID hexEncryptionKey
                  vaultPassword) ;;
  warn_on_error r "Failed to request Fast Vault Server - continuing anyway" ;;
  log Info "Requesting Verifier to join reshare..." ;;
  wrapped "request verifier reshare: "
    (requestVerifierReshare t ctx vault sessionID hexEncryptionKey pluginID
       verifierURL authHeader) ;;
  v <- load vault ;;
  let expectedParties := Go.add (Z.of_nat (length (Signers v))) 2 in
  log Info "Waiting for all parties to join..." ;;
  parties <- wrapped "wait for parties: "
               (waitForParties t ctx sessionID expectedParties) ;;
  log Info "All parties joined, starting reshare" ;;
  wrapped "start session: " (StartSession sessionID parties) ;;
  log Info "Running DKLS QC (reshare) protocol..." ;;
  store vault (set_Signers parties) ;;
  ret vault.

Definition ReshareWithPlugin (t : TSSService) (ctx : Context) (vault : ptr)
    (pluginID verifierURL authHeader vaultPassword : string) : M ptr :=
  sessionID <- new_uuid ;;
  hexEncryptionKey <- wrapped "generate encryption key: " random_hex ;;
  load vault ;;
  log Info "Starting plugin reshare session" ;;
  wrapped "register session: " (RegisterSession sessionID (localPartyID t)) ;;
  log Info "Requesting Fast Vault Server to join reshare..." ;;
  r <- attempt (requestFastVaultReshare t ctx vault sessionID hexEncryptionKey
                  vaultPassword) ;;
  warn_on_error r "Failed to request Fast Vault Server - continuing anyway" ;;
  log Info "Requesting Verifier to join reshare (with plugin)..." ;;
  wrapped "request verifier reshare: "
    (requestVerifierReshare t ctx vault sessionID hexEncryptionKey pluginID
       verifierURL authHeader) ;;
  v <- load vault ;;
  let expectedParties := Go.add (Z.of_nat (length (Signers v))) 2 in
  log Info "Waiting for all parties to join..." ;;
  parties <- wrapped "wait for parties: "
               (waitForParties t ctx sessionID expectedParties) ;;
  log Info "All parties joined, starting reshare" ;;
  wrapped "start session: " (StartSession sessionID parties) ;;
  log Info "Running DKLS QC (reshare) protocol..." ;;
  log Info "[NOTE: This requires go-wrappers CGO library for actual reshare]" ;;
  r <- attempt (CompleteSession sessionID (localPartyID t)) ;;
  warn_on_error r "Failed to complete session" ;;
  v <- load vault ;;
  sid8 <- must (Go.slice_to sessionID 8) "slice bounds out of range" ;;
  new {| Name := Name v;
         PublicKeyECDSA := PublicKeyECDSA v;
         PublicKeyEdDSA := PublicKeyEdDSA v;
         HexChainCode := HexChainCode v;
         LocalPartyID := LocalPartyID v;
         Signers := parties;
         KeyShares := KeyShares v;
         ResharePrefix := sid8;
         CreatedAt := CreatedAt v;
         LibType := LibType v |}.

(** *** Keysign *)

Definition KeysignWithVerifier (t : TSSService) (ctx : Context) (vault : ptr)
    (messages : list string)
    (derivePath verifierURL pluginID authHeader : string)
    : M (list KeysignResult) :=
  sessionID <- new_uuid ;;
  hexEncryptionKey <- wrapped "generate encryption key: " random_hex ;;
  v <- load vault ;;
  must (Go.slice_to (PublicKeyECDSA v) 16) "slice bounds out of range" ;;
  log Info "Starting keysign with verifier" ;;
  wrapped "register session: " (RegisterSession sessionID (localPartyID t)) ;;
  log Info "Requesting Verifier to join keysign for policy..." ;;
  wrapped "request verifier keysign: "
    (requestVerifierKeysign t ctx vault sessionID hexEncryptionKey messages
       derivePath pluginID verifierURL authHeader) ;;
  log Info "Waiting for Verifier to join..." ;;
  parties <- wrapped "wait for parties: " (waitForParties t ctx sessionID 2) ;;
  log Info "All parties joined, starting keysign" ;;
  wrapped "start session: " (StartSession sessionID parties) ;;
  log Info "Running DKLS keysign protocol with Verifier..." ;;
  log Info "[NOTE: This requires go-wrappers CGO library for actual signing]" ;;
  r <- attempt (CompleteSession sessionID (localPartyID t)) ;;
  warn_on_error r "Failed to complete session" ;;
  ret (map (fun _ => {| ks_R := "placeholder_r";
                        ks_S := "placeholder_s";
                        ks_RecoveryID := "1b";
                        ks_DerSignature := "placeholder_der" |}) messages).

Definition Keysign (t : TSSService) (ctx : Context) (vault : ptr)
    (messages : list string) (derivePath : string) (isEdDSA : bool)
    (vaultPassword : string) : M (list KeysignResult) :=
  sessionID <- new_uuid ;;
  hexEncryptionKey <- wrapped "generate encryption key: " random_hex ;;
  v <- load vault ;;
  let publicKey := if isEdDSA then PublicKeyEdDSA v else PublicKeyECDSA v in
  must (Go.slice_to publicKey 16) "slice bounds out of range" ;;
  log Info "Starting keysign session" ;;
  wrapped "register session: " (RegisterSession sessionID (localPartyID t)) ;;
  log Info "Requesting Fast Vault Server to join keysign..." ;;
  wrapped "request fast vault keysign: "
    (requestFastVaultKeysign t ctx vault sessionID hexEncryptionKey messages
       derivePath isEdDSA vaultPassword) ;;
  log Info "Waiting for Fast Vault Server to join..." ;;
  parties <- wrapped "wait for parties: " (waitForParties t ctx sessionID 2) ;;
  log Info "All parties joined, starting keysign" ;;
  wrapped "start session: " (StartSession sessionID parties) ;;
  log Info "Running DKLS keysign protocol..." ;;
  log Info "[NOTE: This requires go-wrappers CGO library for actual signing]" ;;
  r <- attempt (CompleteSession sessionID (localPartyID t)) ;;
  warn_on_error r "Failed to complete session" ;;
  ret (map (fun _ => {| ks_R := "placeholder";
                        ks_S := "placeholder";
                        ks_RecoveryID := "00";
                        ks_DerSignature := "placeholder" |}) messages).

End Service.

(** ** The vault store and the reshare command *)

(** [strings.Contains]. *)
Fixpoint Contains (s substr : string) : bool :=
  String.prefix substr s ||
  match s with
  | EmptyString => false
  | String _ s' => Contains s' substr
  end.

Definition HasPrefix (s p : string) : bool := String.prefix p s.
Definition HasSuffix (s p : string) : bool :=
  (String.length p <=? String.length s)%nat &&
  String.eqb (substring (String.length s - String.length p) (String.length p) s) p.

(** [os.WriteFile] into a directory listed in file-name order. *)
Fixpoint write_entry (name : string) (data : FileData)
    (d : list (string * FileData)) : list (string * FileData) :=
  match d with
  | [] => [(name, data)]
  | (n, x) :: rest =>
    if String.eqb n name then (name, data) :: rest
    else if String.ltb name n then (name, data) :: (n, x) :: rest
    else (n, x) :: write_entry name data rest
  end.

Fixpoint read_entry (name : string) (d : list (string * FileData))
    : option FileData :=
  match d with
  | [] => None
  | (n, x) :: rest => if String.eqb n name then Some x else read_entry name rest
  end.

(** A name that [filepath.Join(dir, name)] turns into an entry of [dir]: it
    has no separator and is neither empty nor a dot name. *)
Definition plain_name (name : string) : bool :=
  negb (Contains name "/") && negb (String.eqb name "")
  && negb (String.eqb name ".") && negb (String.eqb name "..").

(** [json.MarshalIndent(vault, "", "  ")]. It cannot fail on a [LocalVault];
    the file it fills decodes into [json_vault v]. *)
Definition MarshalIndent (v : LocalVault) : FileData := FileVault (json_vault v).

Section Store.

Variable env : Env.

(** The file the path [filepath.Join(dir, name)] names. *)
Definition path_key (name : string) : string :=
  if plain_name name then name else fs_path env name.

Definition fs_call : M unit :=
  k <- outward env ;; of_error (fs_fault env k).

Definition MkdirAll : M unit :=
  fs_call ;;
  w <- get ;;
  match disk w with
  | None => set_disk (Some [])
  | Some _ => ret tt
  end.

Definition ReadDir : M (list string) :=
  fs_call ;;
  w <- get ;;
  match disk w with
  | None => fail "no such file or directory"
  | Some d => ret (List.filter plain_name (map fst d))
  end.

Definition ReadFile (name : string) : M FileData :=
  fs_call ;;
  w <- get ;;
  match disk w with
  | None => fail "no such file or directory"
  | Some d =>
    match read_entry (path_key name) d with
    | Some x => ret x
    | None => fail "no such file or directory"
    end
  end.

(** The file [name] is created or cut to length zero and filled with [x]. *)
Definition put_file (name : string) (x : FileData)
    (d : list (string * FileData)) : M unit :=
  emit (EWriteFile name) ;;
  set_disk (Some (write_entry (path_key name) x d)).

(** [os.WriteFile]: open with [O_CREATE|O_TRUNC], write, close. When it
    fails, the file is as it was, or holds part of the data, or all of it. *)
Definition WriteFile (name : string) (data : FileData) : M unit :=
  k <- outward env ;;
  w <- get ;;
  match fs_fault env k, disk w with
  | None, Some d => put_file name data d
  | None, None => fail "no such file or directory"
  | Some e, Some d =>
    match fs_progress env k with
    | NotOpened => fail e
    | Truncated raw => put_file name (FileOther raw) d ;; fail e
    | Written => put_file name data d ;; fail e
    end
  | Some e, None => fail e
  end.

(** [json.Unmarshal(data, &vault)]. *)
Definition Unmarshal (data : FileData) : M LocalVault :=
  match data with
  | FileVault v => ret v
  | FileOther _ => fail "invalid character looking for beginning of value"
  end.

Definition SaveVault (vault : ptr) : M unit :=
  wrapped "create vault dir: " MkdirAll ;;
  v <- load vault ;;
  filename <-
    (if negb (String.eqb (PublicKeyECDSA v) "")
        && (Go.len (PublicKeyECDSA v) >=? 16)
     then
       p <- must (Go.slice_to (PublicKeyECDSA v) 16) "slice bounds out of range" ;;
       ret (p ++ ".json")%string
     else
       d <- must (Go.slice_to (CreatedAt v) 10) "slice bounds out of range" ;;
       ret (Name v ++ "-" ++ d ++ ".json")%string) ;;
  wrapped "write vault: " (WriteFile filename (MarshalIndent v)).

Fixpoint LoadVault_scan (files : list string) (pubKeyPrefix : string)
    : M ptr :=
  match files with
  | [] => fail "vault not found"
  | name :: rest =>
    if HasPrefix name pubKeyPrefix || Contains name pubKeyPrefix then
      data <- wrapped "read vault file: " (ReadFile name) ;;
      v <- wrapped "unmarshal vault: " (Unmarshal data) ;;
      new v
    else LoadVault_scan rest pubKeyPrefix
  end.

Definition LoadVault (pubKeyPrefix : string) : M ptr :=
  files <- wrapped "read vault dir: " ReadDir ;;
  LoadVault_scan files pubKeyPrefix.

(** [LoadConfig] reads the CLI configuration file; the environment says
    what it finds. *)
Definition LoadConfig : M DevConfig :=
  k <- outward env ;;
  match cfg_Load env k with
  | inl e => fail e
  | inr cfg => ret cfg
  end.

Definition LoadAuthToken : M (string * Z) :=
  cfg <- LoadConfig ;;
  if String.eqb (cfg_AuthToken cfg) "" then fail "no auth token found"
  else
    match time_Parse env (cfg_AuthExpiresAt cfg) with
    | None => fail "parse expiry: cannot parse"
    | Some expiresAt => ret (cfg_AuthToken cfg, expiresAt)
    end.

Definition GetAuthHeader : M string :=
  r <- attempt LoadAuthToken ;;
  match r with
  | inl _ => fail "not authenticated. Run 'devctl auth login' first"
  | inr (token, expiresAt) =>
    w <- get ;;
    if expiresAt <? clock w
    then fail "authentication expired. Run 'devctl auth login' to re-authenticate"
    else ret ("Bearer " ++ token)%string
  end.

(** [runVaultReshare]; what it prints is left out. *)
Definition runVaultReshare (pluginID verifierURL password : string) : M unit :=
  cfg <- wrapped "load config: " LoadConfig ;;
  if String.eqb (cfg_PublicKeyECDSA cfg) ""
  then fail "no vault configured. Run 'devctl vault import' first"
  else
    p <- must (Go.slice_to (cfg_PublicKeyECDSA cfg) 16) "slice bounds out of range" ;;
    vault <- wrapped "load vault: " (LoadVault p) ;;
    v <- load vault ;;
    r <- attempt GetAuthHeader ;;
    let authHeader := match r with inl _ => "" | inr h => h end in
    w <- get ;;
    let ctx := WithTimeout (clock w) (30 * Go.Second)
                 (timer_lag env (calls w)) in
    let tss := NewTSSService (LocalPartyID v) in
    newVault <- wrapped "reshare failed: "
                  (Reshare env tss ctx vault pluginID verifierURL authHeader
                     password) ;;
    wrapped "save vault: " (SaveVault newVault) ;;
    load newVault ;;
    ret tt.

End Store.

(** ** Notions used to state the properties *)

(** The last five characters of a string, or all of it when it is shorter. *)
Definition last5 (s : string) : string :=
  if (5 <? String.length s)%nat then substring (String.length s - 5) 5 s else s.



Definition is_poll (e : Event) : bool :=
  match e with
  | EGetSession _ _ => true
  | _ => false
  end.

(** The events a run added to the trace. *)
Definition new_events (w w' : World) : list Event :=
  drop (length (trace w)) (trace w').

Definition is_start (e : Event) : bool :=
  match e with
  | EStartSession _ _ => true
  | _ => false
  end.

Definition is_write (e : Event) : bool :=
  match e with
  | EWriteFile _ => true
  | _ => false
  end.

(** The events the frame conditions keep track of: those that touch the
    session's membership (polls and the start) and the writes to the vault
    directory. *)
Definition is_tracked (e : Event) : bool :=
  is_poll e || is_start e || is_write e.

Definition silent (evs : list Event) : Prop :=
  Forall (fun e => is_tracked e = false) evs.

(** A stretch of a run that leaves the heap and the vault directory alone:
    time passes and the trace grows. *)
Record calm (w w' : World) : Prop := {
  calm_heap : heap w' = heap w;
  calm_disk : disk w' = disk w;
  calm_clock : clock w <= clock w';
  calm_trace : exists evs, trace w' = trace w ++ evs
}.

(** A calm stretch that, on top, neither polls the relay nor starts the
    session nor writes a file. *)
Record quiet (w w' : World) : Prop := {
  quiet_calm : calm w w';
  quiet_polls : polls w' = polls w;
  quiet_trace : silent (new_events w w')
}.

Definition calmly {A} (m : M A) : Prop :=
  forall w r w', m w = (r, w') -> calm w w'.

Definition quietly {A} (m : M A) : Prop :=
  forall w r w', m w = (r, w') -> quiet w w'.

Definition is_ok {A} (r : Res A) : bool :=
  match r with
  | Ok _ => true
  | _ => false
  end.

(** A failure seen at another result type. *)
Definition carry {A B} (r : Res A) : Res B :=
  match r with
  | Ok _ => OutOfFuel
  | Err e => Err e
  | Panic msg => Panic msg
  | OutOfFuel => OutOfFuel
  end.

(** What one turn of the recruitment loop that does not return adds to the
    trace: the poll, a debug line and the one-second sleep. *)
Definition turn_events (sid : string) (resp : string + list string) : list Event :=
  [EGetSession sid resp;
   ELog Debug (match resp with
               | inl _ => "Failed to get session"
               | inr _ => "Waiting for more parties..."
               end);
   ESleep Go.Second].

(** A poll that did not show quorum: a relay error or too few members. *)
Definition short_of (expected : Z) (resp : string + list string) : Prop :=
  match resp with
  | inl _ => True
  | inr parties => Z.of_nat (length parties) < expected
  end.

Definition timeout_msg : string := "timeout waiting for parties".

(** The world after one turn of the loop that did not return. *)
Definition after_turn (env : Env) (sid : string) (w : World) : World :=
  {| clock := clock w + Z.of_N (latency env (calls w)) + Go.Second;
     calls := Datatypes.S (calls w);
     polls := Datatypes.S (polls w);
     heap := heap w; disk := disk w;
     trace := trace w ++ turn_events sid (relay_GetSession env (polls w) sid) |}.

(** The shape of the trace of a run that reached quorum and went on to start
    the session: some steps without tracked events, then polls that fell
    short, each followed by its sleep, then the poll that showed [parties],
    the start of the session with that very list, and a tail without
    tracked events. *)
Definition recruited (sid : string) (expected : Z) (parties : list string)
    (evs : list Event) : Prop :=
  exists pre resps msg post,
    evs = pre ++ concat (map (turn_events sid) resps)
              ++ [EGetSession sid (inr parties); ELog Info msg;
                  EStartSession sid parties]
              ++ post /\
    silent pre /\
    Forall (short_of expected) resps /\
    expected <= Z.of_nat (length parties) /\
    silent post.

(** A crash of the process, as opposed to a returned error. *)
Definition crashed {A} (r : Res A) : bool :=
  match r with
  | Panic _ | OutOfFuel => true
  | _ => false
  end.

(** A step that cannot crash when run from [w]. *)
Definition sound {A} (m : M A) (w : World) : Prop :=
  forall r w', m w = (r, w') -> crashed r = false.

Definition no_write (evs : list Event) : Prop :=
  Forall (fun e => is_write e = false) evs.

(** [v] is the content of a file of the vault directory. *)
Definition stored (v : LocalVault) (d : option (list (string * FileData)))
    : Prop :=
  exists name files, d = Some files /\ read_entry name files = Some (FileVault v).

(** The configured vault key is empty or long enough for the command to take
    its first sixteen characters. *)
Definition config_well_formed (env : Env) : Prop :=
  forall k cfg, cfg_Load env k = inr cfg ->
    cfg_PublicKeyECDSA cfg = "" \/ 16 <= Go.len (cfg_PublicKeyECDSA cfg).

(** ** Concrete runs *)

Module Scenario.

(** The session id 3f2a9c1e-0000-4000-8000-000000000001. *)
Definition uuid : UUID :=
  {| u0 := x3f; u1 := x2a; u2 := x9c; u3 := x1e;
     u4 := x00; u5 := x00; u6 := x40; u7 := x00;
     u8 := x80; u9 := x00; u10 := x00; u11 := x00;
     u12 := x00; u13 := x00; u14 := x00; u15 := x01 |}.

(** Every service answers favourably and at once; [members] is what the
    relay reports at each poll. The runtime closes [Done] a quarter of a
    millisecond after a deadline. *)
Definition env (members : nat -> string + list string) : Env :=
  {| FastVaultServer := "http://localhost:8080";
     RelayServer := "http://localhost:8090";
     uuid_New := fun _ => uuid;
     rand_Read := fun _ => Some (repeat x00 32);
     relay_RegisterSession := fun _ _ => None;
     relay_GetSession := fun n _ => members n;
     relay_StartSession := fun _ _ => None;
     relay_CompleteSession := fun _ _ => None;
     http_Do := fun _ _ _ => HttpResponse 200 "";
     latency := fun _ => 0%N;
     select_pick := fun _ => true;
     time_Format := fun _ => "2025-01-01T00:00:00Z";
     time_Parse := fun _ => None;
     cfg_Load := fun _ => inl "open config: no such file or directory";
     fs_fault := fun _ => None;
     fs_progress := fun _ => NotOpened;
     fs_path := fun name => name;
     timer_lag := fun _ => 250000%N |}.

(** The same world, except that the Verifier answers 500. *)
Definition env_verifier_down (members : nat -> string + list string) : Env :=
  {| FastVaultServer := "http://localhost:8080";
     RelayServer := "http://localhost:8090";
     uuid_New := fun _ => uuid;
     rand_Read := fun _ => Some (repeat x00 32);
     relay_RegisterSession := fun _ _ => None;
     relay_GetSession := fun n _ => members n;
     relay_StartSession := fun _ _ => None;
     relay_CompleteSession := fun _ _ => None;
     http_Do := fun _ _ body =>
                  match body with
                  | BodyVerifierReshare _ => HttpResponse 500 "internal error"
                  | _ => HttpResponse 200 ""
                  end;
     latency := fun _ => 0%N;
     select_pick := fun _ => true;
     time_Format := fun _ => "2025-01-01T00:00:00Z";
     time_Parse := fun _ => None;
     cfg_Load := fun _ => inl "open config: no such file or directory";
     fs_fault := fun _ => None;
     fs_progress := fun _ => NotOpened;
     fs_path := fun name => name;
     timer_lag := fun _ => 250000%N |}.


Definition tss : TSSService := NewTSSService "devctl".

Definition vault : LocalVault :=
  {| Name := "main";
     PublicKeyECDSA := "02a1b2c3d4e5f60718293a4b5c6d7e8f90";
     PublicKeyEdDSA := "9f8e7d6c5b4a39281706f5e4d3c2b1a0ff";
     HexChainCode := "00112233";
     LocalPartyID := "devctl";
     Signers := ["devctl"; "Server-12345"];
     KeyShares := [{| PubKey := "02a1b2c3d4e5f60718293a4b5c6d7e8f90";
                      Keyshare := "c2hhcmU=" |}];
     ResharePrefix := "a1b2c3d4";
     CreatedAt := "2024-12-01T10:00:00Z";
     LibType := 1 |}.

(** An empty trace, an empty vault directory, no vault in memory. *)
Definition world0 : World :=
  {| clock := 0; calls := 0; polls := 0; heap := [];
     disk := Some []; trace := [] |}.

(** [vault] is in memory, at pointer [0]. *)
Definition world1 : World :=
  {| clock := 0; calls := 0; polls := 0; heap := [vault];
     disk := Some []; trace := [] |}.

(** The relay shows the coordinator alone for [n] polls and then
    [parties]. *)
Definition joins_after (n : nat) (parties : list string)
    : nat -> string + list string :=
  fun k => if (k <? n)%nat then inr ["devctl"] else inr parties.

Definition four : list string :=
  ["devctl"; "Server-12345"; "verifier-3f2a9c1e"; "vultisig-dca-0000"].

(** The configuration of a CLI that imported [vault] and logged in. *)
Definition config : DevConfig :=
  {| cfg_PublicKeyECDSA := "02a1b2c3d4e5f60718293a4b5c6d7e8f90";
     cfg_AuthToken := "eyJhbGciOiJIUzI1NiJ9";
     cfg_AuthPublicKey := "02a1b2c3d4e5f60718293a4b5c6d7e8f90";
     cfg_AuthExpiresAt := "2025-01-08T00:00:00Z" |}.

(** The world [e] with that configuration on disk; the token expires in a
    week. *)
Definition logged_in (e : Env) : Env :=
  {| FastVaultServer := FastVaultServer e;
     RelayServer := RelayServer e;
     uuid_New := uuid_New e;
     rand_Read := rand_Read e;
     relay_RegisterSession := relay_RegisterSession e;
     relay_GetSession := relay_GetSession e;
     relay_StartSession := relay_StartSession e;
     relay_CompleteSession := relay_CompleteSession e;
     http_Do := http_Do e;
     latency := latency e;
     select_pick := select_pick e;
     time_Format := time_Format e;
     time_Parse := fun _ => Some (7 * 24 * 60 * Go.Minute);
     cfg_Load := fun _ => inr config;
     fs_fault := fs_fault e;
     fs_progress := fs_progress e;
     fs_path := fs_path e;
     timer_lag := timer_lag e |}.

(** The world [e] of a CLI that imported [vault] and never logged in: the
    configuration names the vault and holds no token. *)
Definition logged_out (e : Env) : Env :=
  {| FastVaultServer := FastVaultServer e;
     RelayServer := RelayServer e;
     uuid_New := uuid_New e;
     rand_Read := rand_Read e;
     relay_RegisterSession := relay_RegisterSession e;
     relay_GetSession := relay_GetSession e;
     relay_StartSession := relay_StartSession e;
     relay_CompleteSession := relay_CompleteSession e;
     http_Do := http_Do e;
     latency := latency e;
     select_pick := select_pick e;
     time_Format := time_Format e;
     time_Parse := time_Parse e;
     cfg_Load := fun _ =>
       inr {| cfg_PublicKeyECDSA := "02a1b2c3d4e5f60718293a4b5c6d7e8f90";
              cfg_AuthToken := "";
              cfg_AuthPublicKey := "";
              cfg_AuthExpiresAt := "" |};
     fs_fault := fs_fault e;
     fs_progress := fs_progress e;
     fs_path := fs_path e;
     timer_lag := timer_lag e |}.

(** The world [e] on a full disk: the second file-system call of a run, which
    is the write in a save, fails after the file was opened, with one byte
    in it. *)
Definition disk_full (e : Env) : Env :=
  {| FastVaultServer := FastVaultServer e;
     RelayServer := RelayServer e;
     uuid_New := uuid_New e;
     rand_Read := rand_Read e;
     relay_RegisterSession := relay_RegisterSession e;
     relay_GetSession := relay_GetSession e;
     relay_StartSession := relay_StartSession e;
     relay_CompleteSession := relay_CompleteSession e;
     http_Do := http_Do e;
     latency := latency e;
     select_pick := select_pick e;
     time_Format := time_Format e;
     time_Parse := time_Parse e;
     cfg_Load := cfg_Load e;
     fs_fault := fun k => if (k =? 1)%nat
                          then Some "no space left on device" else None;
     fs_progress := fun _ => Truncated "{";
     fs_path := fs_path e;
     timer_lag := timer_lag e |}.

(** [vault] is stored in the vault directory, and nowhere in memory. *)
Definition world2 : World :=
  {| clock := 0; calls := 0; polls := 0; heap := [];
     disk := Some [("02a1b2c3d4e5f607.json", FileVault vault)]; trace := [] |}.

End Scenario.

(** The five operations of the service under one roof. *)
Inductive Operation : Type :=
| OpKeygen (vaultName : string)
| OpReshare (vault : ptr) (pluginID verifierURL authHeader vaultPassword : string)
| OpReshareWithPlugin (vault : ptr)
    (pluginID verifierURL authHeader vaultPassword : string)
| OpKeysign (vault : ptr) (messages : list string) (derivePath : string)
    (isEdDSA : bool) (vaultPassword : string)
| OpKeysignWithVerifier (vault : ptr) (messages : list string)
    (derivePath verifierURL pluginID authHeader : string).

Inductive Outcome : Type :=
| Vault (p : ptr)
| Signatures (sigs : list KeysignResult).

Definition run (env : Env) (t : TSSService) (ctx : Context) (op : Operation)
    : M Outcome :=
  match op with
  | OpKeygen name =>
      p <- Keygen env t ctx name ;; ret (Vault p)
  | OpReshare vault plugin url auth pw =>
      p <- Reshare env t ctx vault plugin url auth pw ;; ret (Vault p)
  | OpReshareWithPlugin vault plugin url auth pw =>
      p <- ReshareWithPlugin env t ctx vault plugin url auth pw ;; ret (Vault p)
  | OpKeysign vault msgs path ed pw =>
      s <- Keysign env t ctx vault msgs path ed pw ;; ret (Signatures s)
  | OpKeysignWithVerifier vault msgs path url plugin auth =>
      s <- KeysignWithVerifier env t ctx vault msgs path url plugin auth ;;
      ret (Signatures s)
  end.

(** The two reshare entry points. *)
Inductive ReshareVariant : Type := Plain | WithPlugin.

Definition reshare_via (k : ReshareVariant) (env : Env) (t : TSSService)
    (ctx : Context) (vault : ptr)
    (pluginID verifierURL authHeader vaultPassword : string) : M ptr :=
  match k with
  | Plain => Reshare env t ctx vault pluginID verifierURL authHeader vaultPassword
  | WithPlugin =>
      ReshareWithPlugin env t ctx vault pluginID verifierURL authHeader
        vaultPassword
  end.

(** Everything of a vault but its signers and its reshare prefix. *)
Definition same_identity (v v' : LocalVault) : Prop :=
  Name v' = Name v /\
  PublicKeyECDSA v' = PublicKeyECDSA v /\
  PublicKeyEdDSA v' = PublicKeyEdDSA v /\
  HexChainCode v' = HexChainCode v /\
  LocalPartyID v' = LocalPartyID v /\
  KeyShares v' = KeyShares v /\
  CreatedAt v' = CreatedAt v /\
  LibType v' = LibType v.





(** ** Further functions of the command *)

(** [truncateStr]; [None] is the slice-bounds panic of [s[:maxLen-3]]. *)
Definition truncateStr (s : string) (maxLen : Z) : option string :=
  if Go.len s <=? maxLen then Some s
  else
    match Go.slice_to s (Go.add maxLen (-3)) with
    | Some p => Some (p ++ "...")%string
    | None => None
    end.

Section Commands.

Variable env : Env.

(** The loop of [ListVaults]: a file that cannot be read or parsed is
    skipped. *)
Fixpoint ListVaults_scan (files : list string) (vaults : list ptr)
    : M (list ptr) :=
  match files with
  | [] => ret vaults
  | name :: rest =>
    if HasSuffix name ".json" then
      r <- attempt (ReadFile env name) ;;
      match r with
      | inl _ => ListVaults_scan rest vaults
      | inr data =>
        u <- attempt (Unmarshal data) ;;
        match u with
        | inl _ => ListVaults_scan rest vaults
        | inr v => p <- new v ;; ListVaults_scan rest (vaults ++ [p])
        end
      end
    else ListVaults_scan rest vaults
  end.

(** [ListVaults]. A missing directory is the one [os.ReadDir] error for which
    [os.IsNotExist] holds; the faults of the environment are the others. *)
Definition ListVaults : M (list ptr) :=
  k <- outward env ;;
  match fs_fault env k with
  | Some e => fail ("read vault dir: " ++ e)%string
  | None =>
    w <- get ;;
    match disk w with
    | None => ret []
    | Some d => ListVaults_scan (List.filter plain_name (map fst d)) []
    end
  end.

(** [runVaultKeysign]; what it prints is left out. *)
Definition runVaultKeysign (message derivePath : string) (isEdDSA : bool)
    (vaultPassword : string) : M unit :=
  cfg <- wrapped "load config: " (LoadConfig env) ;;
  if String.eqb (cfg_PublicKeyECDSA cfg) ""
  then fail "no vault configured. Run 'devctl vault import' first"
  else
    p <- must (Go.slice_to (cfg_PublicKeyECDSA cfg) 16) "slice bounds out of range" ;;
    vault <- wrapped "load vault: " (LoadVault env p) ;;
    v <- load vault ;;
    let derivePath := if isEdDSA then "" else derivePath in
    w <- get ;;
    let ctx := WithTimeout (clock w) (3 * Go.Minute)
                 (timer_lag env (calls w)) in
    let tss := NewTSSService (LocalPartyID v) in
    wrapped "keysign failed: "
      (Keysign env tss ctx vault [message] derivePath isEdDSA vaultPassword) ;;
    ret tt.

End Commands.
(** ** Notions used to state the properties of the store *)

(** The file a vault is saved under, as [SaveVault] derives it; [None] is the
    slice-bounds panic of [vault.CreatedAt[:10]]. *)
Definition vault_file_name (v : LocalVault) : option string :=
  if negb (String.eqb (PublicKeyECDSA v) "") && (Go.len (PublicKeyECDSA v) >=? 16)
  then option_map (fun p => (p ++ ".json")%string)
         (Go.slice_to (PublicKeyECDSA v) 16)
  else option_map (fun d => (Name v ++ "-" ++ d ++ ".json")%string)
         (Go.slice_to (CreatedAt v) 10).

(** The content of the file [name] of the vault directory. *)
Definition file_at (d : option (list (string * FileData))) (name : string)
    : option FileData :=
  match d with
  | Some files => read_entry name files
  | None => None
  end.


(** The names [os.ReadDir] lists. *)
Definition dir_names (d : option (list (string * FileData))) : list string :=
  match d with
  | Some files => List.filter plain_name (map fst files)
  | None => []
  end.

(** The file system answers every call. *)
Definition no_faults (env : Env) : Prop := forall k, fs_fault env k = None.

(** A file name [LoadVault] takes for the prefix [p]. *)
Definition matches (p name : string) : bool :=
  HasPrefix name p || Contains name p.

(** The vaults of the [.json] files among [names] that parse, in order. *)
Definition listed (d : list (string * FileData)) (names : list string)
    : list LocalVault :=
  flat_map (fun name =>
              if HasSuffix name ".json" then
                match read_entry name d with
                | Some (FileVault v) => [v]
                | _ => []
                end
              else []) names.

(** The world after one outward call that leaves no trace. *)
Definition after_call (env : Env) (w : World) : World :=
  {| clock := clock w + Z.of_N (latency env (calls w));
     calls := Datatypes.S (calls w); polls := polls w;
     heap := heap w; disk := disk w; trace := trace w |}.


(** ** Notions used to state what a run does on the way *)

(** Every run of [m] relates the world it started in to the one it ended
    in. *)
Definition keeps (R : World -> World -> Prop) {A} (m : M A) : Prop :=
  forall w r w', m w = (r, w') -> R w w'.

(** A relation between worlds that every step of the service respects, as
    long as the events it emits satisfy [P]. *)
Class Frame (R : World -> World -> Prop) (P : Event -> Prop) : Prop := {
  frame_refl : forall w, R w w;
  frame_trans : forall w1 w2 w3, R w1 w2 -> R w2 w3 -> R w1 w3;
  frame_emit : forall e w, P e -> R w (snd (emit e w));
  frame_outward : forall env w, R w (after_call env w);
  frame_advance : forall d w, 0 <= d -> R w (snd (advance d w));
  frame_heap : forall h w, R w (snd (set_heap h w))
}.

(** The vault directory is as it was and every new event satisfies [P]. *)
Definition told (P : Event -> Prop) (w w' : World) : Prop :=
  disk w' = disk w /\
  exists evs, trace w' = trace w ++ evs /\ Forall P evs.

(** No poll was made and the clock did not go back. *)
Definition unpolled (w w' : World) : Prop :=
  polls w' = polls w /\ clock w <= clock w'.

(** The session a request body names, and the encryption key it carries. *)
Definition payload_session (b : Payload) : string :=
  match b with
  | BodyVaultCreate r => vc_SessionID r
  | BodyFastVaultReshare r => fr_SessionID r
  | BodyVerifierReshare r => vr_SessionID r
  | BodyVerifierKeysign r => vk_Session r
  | BodyFastVaultSign r => fs_Session r
  end.

Definition payload_key (b : Payload) : string :=
  match b with
  | BodyVaultCreate r => vc_HexEncryptionKey r
  | BodyFastVaultReshare r => fr_HexEncryptionKey r
  | BodyVerifierReshare r => vr_HexEncryptionKey r
  | BodyVerifierKeysign r => vk_HexEncryptionKey r
  | BodyFastVaultSign r => fs_HexEncryptionKey r
  end.

(** The session an outward call is about. *)
Definition session_of (e : Event) : option string :=
  match e with
  | ERegisterSession s _ | EGetSession s _ | EStartSession s _
  | ECompleteSession s _ => Some s
  | EHttpPost _ _ b => Some (payload_session b)
  | _ => None
  end.

(** [e] is about the session [sid] if it is about any, and carries the key
    [key] if it carries any. *)
Definition about (sid key : string) (e : Event) : Prop :=
  match session_of e with
  | Some s => s = sid
  | None => True
  end /\
  match e with
  | EHttpPost _ _ b => payload_key b = key
  | _ => True
  end.

(** The key of the session: the hex form of the 32 bytes read right after
    the session id was drawn. *)
Definition session_key (env : Env) (w : World) : string :=
  match rand_Read env (Datatypes.S (calls w)) with
  | Some bs => hex_EncodeToString bs
  | None => ""
  end.

(** Where a join request of an operation may go, and under which
    [Authorization] header: the Fast Vault Server is never sent one, the
    Verifier is sent the caller's unless it is empty. *)
Definition routed (env : Env) (verifierURL authHeader : string) (e : Event)
    : Prop :=
  match e with
  | EHttpPost url auth (BodyVaultCreate _) =>
      url = (FastVaultServer env ++ "/vault/create")%string /\ auth = None
  | EHttpPost url auth (BodyFastVaultReshare _) =>
      url = (FastVaultServer env ++ "/vault/reshare")%string /\ auth = None
  | EHttpPost url auth (BodyFastVaultSign _) =>
      url = (FastVaultServer env ++ "/vault/sign")%string /\ auth = None
  | EHttpPost url auth (BodyVerifierReshare _) =>
      url = (verifierURL ++ "/vault/reshare")%string /\
      auth = auth_of authHeader
  | EHttpPost url auth (BodyVerifierKeysign _) =>
      url = (verifierURL ++ "/vault/keysign")%string /\
      auth = auth_of authHeader
  | _ => True
  end.

(** The Verifier an operation talks to and the header it was given. *)
Definition op_verifier (op : Operation) : string :=
  match op with
  | OpReshare _ _ url _ _ | OpReshareWithPlugin _ _ url _ _
  | OpKeysignWithVerifier _ _ _ url _ _ => url
  | _ => ""
  end.

Definition op_auth (op : Operation) : string :=
  match op with
  | OpReshare _ _ _ auth _ | OpReshareWithPlugin _ _ _ auth _
  | OpKeysignWithVerifier _ _ _ _ _ auth => auth
  | _ => ""
  end.

(** Every poll of the stretch began before the instant [T], and a second
    passed after each poll but the last. *)
Definition within (T : Z) (w w' : World) : Prop :=
  clock w <= clock w' /\
  (polls w <= polls w')%nat /\
  (polls w' = polls w \/
   clock w + (Z.of_nat (polls w' - polls w) - 1) * Go.Second < T).

(** At most [n] polls were made. *)
Definition polled_at_most (n : nat) (w w' : World) : Prop :=
  (polls w' <= polls w + n)%nat.

(** What the keysign command may send: one kind of request, for the one
    message, with the derive path dropped for EdDSA. *)
Definition signing_request (message derivePath : string) (isEdDSA : bool)
    (vaultPassword : string) (e : Event) : Prop :=
  match e with
  | EHttpPost _ _ (BodyFastVaultSign r) =>
      fs_Messages r = [message] /\
      fs_DerivePath r = (if isEdDSA then "" else derivePath) /\
      fs_IsECDSA r = negb isEdDSA /\
      fs_VaultPassword r = vaultPassword
  | EHttpPost _ _ _ => False
  | EWriteFile _ => False
  | _ => True
  end.

(** What a run told the relay and the Fast Vault Server agrees with the
    vault [v]: the party it registered, and the name, the chain code and the
    library type of the create request. *)
Definition agrees_with (v : LocalVault) (e : Event) : Prop :=
  match e with
  | ERegisterSession _ party => party = LocalPartyID v
  | ECompleteSession _ party => party = LocalPartyID v
  | EHttpPost _ _ (BodyVaultCreate r) =>
      vc_Name r = Name v /\ vc_HexChainCode r = HexChainCode v /\
      vc_LibType r = LibType v
  | _ => True
  end.

(** Every new event satisfies [P]; the vault directory may change. *)
Definition said (P : Event -> Prop) (w w' : World) : Prop :=
  exists evs, trace w' = trace w ++ evs /\ Forall P evs.

(** A header [GetAuthHeader] can return: the stored token as a bearer. *)
Definition bearer_of (env : Env) (hdr : string) : Prop :=
  exists k cfg,
    cfg_Load env k = inr cfg /\
    cfg_AuthToken cfg <> "" /\
    hdr = ("Bearer " ++ cfg_AuthToken cfg)%string.



(** The world in which the reshare command asks for its header: it has read
    the configuration, listed the vault directory and read the vault file. *)
Definition at_login (env : Env) (w : World) : World :=
  after_call env (after_call env (after_call env w)).

(** The header the reshare command passes on: what [GetAuthHeader] returned,
    or the empty string when it failed. *)
Definition header_of (r : Res string) : string :=
  match r with
  | Ok h => h
  | _ => ""
  end.

(** A reshare request to the Verifier at [url], sent under [auth]. *)
Definition verifier_reshare_request (url : string) (auth : option string)
    (e : Event) : Prop :=
  exists body,
    e = EHttpPost (url ++ "/vault/reshare")%string auth (BodyVerifierReshare body).

(** Every run of [m] that returns has emitted an event that satisfies [Q]. *)
Definition tells (Q : Event -> Prop) {A} (m : M A) : Prop :=
  forall w a w', m w = (Ok a, w') -> exists e, Q e /\ In e (new_events w w').

(* ===================================================================== *)
(** * Properties *)
(* ===================================================================== *)

(** ** Machine integers and strings *)

Lemma wrap_range (z : Z) : Go.in_int (Go.wrap z).
Proof.
  unfold Go.in_int, Go.wrap, Go.min_int, Go.max_int, Go.int_bits.
  pose proof (Z.mod_pos_bound (z + 2 ^ (64 - 1)) (2 ^ 64) ltac:(lia)). lia.
Qed.

Lemma wrap_small (z : Z) : Go.in_int z -> Go.wrap z = z.
Proof.
  unfold Go.in_int, Go.wrap, Go.min_int, Go.max_int, Go.int_bits. intros H.
  rewrite Z.mod_small; lia.
Qed.

Lemma hash_fold_range (cs : list Z) (h : Z) :
  Go.in_int h -> Go.in_int (fold_left hash_step cs h).
Proof.
  revert h. induction cs as [|c cs IH]; intros h Hh; simpl; [exact Hh|].
  apply IH. unfold hash_step, Go.add. apply wrap_range.
Qed.

Lemma hash31_range (sid : string) : Go.in_int (hash31 sid).
Proof.
  unfold hash31. apply hash_fold_range.
  unfold Go.in_int, Go.min_int, Go.max_int, Go.int_bits. lia.
Qed.



(** The tail of [generateServerPartyID]: keep the last five characters. *)
Lemma suffix_slice (s : string) :
  (if Go.len s >? 5 then Go.slice_from s (Go.len s - 5) else Some s)
  = Some (last5 s).
Proof.
  unfold last5, Go.slice_from, Go.len.
  destruct (5 <? String.length s)%nat eqn:E.
  - apply Nat.ltb_lt in E.
    replace (Z.of_nat (String.length s) >? 5) with true by (symmetry; apply Z.gtb_lt; lia).
    replace (Z.of_nat (String.length s) - 5 <? 0) with false by (symmetry; apply Z.ltb_ge; lia).
    replace (Z.of_nat (String.length s) <? Z.of_nat (String.length s) - 5)
      with false by (symmetry; apply Z.ltb_ge; lia).
    simpl. do 2 f_equal; lia.
  - apply Nat.ltb_ge in E.
    replace (Z.of_nat (String.length s) >? 5) with false; [reflexivity|].
    symmetry. rewrite Z.gtb_ltb. apply Z.ltb_ge. lia.
Qed.

Lemma abs_rendering (h : Z) :
  Go.in_int h ->
  last5 (Go.itoa (if h <? 0 then Go.neg h else h)) = last5 (Go.itoa (Z.abs h)).
Proof.
  intros Hh. destruct (h <? 0) eqn:E.
  - apply Z.ltb_lt in E. destruct (Z.eq_dec h Go.min_int) as [->|Hne].
    + vm_compute. reflexivity.
    + unfold Go.neg. rewrite wrap_small.
      * rewrite Z.abs_neq by lia. reflexivity.
      * unfold Go.in_int, Go.min_int, Go.max_int, Go.int_bits in *. lia.
  - apply Z.ltb_ge in E. rewrite Z.abs_eq by lia. reflexivity.
Qed.

Lemma generateServerPartyID_closed (sid : string) :
  generateServerPartyID sid
  = Some ("Server-" ++ last5 (Go.itoa (Z.abs (hash31 sid))))%string.
Proof.
  unfold generateServerPartyID. rewrite suffix_slice.
  rewrite (abs_rendering _ (hash31_range sid)). reflexivity.
Qed.

(** ** The monad *)

Lemma bind_cases {A B} (m : M A) (k : A -> M B) w r w' :
  bind m k w = (r, w') ->
  (exists a w1, m w = (Ok a, w1) /\ k a w1 = (r, w')) \/
  (exists r0, m w = (r0, w') /\ is_ok r0 = false /\ r = carry r0).
Proof.
  unfold bind. destruct (m w) as [[a|e|msg|] w1]; intros H.
  - left. eauto.
  - right. exists (Err e). inversion H; subst. auto.
  - right. exists (Panic msg). inversion H; subst. auto.
  - right. exists OutOfFuel. inversion H; subst. auto.
Qed.

Lemma bind_ok {A B} (m : M A) (k : A -> M B) w b w' :
  bind m k w = (Ok b, w') ->
  exists a w1, m w = (Ok a, w1) /\ k a w1 = (Ok b, w').
Proof.
  intros H. apply bind_cases in H as [H|(r0 & _ & Hr & Hc)]; [exact H|].
  destruct r0; simpl in *; discriminate.
Qed.

Lemma bind_run {A B} (m : M A) (k : A -> M B) w a w1 :
  m w = (Ok a, w1) -> bind m k w = k a w1.
Proof. intros H. unfold bind. rewrite H. reflexivity. Qed.

Lemma bind_stop {A B} (m : M A) (k : A -> M B) w r w1 :
  m w = (r, w1) -> is_ok r = false -> bind m k w = (carry r, w1).
Proof. intros H Hr. unfold bind. rewrite H. destruct r; simpl in *; congruence. Qed.

Lemma wrapped_ok {A} prefix (m : M A) w a w' :
  wrapped prefix m w = (Ok a, w') -> m w = (Ok a, w').
Proof.
  unfold wrapped. destruct (m w) as [[?|?|?|] ?]; intros H; inversion H; reflexivity.
Qed.

Lemma wrapped_cases {A} prefix (m : M A) w r w' :
  wrapped prefix m w = (r, w') ->
  exists r0, m w = (r0, w') /\
    match r0 with
    | Err e => r = Err (prefix ++ e)%string
    | _ => r = r0
    end.
Proof.
  unfold wrapped. destruct (m w) as [[a|e|msg|] w1]; intros H; inversion H; subst.
  - exists (Ok a). auto.
  - exists (Err e). auto.
  - exists (Panic msg). auto.
  - exists OutOfFuel. auto.
Qed.

Lemma attempt_cases {A} (m : M A) w r w' :
  attempt m w = (r, w') ->
  exists r0, m w = (r0, w') /\
    match r0 with
    | Ok a => r = Ok (inr a)
    | Err e => r = Ok (inl e)
    | Panic msg => r = Panic msg
    | OutOfFuel => r = OutOfFuel
    end.
Proof.
  unfold attempt. destruct (m w) as [[a|e|msg|] w1]; intros H; inversion H; subst.
  - exists (Ok a). auto.
  - exists (Err e). auto.
  - exists (Panic msg). auto.
  - exists OutOfFuel. auto.
Qed.

(** ** Calm and quiet stretches *)

Lemma new_events_app w w' evs :
  trace w' = trace w ++ evs -> new_events w w' = evs.
Proof. intros H. unfold new_events. rewrite H. apply drop_app_length. Qed.

Lemma calm_refl w : calm w w.
Proof. split; try reflexivity. exists []. symmetry. apply app_nil_r. Qed.

Lemma calm_trans w1 w2 w3 : calm w1 w2 -> calm w2 w3 -> calm w1 w3.
Proof.
  intros [H1 D1 C1 [e1 T1]] [H2 D2 C2 [e2 T2]]. split; try congruence; try lia.
  exists (e1 ++ e2). rewrite T2, T1. symmetry. apply app_assoc.
Qed.

Lemma calm_new_events w w' : calm w w' -> trace w' = trace w ++ new_events w w'.
Proof. intros [_ _ _ [evs T]]. rewrite (new_events_app _ _ _ T). exact T. Qed.

Lemma new_events_trans w1 w2 w3 :
  calm w1 w2 -> calm w2 w3 ->
  new_events w1 w3 = new_events w1 w2 ++ new_events w2 w3.
Proof.
  intros C12 C23. apply new_events_app.
  rewrite (calm_new_events _ _ C23), (calm_new_events _ _ C12).
  symmetry. apply app_assoc.
Qed.

Lemma quiet_refl w : quiet w w.
Proof.
  split; [apply calm_refl|reflexivity|].
  rewrite (new_events_app w w []); [constructor|symmetry; apply app_nil_r].
Qed.

Lemma quiet_trans w1 w2 w3 : quiet w1 w2 -> quiet w2 w3 -> quiet w1 w3.
Proof.
  intros [C1 P1 N1] [C2 P2 N2]. split; [eapply calm_trans; eauto|congruence|].
  rewrite (new_events_trans _ _ _ C1 C2). apply Forall_app. split; assumption.
Qed.

Lemma quiet_step w w' evs :
  heap w' = heap w -> disk w' = disk w -> polls w' = polls w ->
  clock w <= clock w' -> trace w' = trace w ++ evs -> silent evs ->
  quiet w w'.
Proof.
  intros Hh Hd Hp Hc Ht Hn. split; [split; eauto|exact Hp|].
  rewrite (new_events_app _ _ _ Ht). exact Hn.
Qed.

Lemma quietly_calmly {A} (m : M A) : quietly m -> calmly m.
Proof. intros H w r w' Hr. apply (H w r w' Hr). Qed.

Lemma quietly_ret {A} (a : A) : quietly (ret a).
Proof. intros w r w' H. inversion H; subst. apply quiet_refl. Qed.

Lemma quietly_fail {A} e : quietly (@fail A e).
Proof. intros w r w' H. inversion H; subst. apply quiet_refl. Qed.

Lemma quietly_panic {A} msg : quietly (@panic A msg).
Proof. intros w r w' H. inversion H; subst. apply quiet_refl. Qed.

Lemma quietly_get : quietly get.
Proof. intros w r w' H. inversion H; subst. apply quiet_refl. Qed.

Lemma quietly_bind {A B} (m : M A) (k : A -> M B) :
  quietly m -> (forall a, quietly (k a)) -> quietly (bind m k).
Proof.
  intros Hm Hk w r w' H.
  apply bind_cases in H as [(a & w1 & H1 & H2)|(r0 & H1 & _)].
  - eapply quiet_trans; [eapply Hm|eapply Hk]; eauto.
  - eapply Hm; eauto.
Qed.

Lemma quietly_wrapped {A} prefix (m : M A) : quietly m -> quietly (wrapped prefix m).
Proof.
  intros Hm w r w' H. apply wrapped_cases in H as (r0 & H & _). eapply Hm; eauto.
Qed.

Lemma quietly_attempt {A} (m : M A) : quietly m -> quietly (attempt m).
Proof.
  intros Hm w r w' H. apply attempt_cases in H as (r0 & H & _). eapply Hm; eauto.
Qed.

Lemma quietly_emit e : is_tracked e = false -> quietly (emit e).
Proof.
  intros He w r w' H. inversion H; subst.
  eapply (quiet_step _ _ [e]); simpl; try reflexivity; try lia.
  repeat constructor. exact He.
Qed.

Lemma quietly_log lvl msg : quietly (log lvl msg).
Proof. apply quietly_emit. reflexivity. Qed.

Lemma quietly_outward env : quietly (outward env).
Proof.
  intros w r w' H. inversion H; subst.
  eapply (quiet_step _ _ []); simpl; try reflexivity; try lia;
    try (symmetry; apply app_nil_r); try constructor.
Qed.

Lemma quietly_advance d : 0 <= d -> quietly (advance d).
Proof.
  intros Hd w r w' H. inversion H; subst.
  eapply (quiet_step _ _ []); simpl; try reflexivity; try lia;
    try (symmetry; apply app_nil_r); try constructor.
Qed.

Lemma quietly_must {A} (o : option A) msg : quietly (must o msg).
Proof. destruct o; [apply quietly_ret|apply quietly_panic]. Qed.

Lemma quietly_of_error o : quietly (of_error o).
Proof. destruct o; [apply quietly_fail|apply quietly_ret]. Qed.

Lemma quietly_load p : quietly (load p).
Proof.
  apply quietly_bind; [apply quietly_get|]. intros w.
  destruct (heap w !! p); [apply quietly_ret|apply quietly_panic].
Qed.

Create HintDb quiet.
#[local] Hint Resolve quietly_ret quietly_fail quietly_panic quietly_get
  quietly_log quietly_outward quietly_must quietly_of_error quietly_load
  : quiet.

(** Breaks a computation down to the primitives above. *)
Ltac quiet_tac :=
  repeat first
    [ progress auto with quiet
    | lazymatch goal with
      | |- quietly (bind _ _) => apply quietly_bind; [|intros ?]
      | |- quietly (wrapped _ _) => apply quietly_wrapped
      | |- quietly (attempt _) => apply quietly_attempt
      | |- quietly (emit _) => apply quietly_emit; reflexivity
      | |- quietly (match ?x with _ => _ end) => destruct x
      | |- quietly (if ?b then _ else _) => destruct b
      end ].

(** ** The relay client and the join requests *)

Lemma quietly_Sleep d : 0 <= d -> quietly (Sleep d).
Proof. intros Hd. unfold Sleep. quiet_tac. apply quietly_advance. exact Hd. Qed.

Lemma quietly_RegisterSession env sid party :
  quietly (RegisterSession env sid party).
Proof. unfold RegisterSession. quiet_tac. Qed.

Lemma quietly_CompleteSession env sid party :
  quietly (CompleteSession env sid party).
Proof. unfold CompleteSession. quiet_tac. Qed.

Lemma quietly_post env url auth body who : quietly (post env url auth body who).
Proof. unfold post. quiet_tac. Qed.

#[local] Hint Resolve quietly_RegisterSession quietly_CompleteSession
  quietly_post : quiet.

Lemma quietly_requestFastVaultKeygen env t ctx name sid key chain :
  quietly (requestFastVaultKeygen env t ctx name sid key chain).
Proof. unfold requestFastVaultKeygen. quiet_tac. Qed.

Lemma quietly_requestFastVaultReshare env t ctx vault sid key pw :
  quietly (requestFastVaultReshare env t ctx vault sid key pw).
Proof. unfold requestFastVaultReshare. quiet_tac. Qed.

Lemma quietly_requestVerifierReshare env t ctx vault sid key plugin url auth :
  quietly (requestVerifierReshare env t ctx vault sid key plugin url auth).
Proof. unfold requestVerifierReshare. quiet_tac. Qed.

Lemma quietly_requestVerifierKeysign env t ctx vault sid key msgs path plugin
    url auth :
  quietly (requestVerifierKeysign env t ctx vault sid key msgs path plugin url
             auth).
Proof. unfold requestVerifierKeysign. quiet_tac. Qed.

Lemma quietly_requestFastVaultKeysign env t ctx vault sid key msgs path ed pw :
  quietly (requestFastVaultKeysign env t ctx vault sid key msgs path ed pw).
Proof. unfold requestFastVaultKeysign. quiet_tac. Qed.

Lemma quietly_new_uuid env : quietly (new_uuid env).
Proof. unfold new_uuid. quiet_tac. Qed.

Lemma quietly_random_hex env : quietly (random_hex env).
Proof. unfold random_hex. quiet_tac. Qed.

Lemma quietly_time_Now_RFC3339 env : quietly (time_Now_RFC3339 env).
Proof. unfold time_Now_RFC3339. quiet_tac. Qed.

Lemma quietly_warn_on_error r msg : quietly (warn_on_error r msg).
Proof. unfold warn_on_error. quiet_tac. Qed.

#[local] Hint Resolve quietly_requestFastVaultKeygen
  quietly_requestFastVaultReshare quietly_requestVerifierReshare
  quietly_requestVerifierKeysign quietly_requestFastVaultKeysign
  quietly_new_uuid quietly_random_hex quietly_time_Now_RFC3339
  quietly_warn_on_error : quiet.

(** ** The recruitment loop *)

Section WaitFacts.

Variable env : Env.

Lemma GetSession_run sid w r w' :
  GetSession env sid w = (r, w') ->
  heap w' = heap w /\ disk w' = disk w /\ clock w <= clock w' /\
  polls w' = Datatypes.S (polls w) /\
  trace w' = trace w ++ [EGetSession sid (relay_GetSession env (polls w) sid)] /\
  r = match relay_GetSession env (polls w) sid with
      | inl e => Err e
      | inr parties => Ok parties
      end.
Proof.
  unfold GetSession, bind, outward, count_poll, emit. simpl.
  destruct (relay_GetSession env (polls w) sid) as [e|L]; simpl; intros H;
    inversion H; subst; simpl; repeat split; lia.
Qed.


Lemma after_turn_calm sid w : calm w (after_turn env sid w).
Proof.
  split; simpl; try reflexivity.
  - unfold Go.Second, Go.Nanosecond. lia.
  - eexists. reflexivity.
Qed.

Lemma turn_step fuel ctx dl sid expected w :
  ctx_Done ctx (clock w) = false -> (dl <=? clock w) = false ->
  short_of expected (relay_GetSession env (polls w) sid) ->
  waitLoop env (Datatypes.S fuel) ctx dl sid expected w
  = waitLoop env fuel ctx dl sid expected (after_turn env sid w).
Proof.
  intros Ec Ed Hs. simpl. unfold bind at 1, get at 1. rewrite Ec, Ed. simpl.
  cbv beta iota zeta delta [bind attempt GetSession outward count_poll emit
    log Sleep advance after_turn turn_events ret fail].
  simpl.
  destruct (relay_GetSession env (polls w) sid) as [e|L] eqn:Er; simpl in *.
  - rewrite <- !app_assoc. reflexivity.
  - replace (Z.of_nat (length L) >=? expected) with false.
    + simpl. rewrite <- !app_assoc. reflexivity.
    + symmetry. rewrite Z.geb_leb. apply Z.leb_gt. exact Hs.
Qed.

Lemma quorum_step fuel ctx dl sid expected w L :
  ctx_Done ctx (clock w) = false -> (dl <=? clock w) = false ->
  relay_GetSession env (polls w) sid = inr L ->
  expected <= Z.of_nat (length L) ->
  waitLoop env (Datatypes.S fuel) ctx dl sid expected w
  = (Ok L, {| clock := clock w + Z.of_N (latency env (calls w));
              calls := Datatypes.S (calls w);
              polls := Datatypes.S (polls w);
              heap := heap w; disk := disk w;
              trace := trace w ++ [EGetSession sid (inr L)] |}).
Proof.
  intros Ec Ed Hr Hq. simpl. unfold bind at 1, get at 1. rewrite Ec, Ed. simpl.
  cbv beta iota zeta delta [bind attempt GetSession outward count_poll emit
    ret fail].
  simpl. rewrite Hr. simpl.
  replace (Z.of_nat (length L) >=? expected) with true; [reflexivity|].
  symmetry. rewrite Z.geb_leb. apply Z.leb_le. exact Hq.
Qed.

Lemma waitLoop_run fuel ctx dl sid expected : forall w r w',
  waitLoop env fuel ctx dl sid expected w = (r, w') ->
  calm w w' /\
  exists resps,
    Forall (short_of expected) resps /\
    clock w + Z.of_nat (length resps) * Go.Second <= clock w' /\
    polls w' = (polls w + length resps + (if is_ok r then 1 else 0))%nat /\
    match r with
    | Ok parties =>
        new_events w w' = concat (map (turn_events sid) resps)
                          ++ [EGetSession sid (inr parties)] /\
        expected <= Z.of_nat (length parties)
    | Err e =>
        new_events w w' = concat (map (turn_events sid) resps) /\
        ((e = timeout_msg /\ dl <= clock w') \/
         (e = ctx_err_msg (ctx_cause ctx) /\ ctx_Done ctx (clock w') = true))
    | Panic _ => False
    | OutOfFuel =>
        fuel = 0%nat \/ clock w + (Z.of_nat fuel - 1) * Go.Second < dl
    end.
Proof.
  assert (Hstop : forall w e,
    ((e = timeout_msg /\ dl <= clock w) \/
     (e = ctx_err_msg (ctx_cause ctx) /\ ctx_Done ctx (clock w) = true)) ->
    calm w w /\
    exists resps : list (string + list string),
      Forall (short_of expected) resps /\
      clock w + Z.of_nat (length resps) * Go.Second <= clock w /\
      polls w = (polls w + length resps + 0)%nat /\
      new_events w w = concat (map (turn_events sid) resps) /\
      ((e = timeout_msg /\ dl <= clock w) \/
       (e = ctx_err_msg (ctx_cause ctx) /\ ctx_Done ctx (clock w) = true))).
  { intros w e He. split; [apply calm_refl|]. exists []. simpl.
    repeat split; try exact He; try lia;
      try (apply new_events_app; symmetry; apply app_nil_r); constructor. }
  induction fuel as [|fuel IH]; intros w r w' H.
  - simpl in H. inversion H; subst. split; [apply calm_refl|].
    exists []. simpl. repeat split; try constructor; try lia.
  - destruct (ctx_Done ctx (clock w)) eqn:Ec; destruct (dl <=? clock w) eqn:Ed.
    + simpl in H. unfold bind at 1, get at 1 in H. rewrite Ec, Ed in H. simpl in H.
      destruct (select_pick env (polls w)); inversion H; subst; apply Hstop.
      * right. auto.
      * left. split; [reflexivity|]. apply Z.leb_le. exact Ed.
    + simpl in H. unfold bind at 1, get at 1 in H. rewrite Ec, Ed in H. simpl in H.
      inversion H; subst. apply Hstop. right. auto.
    + simpl in H. unfold bind at 1, get at 1 in H. rewrite Ec, Ed in H. simpl in H.
      inversion H; subst. apply Hstop. left. split; [reflexivity|].
      apply Z.leb_le. exact Ed.
    + destruct (relay_GetSession env (polls w) sid) as [e|L] eqn:Er.
      2: destruct (Z_le_gt_dec expected (Z.of_nat (length L))) as [Hq|Hq].
      2: { rewrite (quorum_step _ _ _ _ _ _ L Ec Ed Er Hq) in H.
           inversion H; subst. split.
           - split; simpl; try reflexivity; [lia|]. eexists. reflexivity.
           - exists []. simpl. repeat split; try constructor; try lia.
             apply new_events_app. reflexivity. }
      all: rewrite turn_step in H by (try assumption; rewrite Er; simpl; try exact I; lia).
      all: apply IH in H as (Hc & resps & Hs & Hk & Hp & Hr).
      all: pose proof (after_turn_calm sid w) as Hc0.
      all: split; [eapply calm_trans; eassumption|].
      all: exists (relay_GetSession env (polls w) sid :: resps).
      all: assert (Hshort : short_of expected (relay_GetSession env (polls w) sid))
             by (rewrite Er; simpl; try exact I; lia).
      all: assert (Hev : new_events w w' =
                         turn_events sid (relay_GetSession env (polls w) sid)
                         ++ new_events (after_turn env sid w) w')
             by (rewrite (new_events_trans _ _ _ Hc0 Hc); f_equal;
                 apply new_events_app; reflexivity).
      all: apply Z.leb_gt in Ed.
      all: simpl in Hk, Hp.
      all: repeat split;
             [ constructor; assumption
             | simpl length; unfold Go.Second, Go.Nanosecond in *; lia
             | simpl length; lia
             | ].
      all: destruct r as [parties|e'| |]; simpl in *.
      all: try (destruct Hr as [Hr1 Hr2]; split; [rewrite Hev, Hr1; simpl;
                  rewrite <- ?app_assoc; reflexivity | exact Hr2]).
      all: try contradiction.
      all: right; destruct Hr as [->|Hr]; unfold Go.Second, Go.Nanosecond in *; lia.
Qed.

Lemma waitForParties_run t ctx sid expected w r w' :
  waitForParties env t ctx sid expected w = (r, w') ->
  calm w w' /\
  exists resps,
    Forall (short_of expected) resps /\
    clock w + Z.of_nat (length resps) * Go.Second <= clock w' /\
    polls w' = (polls w + length resps + (if is_ok r then 1 else 0))%nat /\
    match r with
    | Ok parties =>
        new_events w w' = concat (map (turn_events sid) resps)
                          ++ [EGetSession sid (inr parties)] /\
        expected <= Z.of_nat (length parties)
    | Err e =>
        new_events w w' = concat (map (turn_events sid) resps) /\
        ((e = timeout_msg /\ clock w + KeygenTimeout <= clock w') \/
         (e = ctx_err_msg (ctx_cause ctx) /\ ctx_Done ctx (clock w') = true))
    | Panic _ => False
    | OutOfFuel => False
    end.
Proof.
  unfold waitForParties, bind at 1, get at 1. intros H.
  apply waitLoop_run in H as (Hc & resps & Hs & Hk & Hp & Hr).
  split; [exact Hc|]. exists resps. repeat split; try assumption.
  destruct r as [L|e| |]; try exact Hr.
  destruct Hr as [Hr|Hr]; [discriminate Hr|].
  change (Z.of_nat wait_fuel) with 181 in Hr.
  change KeygenTimeout with 180000000000 in Hr.
  change Go.Second with 1000000000 in Hr. lia.
Qed.

End WaitFacts.

Lemma bind_quiet {A B} (m : M A) (k : A -> M B) w r w' :
  quietly m -> bind m k w = (r, w') ->
  (exists a w1, quiet w w1 /\ m w = (Ok a, w1) /\ k a w1 = (r, w')) \/
  (quiet w w' /\ exists r0, m w = (r0, w') /\ is_ok r0 = false /\ r = carry r0).
Proof.
  intros Hm H. apply bind_cases in H as [(a & w1 & H1 & H2)|(r0 & H1 & H2)].
  - left. exists a, w1. split; [eapply Hm; eauto|auto].
  - right. split; [eapply Hm; eauto|eauto].
Qed.

(** ** Recruiting and starting a session *)

Section RecruitFacts.

Variable env : Env.

Lemma log_run lvl msg w :
  log lvl msg w = (Ok tt, {| clock := clock w; calls := calls w; polls := polls w;
                             heap := heap w; disk := disk w;
                             trace := trace w ++ [ELog lvl msg] |}).
Proof. reflexivity. Qed.

Lemma StartSession_run sid L w r w' :
  StartSession env sid L w = (r, w') ->
  calm w w' /\ new_events w w' = [EStartSession sid L] /\
  r = match relay_StartSession env sid L with
      | Some e => Err e
      | None => Ok tt
      end.
Proof.
  cbv beta iota zeta delta [StartSession bind outward emit of_error ret fail].
  destruct (relay_StartSession env sid L); simpl; intros H; inversion H; subst;
    (split; [split; simpl; try reflexivity; try lia; eexists; reflexivity|]);
    (split; [apply new_events_app; reflexivity|reflexivity]).
Qed.

Lemma recruit_run {B} t ctx sid expected msg (k : list string -> M B) w r w' :
  bind (wrapped "wait for parties: " (waitForParties env t ctx sid expected))
    (fun parties =>
       bind (log Info msg)
         (fun _ => bind (wrapped "start session: " (StartSession env sid parties))
                     (fun _ => k parties))) w = (r, w') ->
  (exists e resps,
      r = Err ("wait for parties: " ++ e)%string /\ calm w w' /\
      Forall (short_of expected) resps /\
      new_events w w' = concat (map (turn_events sid) resps) /\
      ((e = timeout_msg /\ clock w + KeygenTimeout <= clock w') \/
       (e = ctx_err_msg (ctx_cause ctx) /\ ctx_Done ctx (clock w') = true)))
  \/
  (exists L resps w2,
      Forall (short_of expected) resps /\
      expected <= Z.of_nat (length L) /\
      calm w w2 /\
      new_events w w2 = concat (map (turn_events sid) resps)
                        ++ [EGetSession sid (inr L); ELog Info msg;
                            EStartSession sid L] /\
      ((exists e, r = Err ("start session: " ++ e)%string /\ w' = w2) \/
       k L w2 = (r, w'))).
Proof.
  intros H. apply bind_cases in H as [(L & w1 & H1 & H2)|(r0 & H1 & Hr0 & ->)].
  - right. apply wrapped_ok in H1.
    apply waitForParties_run in H1 as (Hc & resps & Hs & _ & _ & Hev & Hq).
    rewrite (bind_run _ _ _ _ _ (log_run Info msg w1)) in H2.
    set (w1' := {| clock := clock w1; calls := calls w1; polls := polls w1;
                   heap := heap w1; disk := disk w1;
                   trace := trace w1 ++ [ELog Info msg] |}) in *.
    assert (Hc1 : calm w1 w1').
    { split; simpl; try reflexivity; try lia. eexists; reflexivity. }
    assert (He1 : new_events w1 w1' = [ELog Info msg]).
    { apply new_events_app. reflexivity. }
    apply bind_cases in H2 as [(u & w2 & H2 & H3)|(r1 & H2 & Hr1 & ->)].
    + apply wrapped_ok in H2. apply StartSession_run in H2 as (Hc2 & He2 & _).
      pose proof (calm_trans _ _ _ Hc1 Hc2) as Hc12.
      exists L, resps, w2.
      split; [exact Hs|]. split; [exact Hq|].
      split; [eapply calm_trans; eassumption|]. split.
      * rewrite (new_events_trans _ _ _ Hc Hc12), (new_events_trans _ _ _ Hc1 Hc2).
        rewrite Hev, He1, He2. rewrite <- !app_assoc. reflexivity.
      * right. exact H3.
    + apply wrapped_cases in H2 as (r2 & H2 & Hr2).
      apply StartSession_run in H2 as (Hc2 & He2 & Hres).
      pose proof (calm_trans _ _ _ Hc1 Hc2) as Hc12.
      exists L, resps, w'.
      split; [exact Hs|]. split; [exact Hq|].
      split; [eapply calm_trans; eassumption|]. split.
      * rewrite (new_events_trans _ _ _ Hc Hc12), (new_events_trans _ _ _ Hc1 Hc2).
        rewrite Hev, He1, He2. rewrite <- !app_assoc. reflexivity.
      * left. destruct (relay_StartSession env sid L) as [e|]; subst r2; subst r1;
          [exists e; split; reflexivity|discriminate].
  - left. apply wrapped_cases in H1 as (r1 & H1 & Hr1).
    apply waitForParties_run in H1 as (Hc & resps & Hs & _ & _ & Hr).
    destruct r1 as [L|e| |]; subst r0; try discriminate; try contradiction.
    destruct Hr as [Hev Hk]. exists e, resps.
    split; [reflexivity|]. split; [exact Hc|]. split; [exact Hs|].
    split; assumption.
Qed.

End RecruitFacts.

(** ** Quorum detection *)

Lemma split_at_last {A} (body : list A) (x e : A) (evs1 evs2 : list A) :
  body ++ [x] = evs1 ++ e :: evs2 ->
  (evs2 = [] /\ e = x /\ evs1 = body) \/ In e body.
Proof.
  destruct evs2 as [|y evs2 _] using rev_ind; intros H.
  - apply app_inj_tail in H as [-> ->]. left. auto.
  - right. change (e :: evs2 ++ [y]) with ((e :: evs2) ++ [y]) in H.
    rewrite app_assoc in H. apply app_inj_tail in H as [-> _].
    apply in_or_app. right. left. reflexivity.
Qed.

Lemma turns_short sid expected resps s L :
  Forall (short_of expected) resps ->
  In (EGetSession s (inr L)) (concat (map (turn_events sid) resps)) ->
  Z.of_nat (length L) < expected.
Proof.
  induction 1 as [|resp resps Hs _ IH]; simpl; [contradiction|].
  intros [H|[H|[H|H]]]; try discriminate; [|apply IH; exact H].
  inversion H; subst. exact Hs.
Qed.

(** C9. In every run of the recruitment wait, a poll that observes at least
    [expected] members is the last event of the wait, and the wait returns
    the member list of that poll; the wait always returns. *)
Theorem quorum_detection_stops_polling env t ctx sid expected w r w' :
  waitForParties env t ctx sid expected w = (r, w') ->
  r <> OutOfFuel /\
  forall evs1 s parties evs2,
    new_events w w' = evs1 ++ EGetSession s (inr parties) :: evs2 ->
    expected <= Z.of_nat (length parties) ->
    evs2 = [] /\ r = Ok parties.
Proof.
  intros H. apply waitForParties_run in H as (_ & resps & Hs & _ & _ & Hr).
  split; [intros ->; exact Hr|].
  intros evs1 s L evs2 Hev Hq. destruct r as [L'|e| |]; try contradiction.
  - destruct Hr as [Hr _]. rewrite Hr in Hev.
    apply split_at_last in Hev as [(-> & He & _)|Hin].
    + inversion He; subst. auto.
    + apply (turns_short _ _ _ _ _ Hs) in Hin. lia.
  - destruct Hr as [Hr _]. rewrite Hr in Hev.
    assert (Hin : In (EGetSession s (inr L)) (concat (map (turn_events sid) resps))).
    { rewrite Hev. apply in_or_app. right. left. reflexivity. }
    apply (turns_short _ _ _ _ _ Hs) in Hin. lia.
Qed.

Lemma quorum_detection_stops_polling_witness :
  let e := Scenario.env (Scenario.joins_after 2 ["devctl"; "Server-12345"]) in
  let run := waitForParties e Scenario.tss Background "s" 2 Scenario.world0 in
  fst run <> OutOfFuel /\
  forall evs1 s parties evs2,
    new_events Scenario.world0 (snd run) = evs1 ++ EGetSession s (inr parties) :: evs2 ->
    2 <= Z.of_nat (length parties) ->
    evs2 = [] /\ fst run = Ok parties.
Proof.
  intros e run.
  apply (quorum_detection_stops_polling e Scenario.tss Background "s" 2
           Scenario.world0 (fst run) (snd run)).
  vm_compute. reflexivity.
Defined.

(** ** The server party id *)



(** ** Successful runs of the operations *)

(** Inverts a successful run of a chain of binds into its steps. *)
Ltac invert_ok H :=
  repeat lazymatch type of H with
         | bind _ _ _ = (Ok _, _) =>
             let a := fresh "a" in
             let w := fresh "w" in
             let Hm := fresh "Hm" in
             apply bind_ok in H; destruct H as (a & w & Hm & H)
         end.

(** Records that every inverted step made without session calls was quiet. *)
Ltac note_quiet :=
  repeat match goal with
         | Hm : ?m ?w1 = (Ok _, ?w2) |- _ =>
             lazymatch goal with
             | _ : quiet w1 w2 |- _ => fail
             | _ => idtac
             end;
             let Hq := fresh "Hq" in
             let Hqm := fresh in
             assert (Hqm : quietly m) by solve [quiet_tac];
             pose proof (Hqm _ _ _ Hm) as Hq; clear Hqm
         end.

Ltac chain_quiet :=
  first
    [ eassumption
    | apply quiet_refl
    | match goal with
      | Hq : quiet ?a ?m |- quiet ?a ?b =>
          tryif constr_eq a m then fail
          else (apply (quiet_trans _ _ _ Hq); chain_quiet)
      end ].

Lemma new_run v w p w' :
  new v w = (Ok p, w') ->
  p = length (heap w) /\ heap w' = heap w ++ [v] /\ disk w' = disk w /\
  trace w' = trace w /\ clock w' = clock w.
Proof. intros H. inversion H; subst. simpl. auto. Qed.

Lemma recruited_intro sid expected msg L resps w w1 w2 w3 w' :
  quiet w w1 -> calm w1 w2 -> quiet w2 w3 -> trace w' = trace w3 ->
  Forall (short_of expected) resps ->
  expected <= Z.of_nat (length L) ->
  new_events w1 w2 = concat (map (turn_events sid) resps)
                     ++ [EGetSession sid (inr L); ELog Info msg;
                         EStartSession sid L] ->
  recruited sid expected L (new_events w w').
Proof.
  intros [C1 _ S1] C2 [C3 _ S3] Ht Hs Hq Hev.
  exists (new_events w w1), resps, msg, (new_events w2 w3).
  split; [|auto].
  pose proof (calm_trans _ _ _ C2 C3) as C23.
  assert (new_events w w' = new_events w w3) as ->.
  { unfold new_events. rewrite Ht. reflexivity. }
  rewrite (new_events_trans _ _ _ C1 C23), (new_events_trans _ _ _ C2 C3), Hev.
  rewrite <- !app_assoc. reflexivity.
Qed.

Section OperationFacts.

Variable env : Env.

Lemma waitForParties_ok t ctx sid expected w L w' :
  waitForParties env t ctx sid expected w = (Ok L, w') ->
  calm w w' /\ expected <= Z.of_nat (length L) /\
  exists resps, Forall (short_of expected) resps /\
    new_events w w' = concat (map (turn_events sid) resps)
                      ++ [EGetSession sid (inr L)].
Proof.
  intros H. apply waitForParties_run in H as (Hc & resps & Hs & _ & _ & Hev & Hq).
  eauto 6.
Qed.


Lemma fragment_ok t ctx sid expected msg L w7 w8 w9 w10 u1 u2 :
  waitForParties env t ctx sid expected w7 = (Ok L, w8) ->
  log Info msg w8 = (Ok u1, w9) ->
  StartSession env sid L w9 = (Ok u2, w10) ->
  calm w7 w10 /\ expected <= Z.of_nat (length L) /\
  exists resps, Forall (short_of expected) resps /\
    new_events w7 w10 = concat (map (turn_events sid) resps)
                        ++ [EGetSession sid (inr L); ELog Info msg;
                            EStartSession sid L].
Proof.
  intros H1 H2 H3.
  apply waitForParties_ok in H1 as (C1 & Hq & resps & Hs & He1).
  rewrite log_run in H2. inversion H2; subst w9; clear H2.
  apply StartSession_run in H3 as (C3 & He3 & _).
  match type of C3 with calm ?x _ => set (w9 := x) in * end.
  assert (C2 : calm w8 w9).
  { split; simpl; try reflexivity; try lia. eexists; reflexivity. }
  assert (He2 : new_events w8 w9 = [ELog Info msg]).
  { apply new_events_app. reflexivity. }
  pose proof (calm_trans _ _ _ C2 C3) as C23.
  split; [eapply calm_trans; eassumption|]. split; [exact Hq|].
  exists resps. split; [exact Hs|].
  rewrite (new_events_trans _ _ _ C1 C23), (new_events_trans _ _ _ C2 C3).
  rewrite He1, He2, He3. rewrite <- !app_assoc. reflexivity.
Qed.


Lemma uuid_slice8 u : Go.slice_to (uuid_String u) 8 = Some (uuid_prefix8 u).
Proof. destruct u. reflexivity. Qed.

Lemma new_uuid_ok a w w' :
  new_uuid env w = (Ok a, w') -> a = uuid_String (uuid_New env (calls w)).
Proof. intros H. inversion H. reflexivity. Qed.

Lemma load_ok p v w w' :
  load p w = (Ok v, w') -> heap w !! p = Some v /\ w' = w.
Proof.
  unfold load, bind, get. destruct (heap w !! p); intros H; inversion H; auto.
Qed.

Lemma store_ok p f u w w' :
  store p f w = (Ok u, w') ->
  exists v, heap w !! p = Some v /\ heap w' = <[p := f v]> (heap w) /\
            disk w' = disk w /\ trace w' = trace w /\ clock w' = clock w.
Proof.
  unfold store, bind, get. destruct (heap w !! p) as [v|]; intros H;
    inversion H; subst. exists v. simpl. auto.
Qed.

Lemma must_ok {A} (o : option A) msg a w w' :
  must o msg w = (Ok a, w') -> o = Some a /\ w' = w.
Proof. destruct o; intros H; inversion H; auto. Qed.

Lemma ret_ok {A} (a b : A) w w' : ret a w = (Ok b, w') -> b = a /\ w' = w.
Proof. intros H. inversion H. auto. Qed.

(** Finds the wait, the log line and the start among the inverted steps and
    sums up what happened before and after them. *)
Ltac split_run w wlast :=
  match goal with
  | H1 : waitForParties _ _ _ _ _ ?wa = (Ok _, _),
    H2 : log Info _ _ = (Ok _, ?w9),
    H3 : StartSession _ _ _ ?w9 = (Ok _, ?wb) |- _ =>
      let Cf := fresh "Cf" in
      let Hlen := fresh "Hlen" in
      let resps := fresh "resps" in
      let Hshort := fresh "Hshort" in
      let Hev := fresh "Hev" in
      let Qpre := fresh "Qpre" in
      let Qpost := fresh "Qpost" in
      destruct (fragment_ok _ _ _ _ _ _ _ _ _ _ _ _ H1 H2 H3)
        as (Cf & Hlen & resps & Hshort & Hev);
      assert (Qpre : quiet w wa) by chain_quiet;
      assert (Qpost : quiet wb wlast) by chain_quiet;
      let Call := fresh "Call" in
      let Hheap := fresh "Hheap" in
      let Hdisk := fresh "Hdisk" in
      pose proof (calm_trans _ _ _ (quiet_calm _ _ Qpre)
                    (calm_trans _ _ _ Cf (quiet_calm _ _ Qpost))) as Call;
      pose proof (calm_heap _ _ Call) as Hheap;
      pose proof (calm_disk _ _ Call) as Hdisk
  end.

Ltac chain_calm :=
  first
    [ eassumption
    | apply calm_refl
    | match goal with
      | Hc : calm ?a ?m |- calm ?a ?b =>
          tryif constr_eq a m then fail
          else (apply (calm_trans _ _ _ Hc); chain_calm)
      end ].

(** What each successful [load] read, stated on the heap of [w]. *)
Ltac note_loads w :=
  repeat match goal with
         | Hq : quiet ?a ?b |- _ =>
             lazymatch goal with
             | _ : calm a b |- _ => fail
             | _ => pose proof (quiet_calm _ _ Hq)
             end
         end;
  repeat match goal with
         | Hl : load ?p ?wk = (Ok ?v, _) |- _ =>
             let C := fresh "C" in
             let Hv := fresh "Hv" in
             assert (C : calm w wk) by chain_calm;
             pose proof (proj1 (load_ok _ _ _ _ Hl)) as Hv;
             rewrite (calm_heap _ _ C) in Hv;
             clear Hl C
         end;
  repeat match goal with
         | H1 : ?h !! ?p = Some ?v1, H2 : ?h !! ?p = Some ?v2 |- _ =>
             assert (v2 = v1) by congruence; subst v2; clear H2
         end.

Ltac open_run H :=
  invert_ok H;
  repeat match goal with
         | Hm : wrapped _ _ _ = (Ok _, _) |- _ => apply wrapped_ok in Hm
         end;
  note_quiet.

Lemma Keygen_ok t ctx name w p w' :
  Keygen env t ctx name w = (Ok p, w') ->
  exists L chain now,
    p = length (heap w) /\
    heap w' = heap w ++ [{| Name := name; PublicKeyECDSA := "";
                            PublicKeyEdDSA := ""; HexChainCode := chain;
                            LocalPartyID := localPartyID t; Signers := L;
                            KeyShares := []; ResharePrefix := "";
                            CreatedAt := now; LibType := 1 |}] /\
    disk w' = disk w /\
    recruited (uuid_String (uuid_New env (calls w))) 2 L (new_events w w').
Proof.
  unfold Keygen. intros H. open_run H.
  match type of H with new _ ?wl = _ => split_run w wl end.
  apply new_run in H as (-> & Hh & Hd & Ht & _).
  apply new_uuid_ok in Hm. subst a.
  exists a7, a1, a17.
  rewrite Hh, Hd, Hheap, Hdisk. repeat (split; [reflexivity|]).
  exact (recruited_intro _ _ _ _ _ _ _ _ _ _ Qpre Cf Qpost Ht Hshort Hlen Hev).
Qed.

Lemma Reshare_ok t ctx vault plugin url auth pw w p w' :
  Reshare env t ctx vault plugin url auth pw w = (Ok p, w') ->
  exists L v,
    p = vault /\
    heap w !! vault = Some v /\
    heap w' = <[vault := set_Signers L v]> (heap w) /\
    disk w' = disk w /\
    recruited (uuid_String (uuid_New env (calls w)))
      (Go.add (Z.of_nat (length (Signers v))) 2) L (new_events w w').
Proof.
  unfold Reshare. intros H. open_run H.
  match goal with Hs : store _ _ ?wl = _ |- _ => split_run w wl end.
  note_loads w.
  apply store_ok in Hm15 as (v & Hv' & Hh & Hd & Ht & _).
  apply ret_ok in H as (-> & ->).
  apply new_uuid_ok in Hm. subst a.
  rewrite Hheap in Hv'.
  match goal with
  | Hv : heap w !! vault = Some ?v0 |- _ =>
      assert (v = v0) as -> by congruence; exists a11, v0
  end.
  rewrite Hh, Hd, Hheap, Hdisk. repeat (split; [reflexivity || assumption|]).
  exact (recruited_intro _ _ _ _ _ _ _ _ _ _ Qpre Cf Qpost Ht Hshort Hlen Hev).
Qed.

Lemma ReshareWithPlugin_ok t ctx vault plugin url auth pw w p w' :
  ReshareWithPlugin env t ctx vault plugin url auth pw w = (Ok p, w') ->
  exists L v,
    p = length (heap w) /\
    heap w !! vault = Some v /\
    heap w' = heap w ++ [{| Name := Name v;
                            PublicKeyECDSA := PublicKeyECDSA v;
                            PublicKeyEdDSA := PublicKeyEdDSA v;
                            HexChainCode := HexChainCode v;
                            LocalPartyID := LocalPartyID v;
                            Signers := L;
                            KeyShares := KeyShares v;
                            ResharePrefix := uuid_prefix8 (uuid_New env (calls w));
                            CreatedAt := CreatedAt v;
                            LibType := LibType v |}] /\
    disk w' = disk w /\
    recruited (uuid_String (uuid_New env (calls w)))
      (Go.add (Z.of_nat (length (Signers v))) 2) L (new_events w w').
Proof.
  unfold ReshareWithPlugin. intros H. open_run H.
  match type of H with new _ ?wl = _ => split_run w wl end.
  note_loads w.
  apply new_run in H as (-> & Hh & Hd & Ht & _).
  apply new_uuid_ok in Hm. subst a.
  match goal with
  | Hs : must (Go.slice_to _ 8) _ _ = (Ok ?x, _) |- _ =>
      apply must_ok in Hs as (Hs & _); rewrite uuid_slice8 in Hs;
      inversion Hs; subst x
  end.
  match goal with
  | Hv : heap w !! vault = Some ?v0 |- _ => exists a11, v0
  end.
  rewrite Hh, Hd, Hheap, Hdisk. repeat (split; [reflexivity || assumption|]).
  exact (recruited_intro _ _ _ _ _ _ _ _ _ _ Qpre Cf Qpost Ht Hshort Hlen Hev).
Qed.

Lemma Keysign_ok t ctx vault msgs path ed pw w res w' :
  Keysign env t ctx vault msgs path ed pw w = (Ok res, w') ->
  exists L,
    length res = length msgs /\
    heap w' = heap w /\
    disk w' = disk w /\
    recruited (uuid_String (uuid_New env (calls w))) 2 L (new_events w w').
Proof.
  unfold Keysign. intros H. open_run H.
  apply ret_ok in H as (-> & ->).
  match goal with Hs : warn_on_error _ _ _ = (_, ?wl) |- _ => split_run w wl end.
  apply new_uuid_ok in Hm. subst a.
  match goal with
  | Hw : waitForParties _ _ _ _ _ _ = (Ok ?L, _) |- _ => exists L
  end.
  rewrite Hheap, Hdisk, length_map. repeat (split; [reflexivity|]).
  exact (recruited_intro _ _ _ _ _ _ _ _ _ _ Qpre Cf Qpost eq_refl Hshort Hlen Hev).
Qed.

Lemma KeysignWithVerifier_ok t ctx vault msgs path url plugin auth w res w' :
  KeysignWithVerifier env t ctx vault msgs path url plugin auth w = (Ok res, w') ->
  exists L,
    length res = length msgs /\
    heap w' = heap w /\
    disk w' = disk w /\
    recruited (uuid_String (uuid_New env (calls w))) 2 L (new_events w w').
Proof.
  unfold KeysignWithVerifier. intros H. open_run H.
  apply ret_ok in H as (-> & ->).
  match goal with Hs : warn_on_error _ _ _ = (_, ?wl) |- _ => split_run w wl end.
  apply new_uuid_ok in Hm. subst a.
  match goal with
  | Hw : waitForParties _ _ _ _ _ _ = (Ok ?L, _) |- _ => exists L
  end.
  rewrite Hheap, Hdisk, length_map. repeat (split; [reflexivity|]).
  exact (recruited_intro _ _ _ _ _ _ _ _ _ _ Qpre Cf Qpost eq_refl Hshort Hlen Hev).
Qed.

End OperationFacts.

(** ** What a successful operation returns *)

Lemma lookup_appended (h : list LocalVault) (v : LocalVault) :
  (h ++ [v]) !! length h = Some v.
Proof. apply list_lookup_middle. reflexivity. Qed.

Lemma lookup_updated (h : list LocalVault) (p : ptr) (v v' : LocalVault) :
  h !! p = Some v -> <[p := v']> h !! p = Some v'.
Proof. intros H. apply list_lookup_insert_eq. eapply lookup_lt_Some. exact H. Qed.

(** C1, as the code has it. A successful [Keygen] returns a vault whose
    signers are the members seen at quorum (the list of the poll that reached
    the count of two, which is also the list the session was started with);
    they are at least two, and the ECDSA and EdDSA public keys are empty:
    [Keygen] does not run the key generation and leaves them unset. *)
Theorem Keygen_vault env t ctx name w p w' :
  Keygen env t ctx name w = (Ok p, w') ->
  exists v,
    heap w' !! p = Some v /\
    recruited (uuid_String (uuid_New env (calls w))) 2 (Signers v)
      (new_events w w') /\
    (2 <= length (Signers v))%nat /\
    PublicKeyECDSA v = "" /\
    PublicKeyEdDSA v = "".
Proof.
  intros H. apply Keygen_ok in H as (L & chain & now & -> & Hh & _ & Hrec).
  pose proof Hrec as (pre & resps & msg & post & _ & _ & _ & Hlen & _).
  eexists. rewrite Hh. split; [apply lookup_appended|]. simpl.
  split; [exact Hrec|]. split; [lia|]. split; reflexivity.
Qed.

Lemma Keygen_vault_witness :
  let e := Scenario.env (Scenario.joins_after 2 ["devctl"; "Server-36507"]) in
  let w' := snd (Keygen e Scenario.tss Background "main" Scenario.world0) in
  exists v,
    heap w' !! 0%nat = Some v /\
    recruited (uuid_String (uuid_New e (calls Scenario.world0))) 2 (Signers v)
      (new_events Scenario.world0 w') /\
    (2 <= length (Signers v))%nat /\
    PublicKeyECDSA v = "" /\
    PublicKeyEdDSA v = "".
Proof.
  intros e w'.
  apply (Keygen_vault e Scenario.tss Background "main" Scenario.world0 0%nat w').
  vm_compute. reflexivity.
Defined.

(** C1 as stated fails: a run in which the Fast Vault Server joins after two
    seconds succeeds with both public keys empty, and a run in which the
    relay reports three members returns three signers. *)
Lemma Keygen_vault_counterexample :
  (exists p w' v,
      Keygen (Scenario.env (Scenario.joins_after 2 ["devctl"; "Server-36507"]))
        Scenario.tss Background "main" Scenario.world0 = (Ok p, w') /\
      heap w' !! p = Some v /\
      length (Signers v) = 2%nat /\
      PublicKeyECDSA v = "" /\ PublicKeyEdDSA v = "") /\
  (exists p w' v,
      Keygen (Scenario.env
                (Scenario.joins_after 2 ["devctl"; "Server-36507"; "devctl-2"]))
        Scenario.tss Background "main" Scenario.world0 = (Ok p, w') /\
      heap w' !! p = Some v /\
      length (Signers v) = 3%nat).
Proof.
  split.
  - eexists _, _, _. split; [vm_compute; reflexivity|].
    split; [reflexivity|]. repeat split.
  - eexists _, _, _. split; [vm_compute; reflexivity|].
    split; [reflexivity|]. reflexivity.
Qed.

Lemma reshare_via_ok env k t ctx vault plugin url auth pw w p w' :
  reshare_via k env t ctx vault plugin url auth pw w = (Ok p, w') ->
  exists parties v v',
    heap w !! vault = Some v /\
    heap w' !! p = Some v' /\
    same_identity v v' /\
    Signers v' = parties /\
    disk w' = disk w /\
    recruited (uuid_String (uuid_New env (calls w)))
      (Go.add (Z.of_nat (length (Signers v))) 2) parties (new_events w w') /\
    match k with
    | Plain => p = vault
    | WithPlugin =>
        p = length (heap w) /\
        heap w' = heap w ++ [v'] /\
        ResharePrefix v' = uuid_prefix8 (uuid_New env (calls w))
    end.
Proof.
  destruct k; simpl; intros H.
  - apply Reshare_ok in H as (L & v & -> & Hv & Hh & Hd & Hrec).
    exists L, v, (set_Signers L v). rewrite Hh.
    split; [exact Hv|]. split; [eapply lookup_updated; exact Hv|].
    split; [repeat split|]. auto.
  - apply ReshareWithPlugin_ok in H as (L & v & -> & Hv & Hh & Hd & Hrec).
    eexists L, v, _. rewrite Hh.
    split; [exact Hv|]. split; [apply lookup_appended|].
    split; [repeat split|]. auto 10.
Qed.

(** C3. [Reshare] derives no reshare prefix. After a successful reshare the
    returned vault agrees with the old one in name, public keys, chain code,
    local party id, key shares, creation time and library type, and its
    signers are the members seen at quorum. [ReshareWithPlugin] sets the
    reshare prefix to the first eight characters of the session id it drew;
    [Reshare] assigns the signers and nothing else, so the vault it returns
    still carries the prefix of the old vault. *)
Theorem Reshare_keeps_old_prefix env k t ctx vault plugin url auth pw w p w' :
  reshare_via k env t ctx vault plugin url auth pw w = (Ok p, w') ->
  exists parties v v',
    heap w !! vault = Some v /\
    heap w' !! p = Some v' /\
    same_identity v v' /\
    Signers v' = parties /\
    recruited (uuid_String (uuid_New env (calls w)))
      (Go.add (Z.of_nat (length (Signers v))) 2) parties (new_events w w') /\
    match k with
    | Plain => ResharePrefix v' = ResharePrefix v
    | WithPlugin =>
        Go.slice_to (uuid_String (uuid_New env (calls w))) 8
        = Some (ResharePrefix v')
    end.
Proof.
  destruct k; simpl; intros H.
  - apply Reshare_ok in H as (L & v & -> & Hv & Hh & _ & Hrec).
    exists L, v, (set_Signers L v). rewrite Hh.
    split; [exact Hv|]. split; [eapply lookup_updated; exact Hv|].
    split; [repeat split|]. auto.
  - apply ReshareWithPlugin_ok in H as (L & v & -> & Hv & Hh & _ & Hrec).
    eexists L, v, _. rewrite Hh.
    split; [exact Hv|]. split; [apply lookup_appended|].
    split; [repeat split|]. split; [reflexivity|]. split; [exact Hrec|].
    apply uuid_slice8.
Qed.

Lemma Reshare_keeps_old_prefix_witness :
  let e := Scenario.env (Scenario.joins_after 3 Scenario.four) in
  let w' := snd (Reshare e Scenario.tss Background 0%nat "vultisig-dca-0000"
                   "http://localhost:8081" "" "pw" Scenario.world1) in
  exists v',
    heap w' !! 0%nat = Some v' /\
    ResharePrefix v' = ResharePrefix Scenario.vault /\
    Go.slice_to (uuid_String (uuid_New e (calls Scenario.world1))) 8
    <> Some (ResharePrefix v').
Proof.
  intros e w'.
  destruct (Reshare_keeps_old_prefix e Plain Scenario.tss Background 0%nat
              "vultisig-dca-0000" "http://localhost:8081" "" "pw"
              Scenario.world1 0%nat w')
    as (parties & v & v' & Hv & Hv' & _ & _ & _ & Hp).
  - vm_compute. reflexivity.
  - exists v'. inversion Hv; subst v. split; [exact Hv'|]. split; [exact Hp|].
    rewrite Hp. vm_compute. discriminate.
Defined.

(** C4, as the code has it. After a successful reshare of a vault with
    signer list [S] the returned vault has at least [len(S) + 2] signers (the
    wait returns as soon as that many members are seen, and returns all it
    saw), and both public keys are those of the old vault. *)
Theorem reshare_signers_and_keys env k t ctx vault plugin url auth pw w v p w' :
  heap w !! vault = Some v ->
  Z.of_nat (length (Signers v)) + 2 <= Go.max_int ->
  reshare_via k env t ctx vault plugin url auth pw w = (Ok p, w') ->
  exists v',
    heap w' !! p = Some v' /\
    (length (Signers v) + 2 <= length (Signers v'))%nat /\
    PublicKeyECDSA v' = PublicKeyECDSA v /\
    PublicKeyEdDSA v' = PublicKeyEdDSA v.
Proof.
  intros Hv Hmax H.
  apply reshare_via_ok in H as (L & v0 & v' & Hv0 & Hv' & Hid & Hs & _ & Hrec & _).
  assert (v0 = v) as -> by congruence.
  destruct Hrec as (pre & resps & msg & post & _ & _ & _ & Hlen & _).
  destruct Hid as (_ & He & Hd & _).
  exists v'. split; [exact Hv'|]. split; [|split; assumption].
  unfold Go.add in Hlen. rewrite wrap_small in Hlen.
  - rewrite Hs. lia.
  - unfold Go.in_int, Go.min_int, Go.max_int, Go.int_bits in *. lia.
Qed.

Lemma reshare_signers_and_keys_witness :
  let e := Scenario.env (Scenario.joins_after 3 Scenario.four) in
  let w' := snd (Reshare e Scenario.tss Background 0%nat "vultisig-dca-0000"
                   "http://localhost:8081" "" "pw" Scenario.world1) in
  exists v',
    heap w' !! 0%nat = Some v' /\
    (length (Signers Scenario.vault) + 2 <= length (Signers v'))%nat /\
    PublicKeyECDSA v' = PublicKeyECDSA Scenario.vault /\
    PublicKeyEdDSA v' = PublicKeyEdDSA Scenario.vault.
Proof.
  intros e w'.
  apply (reshare_signers_and_keys e Plain Scenario.tss Background 0%nat
           "vultisig-dca-0000" "http://localhost:8081" "" "pw"
           Scenario.world1 Scenario.vault 0%nat w').
  - reflexivity.
  - vm_compute. discriminate.
  - vm_compute. reflexivity.
Defined.

(** C4 as stated fails: with two old signers and a relay that reports five
    members at the poll that reaches quorum, the new vault has five signers,
    not four. *)
Lemma reshare_signers_and_keys_counterexample :
  exists p w' v',
    ReshareWithPlugin
      (Scenario.env (Scenario.joins_after 3 (Scenario.four ++ ["devctl-2"])))
      Scenario.tss Background 0%nat "vultisig-dca-0000"
      "http://localhost:8081" "" "pw" Scenario.world1 = (Ok p, w') /\
    heap w' !! p = Some v' /\
    length (Signers Scenario.vault) = 2%nat /\
    length (Signers v') = 5%nat.
Proof.
  eexists _, _, _. split; [vm_compute; reflexivity|]. repeat split.
Qed.

(** C7. Whenever one of the five operations succeeds, its trace has the shape
    [recruited]: the member list [parties] of the poll that reached quorum is
    the list handed to [StartSession], no other poll or start follows, and
    when the operation returns a vault its signers are that same list. *)
Theorem quorum_members_verbatim env t ctx op w o w' :
  run env t ctx op w = (Ok o, w') ->
  exists sid expected parties,
    recruited sid expected parties (new_events w w') /\
    match o with
    | Vault p => exists v, heap w' !! p = Some v /\ Signers v = parties
    | Signatures _ => True
    end.
Proof.
  destruct op; simpl; intros H; apply bind_ok in H as (x & w1 & H & Hr);
    apply ret_ok in Hr as (-> & ->).
  - apply Keygen_ok in H as (L & chain & now & -> & Hh & _ & Hrec).
    eexists _, _, L. split; [exact Hrec|]. eexists. rewrite Hh.
    split; [apply lookup_appended|reflexivity].
  - apply (reshare_via_ok _ Plain) in H
      as (L & v & v' & _ & Hv' & _ & Hs & _ & Hrec & _).
    eexists _, _, L. split; [exact Hrec|]. eauto.
  - apply (reshare_via_ok _ WithPlugin) in H
      as (L & v & v' & _ & Hv' & _ & Hs & _ & Hrec & _).
    eexists _, _, L. split; [exact Hrec|]. eauto.
  - apply Keysign_ok in H as (L & _ & _ & _ & Hrec). eauto.
  - apply KeysignWithVerifier_ok in H as (L & _ & _ & _ & Hrec). eauto.
Qed.

Lemma quorum_members_verbatim_witness :
  let e := Scenario.env (Scenario.joins_after 2 ["devctl"; "Server-36507"]) in
  let w' := snd (run e Scenario.tss Background (OpKeygen "main") Scenario.world0) in
  exists sid expected parties,
    recruited sid expected parties (new_events Scenario.world0 w') /\
    exists v, heap w' !! 0%nat = Some v /\ Signers v = parties.
Proof.
  intros e w'.
  apply (quorum_members_verbatim e Scenario.tss Background (OpKeygen "main")
           Scenario.world0 (Vault 0%nat) w').
  vm_compute. reflexivity.
Defined.

(** ** Join failures during a reshare *)

Arguments uuid_String : simpl never.
Arguments hex_EncodeToString : simpl never.
Arguments generateServerPartyID : simpl never.
Arguments Go.itoa : simpl never.
Arguments Go.slice_to : simpl never.
Arguments last5 : simpl never.
Arguments hash31 : simpl never.
Arguments waitForParties : simpl never.

Section JoinFacts.

Variable env : Env.


Lemma post_run url auth body who w :
  post env url auth body who w =
  let w1 := {| clock := clock w + Z.of_N (latency env (calls w));
               calls := Datatypes.S (calls w); polls := polls w;
               heap := heap w; disk := disk w; trace := trace w |} in
  let w2 := {| clock := clock w + Z.of_N (latency env (calls w));
               calls := Datatypes.S (calls w); polls := polls w;
               heap := heap w; disk := disk w;
               trace := trace w ++ [EHttpPost url auth body] |} in
  match http_Do env url auth body with
  | HttpBadRequest e => (Err ("create request: " ++ e)%string, w1)
  | HttpSendError e => (Err ("send request: " ++ e)%string, w2)
  | HttpResponse st rbody =>
      if st =? StatusOK then (Ok tt, w2)
      else (Err (who ++ " returned " ++ Go.itoa st ++ ": " ++ rbody)%string, w2)
  end.
Proof.
  cbv beta iota zeta delta [post bind outward emit ret fail].
  destruct (http_Do env url auth body) as [e|e|st b]; simpl; try reflexivity.
  destruct (st =? StatusOK); reflexivity.
Qed.







End JoinFacts.




(** ** Failing runs *)

Lemma carry_err {A B} (r : Res A) :
  is_ok r = false -> crashed r = false -> exists e, @carry A B r = Err e.
Proof. destruct r; simpl; intros; try discriminate; eauto. Qed.

Lemma sound_wrapped {A} prefix (m : M A) w : sound m w -> sound (wrapped prefix m) w.
Proof.
  intros Hm r w' H. apply wrapped_cases in H as (r0 & H & Hk).
  apply Hm in H. destruct r0; subst; simpl in *; congruence.
Qed.

Lemma sound_attempt {A} (m : M A) w : sound m w -> sound (attempt m) w.
Proof.
  intros Hm r w' H. apply attempt_cases in H as (r0 & H & Hk).
  apply Hm in H. destruct r0; subst; simpl in *; congruence.
Qed.

Lemma sound_log lvl msg w : sound (log lvl msg) w.
Proof. intros r w' H. inversion H. reflexivity. Qed.

Lemma sound_warn_on_error r0 msg w : sound (warn_on_error r0 msg) w.
Proof. intros r w' H. destruct r0; inversion H; reflexivity. Qed.

Lemma sound_load p v w : heap w !! p = Some v -> sound (load p) w.
Proof.
  intros Hv r w' H. unfold load, bind, get in H. rewrite Hv in H.
  inversion H. reflexivity.
Qed.

Lemma sound_must {A} (a : A) msg w : sound (must (Some a) msg) w.
Proof. intros r w' H. inversion H. reflexivity. Qed.

Lemma sound_ret {A} (a : A) w : sound (ret a) w.
Proof. intros r w' H. inversion H. reflexivity. Qed.

Lemma silent_no_write evs : silent evs -> no_write evs.
Proof.
  intros H. eapply Forall_impl; [exact H|]. simpl. intros e He.
  unfold is_tracked in He.
  destruct (is_write e); [|reflexivity].
  rewrite orb_true_r in He. discriminate He.
Qed.

Lemma turns_no_write sid resps :
  no_write (concat (map (turn_events sid) resps)).
Proof.
  induction resps as [|resp resps IH]; simpl; [constructor|].
  repeat (constructor; [reflexivity|]). exact IH.
Qed.

(** A failing run made of a quiet stretch and a calm one without writes. *)
Lemma failed_frame w w0 w' evs :
  quiet w w0 -> calm w0 w' -> new_events w0 w' = evs -> no_write evs ->
  heap w' = heap w /\ disk w' = disk w /\ no_write (new_events w w').
Proof.
  intros [C P N] C' <- Hn.
  pose proof (calm_trans _ _ _ C C') as [Hh Hd _ _].
  split; [exact Hh|]. split; [exact Hd|].
  rewrite (new_events_trans _ _ _ C C'). apply Forall_app.
  split; [apply silent_no_write; exact N|exact Hn].
Qed.

Lemma failed_quietly w w' :
  quiet w w' ->
  heap w' = heap w /\ disk w' = disk w /\ no_write (new_events w w').
Proof.
  intros Q. apply (failed_frame w w' w' []); [exact Q|apply calm_refl| |constructor].
  apply new_events_app. symmetry. apply app_nil_r.
Qed.

Section FailureFacts.

Variable env : Env.

Lemma post_safe url auth body who w r w' :
  post env url auth body who w = (r, w') -> crashed r = false.
Proof.
  rewrite post_run.
  destruct (http_Do env url auth body) as [?|?|st ?]; simpl;
    [| |destruct (st =? StatusOK)]; intros H; inversion H; reflexivity.
Qed.

Lemma random_hex_safe w r w' : random_hex env w = (r, w') -> crashed r = false.
Proof.
  unfold random_hex, bind, outward. simpl.
  destruct (rand_Read env (calls w)); intros H; inversion H; reflexivity.
Qed.

Lemma RegisterSession_safe sid party w r w' :
  RegisterSession env sid party w = (r, w') -> crashed r = false.
Proof.
  unfold RegisterSession, bind, outward, emit, of_error. simpl.
  destruct (relay_RegisterSession env sid party); intros H; inversion H; reflexivity.
Qed.

Lemma StartSession_safe sid L w r w' :
  StartSession env sid L w = (r, w') -> crashed r = false.
Proof.
  intros H. apply StartSession_run in H as (_ & _ & ->).
  destruct (relay_StartSession env sid L); reflexivity.
Qed.

Lemma requestFastVaultReshare_safe t ctx vault sid key pw v w r w' :
  heap w !! vault = Some v ->
  requestFastVaultReshare env t ctx vault sid key pw w = (r, w') ->
  crashed r = false.
Proof.
  intros Hv. unfold requestFastVaultReshare.
  rewrite generateServerPartyID_closed.
  cbv beta iota zeta delta [must bind ret load get log emit]. rewrite Hv.
  apply post_safe.
Qed.

Lemma requestVerifierReshare_safe t ctx vault u key plugin url auth v w r w' :
  heap w !! vault = Some v ->
  requestVerifierReshare env t ctx vault (uuid_String u) key plugin url auth w
  = (r, w') ->
  crashed r = false.
Proof.
  intros Hv. unfold requestVerifierReshare. rewrite uuid_slice8.
  cbv beta iota zeta delta [must bind ret load get]. rewrite Hv.
  apply post_safe.
Qed.

Lemma waitForParties_safe t ctx sid expected w r w' :
  waitForParties env t ctx sid expected w = (r, w') -> crashed r = false.
Proof.
  intros H. apply waitForParties_run in H as (_ & resps & _ & _ & _ & Hr).
  destruct r; try contradiction; reflexivity.
Qed.


Lemma sound_new_uuid w : sound (new_uuid env) w.
Proof. intros r w' H. inversion H. reflexivity. Qed.

Lemma sound_time_Now_RFC3339 w : sound (time_Now_RFC3339 env) w.
Proof. intros r w' H. inversion H. reflexivity. Qed.

Lemma sound_random_hex w : sound (random_hex env) w.
Proof. intros r w'. apply random_hex_safe. Qed.

Lemma sound_RegisterSession sid party w : sound (RegisterSession env sid party) w.
Proof. intros r w'. apply RegisterSession_safe. Qed.

Lemma sound_CompleteSession sid party w : sound (CompleteSession env sid party) w.
Proof.
  intros r w'. unfold CompleteSession, bind, outward, emit, of_error. simpl.
  destruct (relay_CompleteSession env sid party); intros H; inversion H; reflexivity.
Qed.

Lemma sound_requestFastVaultReshare t ctx vault sid key pw v w :
  heap w !! vault = Some v ->
  sound (requestFastVaultReshare env t ctx vault sid key pw) w.
Proof. intros Hv r w'. eapply requestFastVaultReshare_safe; eassumption. Qed.

Lemma sound_requestVerifierReshare t ctx vault u key plugin url auth v w :
  heap w !! vault = Some v ->
  sound (requestVerifierReshare env t ctx vault (uuid_String u) key plugin url
           auth) w.
Proof. intros Hv r w'. eapply requestVerifierReshare_safe; eassumption. Qed.

(** One quiet step of a run that is known to fail: either the step fails,
    and then with an error, or the run goes on. *)
Lemma failing_step {A B} (m : M A) (k : A -> M B) (w0 : World) (I : World -> Prop) w r w' :
  (forall wk, quiet w0 wk -> I wk) ->
  quietly m -> (I w -> sound m w) -> quiet w0 w ->
  bind m k w = (r, w') ->
  (quiet w0 w' /\ exists e, r = Err e) \/
  (exists a w1, quiet w0 w1 /\ m w = (Ok a, w1) /\ k a w1 = (r, w')).
Proof.
  intros HI Hm Hs Q H. apply bind_quiet in H; [|exact Hm].
  destruct H as [(a & w1 & Q1 & H1 & H2)|(Q1 & r0 & H1 & Hr0 & ->)].
  - right. exists a, w1. split; [eapply quiet_trans; eassumption|auto].
  - left. split; [eapply quiet_trans; eassumption|].
    apply carry_err; [exact Hr0|]. eapply Hs; [apply HI; exact Q|exact H1].
Qed.

Ltac sound_tac :=
  intros;
  repeat first
    [ apply sound_wrapped | apply sound_attempt | apply sound_log
    | apply sound_warn_on_error | apply sound_new_uuid
    | apply sound_random_hex | apply sound_RegisterSession
    | apply sound_CompleteSession | apply sound_time_Now_RFC3339
    | apply sound_must | apply sound_ret
    | eapply sound_load; eassumption
    | eapply sound_requestFastVaultReshare; eassumption
    | eapply sound_requestVerifierReshare; eassumption ].

(** Walks the quiet steps of a failing reshare. *)
Ltac walk_failing H Q HI :=
  repeat lazymatch type of H with
         | bind (wrapped "wait for parties: " _) _ _ = _ => fail
         | bind (store _ _) _ _ = _ => fail
         | bind _ _ _ = _ =>
             let a := fresh "a" in
             let w1 := fresh "w" in
             let Q1 := fresh "Q" in
             let Hm := fresh "Hm" in
             let He := fresh "He" in
             apply (failing_step _ _ _ _ _ _ _ HI) in H;
             [ destruct H as [(Q1 & He)|(a & w1 & Q1 & Hm & H)];
               [ split; [exact He|]; apply failed_quietly; exact Q1
               | clear Q; rename Q1 into Q;
                 try (apply new_uuid_ok in Hm; subst a); try clear Hm ]
             | solve [quiet_tac]
             | solve [sound_tac]
             | exact Q ]
         end.

(** The wait, the start and what follows them in a run that fails: the wait
    or the start failed, for after a successful start nothing fails. *)
Ltac failing_tail H Q Hv :=
  let e := fresh "e" in
  let Hr := fresh "Hr" in
  let C := fresh "C" in
  let Hev := fresh "Hev" in
  apply recruit_run in H;
  destruct H as [(e & ? & Hr & C & _ & Hev & _)
                |(? & ? & ? & _ & _ & C & Hev & [(e & Hr & ->)|H])];
  [ split; [eexists; exact Hr|];
    apply (failed_frame _ _ _ _ Q C Hev); apply turns_no_write
  | split; [eexists; exact Hr|];
    apply (failed_frame _ _ _ _ Q C Hev); apply Forall_app;
    split; [apply turns_no_write|repeat constructor]
  | exfalso; apply quiet_calm in Q;
    pose proof (calm_heap _ _ (calm_trans _ _ _ Q C)) as Hh;
    cbv beta iota zeta delta [bind log emit attempt CompleteSession outward
      of_error warn_on_error load store get must new set_heap ret fail panic]
      in H;
    rewrite ?uuid_slice8 in H; simpl in H;
    try (destruct (relay_CompleteSession env _ _); simpl in H);
    rewrite ?Hh, ?Hv in H; simpl in H;
    inversion H; subst; discriminate ].

Lemma reshare_failed k t ctx vault plugin url auth pw w v r w' :
  heap w !! vault = Some v ->
  reshare_via k env t ctx vault plugin url auth pw w = (r, w') ->
  is_ok r = false ->
  (exists e, r = Err e) /\
  heap w' = heap w /\ disk w' = disk w /\ no_write (new_events w w').
Proof.
  intros Hv H Hnok.
  pose proof (quiet_refl w) as Q.
  assert (HI : forall wk, quiet w wk -> heap wk !! vault = Some v).
  { intros wk Qk. rewrite (calm_heap _ _ (quiet_calm _ _ Qk)). exact Hv. }
  destruct k; simpl in H.
  - unfold Reshare in H. walk_failing H Q HI. failing_tail H Q Hv.
  - unfold ReshareWithPlugin in H. walk_failing H Q HI. failing_tail H Q Hv.
Qed.

(** *** The command around the reshare *)

Ltac exec_fs :=
  cbv beta iota zeta delta [bind wrapped attempt outward of_error ret fail
    panic get must load new set_heap set_disk emit fs_call ReadDir ReadFile
    WriteFile put_file MkdirAll Unmarshal LoadConfig LoadAuthToken
    GetAuthHeader SaveVault LoadVault];
  simpl.

Lemma LoadConfig_run w r w' :
  LoadConfig env w = (r, w') ->
  heap w' = heap w /\ disk w' = disk w /\ trace w' = trace w /\
  match r with
  | Ok cfg => cfg_Load env (calls w) = inr cfg
  | Err _ => True
  | _ => False
  end.
Proof.
  exec_fs. destruct (cfg_Load env (calls w)); intros H; inversion H; subst;
    simpl; auto.
Qed.

Lemma GetAuthHeader_run w r w' :
  attempt (GetAuthHeader env) w = (r, w') ->
  heap w' = heap w /\ disk w' = disk w /\ trace w' = trace w /\ is_ok r = true.
Proof.
  exec_fs. destruct (cfg_Load env (calls w)) as [e|cfg]; simpl.
  - intros H; inversion H; subst; simpl; auto.
  - destruct (String.eqb (cfg_AuthToken cfg) ""); simpl.
    + intros H; inversion H; subst; simpl; auto.
    + destruct (time_Parse env (cfg_AuthExpiresAt cfg)) as [z|]; simpl.
      * match goal with |- context [if ?b then _ else _] => destruct b end;
          simpl; intros H; inversion H; subst; simpl; auto.
      * intros H; inversion H; subst; simpl; auto.
Qed.

Lemma LoadVault_scan_run files p w r w' :
  LoadVault_scan env files p w = (r, w') ->
  disk w' = disk w /\ trace w' = trace w /\
  match r with
  | Ok q => q = length (heap w) /\
            exists v, stored v (disk w) /\ heap w' = heap w ++ [v]
  | Err _ => heap w' = heap w
  | _ => False
  end.
Proof.
  induction files as [|name files IH]; simpl.
  - intros H; inversion H; subst; auto.
  - destruct (HasPrefix name p || Contains name p); [|exact IH].
    exec_fs. destruct (fs_fault env (calls w)); simpl;
      [intros H; inversion H; subst; simpl; auto|].
    destruct (disk w) as [d|]; simpl;
      [|intros H; inversion H; subst; simpl; auto].
    destruct (read_entry (path_key env name) d) as [[v|raw]|] eqn:Hread; simpl;
      intros H; inversion H; subst; simpl; auto.
    repeat (split; [reflexivity|]). exists v. split; [|reflexivity].
    exists (path_key env name), d. auto.
Qed.

Lemma LoadVault_run p w r w' :
  LoadVault env p w = (r, w') ->
  disk w' = disk w /\ trace w' = trace w /\
  match r with
  | Ok q => q = length (heap w) /\
            exists v, stored v (disk w) /\ heap w' = heap w ++ [v]
  | Err _ => heap w' = heap w
  | _ => False
  end.
Proof.
  unfold LoadVault. intros H.
  apply bind_cases in H as [(files & w1 & H1 & H2)|(r0 & H1 & Hr0 & ->)].
  - revert H1. exec_fs. destruct (fs_fault env (calls w)); simpl;
      [intros H; inversion H|].
    destruct (disk w) as [d|] eqn:Hd; simpl; intros H; inversion H; subst.
    apply LoadVault_scan_run in H2. simpl in H2. rewrite ?Hd in H2. exact H2.
  - revert H1 Hr0. exec_fs. destruct (fs_fault env (calls w)); simpl;
      [intros H; inversion H; subst; simpl; auto|].
    destruct (disk w) as [d|] eqn:Hd; simpl; intros H; inversion H; subst;
      simpl; auto. discriminate.
Qed.

Lemma SaveVault_grows p w r w' :
  SaveVault env p w = (r, w') -> exists evs, trace w' = trace w ++ evs.
Proof.
  assert (Hnil : forall l : list Event, exists evs, l = l ++ evs).
  { intros l. exists []. symmetry. apply app_nil_r. }
  exec_fs.
  repeat match goal with
         | |- context [fs_fault env ?k] => destruct (fs_fault env k); simpl
         | |- context [fs_progress env ?k] => destruct (fs_progress env k); simpl
         | |- context [match disk w with _ => _ end] => destruct (disk w); simpl
         | |- context [heap w !! p] => destruct (heap w !! p); simpl
         | |- context [if ?b then _ else _] => destruct b; simpl
         | |- context [Go.slice_to ?a ?b] => destruct (Go.slice_to a b); simpl
         end;
    intros H; inversion H; subst; simpl; eauto.
Qed.

Lemma load_valid p v w : heap w !! p = Some v -> load p w = (Ok v, w).
Proof. intros Hv. unfold load, bind, get. rewrite Hv. reflexivity. Qed.

Lemma after_reshare_grows p w r w' :
  bind (wrapped "save vault: " (SaveVault env p))
    (fun _ => bind (load p) (fun _ => ret tt)) w = (r, w') ->
  exists evs, trace w' = trace w ++ evs.
Proof.
  intros H. apply bind_cases in H as [(u & w1 & H1 & H2)|(r0 & H1 & _ & _)].
  - apply wrapped_ok, SaveVault_grows in H1 as [evs Ht]. exists evs.
    revert H2. unfold load, get, ret, panic, bind. simpl.
    destruct (heap w1 !! p); intros H; inversion H; subst; exact Ht.
  - apply wrapped_cases in H1 as (r1 & H1 & _).
    apply SaveVault_grows in H1. exact H1.
Qed.

Lemma recruited_started sid expected L evs :
  recruited sid expected L evs -> In (EStartSession sid L) evs.
Proof.
  intros (pre & resps & msg & post & -> & _).
  apply in_or_app. right. apply in_or_app. right.
  apply in_or_app. left. right. right. left. reflexivity.
Qed.

Lemma started_stays w wR w' e evs :
  In e (new_events w wR) -> trace w' = trace wR ++ evs ->
  In e (new_events w w').
Proof.
  unfold new_events. intros Hin Ht. rewrite Ht.
  destruct (Nat.le_gt_cases (length (trace w)) (length (trace wR))) as [Hle|Hgt].
  - rewrite drop_app_le by exact Hle. apply in_or_app. left. exact Hin.
  - rewrite drop_ge in Hin by lia. contradiction.
Qed.

Lemma same_trace_no_write w w' : trace w' = trace w -> no_write (new_events w w').
Proof.
  intros H. rewrite (new_events_app w w' []); [constructor|].
  rewrite H. symmetry. apply app_nil_r.
Qed.

End FailureFacts.

(** C8. A run of the reshare command that ends without a session having been
    started (the configuration or the vault could not be loaded, the
    registration, a required join request or the wait for the parties failed)
    returns an error and writes no file: the vault directory is as it was,
    and so is the memory, but for the copy of a stored vault that the command
    may have loaded and not altered. *)
Theorem failure_before_start_leaves_vault env plugin url pw w r w' :
  config_well_formed env ->
  runVaultReshare env plugin url pw w = (r, w') ->
  Forall (fun e => is_start e = false) (new_events w w') ->
  (exists e, r = Err e) /\
  disk w' = disk w /\
  no_write (new_events w w') /\
  (heap w' = heap w \/
   exists v, stored v (disk w) /\ heap w' = heap w ++ [v]).
Proof.
  intros Hwf H Hns. unfold runVaultReshare in H.
  apply bind_cases in H as [(cfg & w1 & H1 & H)|(r0 & H1 & Hr0 & ->)].
  2: { apply wrapped_cases in H1 as (r1 & H1 & Hk).
       apply LoadConfig_run in H1 as (Hh & Hd & Ht & Hc).
       destruct r1; subst; simpl in *; try discriminate; try contradiction.
       split; [eauto|]. split; [exact Hd|].
       split; [apply same_trace_no_write; exact Ht|auto]. }
  apply wrapped_ok, LoadConfig_run in H1 as (Hh1 & Hd1 & Ht1 & Hcfg).
  destruct (String.eqb (cfg_PublicKeyECDSA cfg) "") eqn:Ekey.
  { inversion H; subst. split; [eauto|]. split; [exact Hd1|].
    split; [apply same_trace_no_write; exact Ht1|auto]. }
  destruct (Hwf _ _ Hcfg) as [Hempty|Hlen].
  { rewrite Hempty in Ekey. discriminate. }
  assert (Hslice : exists p16, Go.slice_to (cfg_PublicKeyECDSA cfg) 16 = Some p16).
  { unfold Go.slice_to.
    replace (Go.len (cfg_PublicKeyECDSA cfg) <? 16) with false
      by (symmetry; apply Z.ltb_ge; exact Hlen).
    simpl. eauto. }
  destruct Hslice as [p16 Hslice]. rewrite Hslice in H. simpl in H.
  unfold bind at 1, ret at 1 in H.
  apply bind_cases in H as [(vault & w2 & H2 & H)|(r0 & H2 & Hr0 & ->)].
  2: { apply wrapped_cases in H2 as (r1 & H2 & Hk).
       apply LoadVault_run in H2 as (Hd & Ht & Hc).
       destruct r1; subst; simpl in *; try discriminate; try contradiction.
       split; [eauto|]. split; [congruence|].
       split; [apply same_trace_no_write; congruence|left; congruence]. }
  apply wrapped_ok, LoadVault_run in H2 as (Hd2 & Ht2 & -> & v & Hst & Hh2).
  assert (Hv : heap w2 !! length (heap w1) = Some v).
  { rewrite Hh2. apply lookup_appended. }
  rewrite (bind_run _ _ _ _ _ (load_valid _ _ _ Hv)) in H.
  apply bind_cases in H as [(a & w3 & H3 & H)|(r0 & H3 & Hr0 & _)].
  2: { apply GetAuthHeader_run in H3 as (_ & _ & _ & Hok). congruence. }
  apply GetAuthHeader_run in H3 as (Hh3 & Hd3 & Ht3 & _).
  unfold bind at 1, get at 1 in H.
  assert (Hev : forall wk, new_events w wk = new_events w3 wk).
  { intros wk. unfold new_events. rewrite Ht3, Ht2, Ht1. reflexivity. }
  rewrite <- Hh3 in Hv.
  apply bind_cases in H as [(q & wR & HR & H)|(r0 & HR & Hr0 & ->)].
  - exfalso. apply wrapped_ok in HR.
    apply (reshare_via_ok env Plain) in HR
      as (L & v0 & v' & _ & _ & _ & _ & _ & Hrec & _).
    apply recruited_started in Hrec.
    apply after_reshare_grows in H as [evs Ht].
    assert (Hin : In (EStartSession (uuid_String (uuid_New env (calls w3))) L)
                    (new_events w w')).
    { apply (started_stays _ wR _ _ evs); [|exact Ht].
      rewrite Hev. exact Hrec. }
    rewrite Forall_forall in Hns. apply list_elem_of_In, Hns in Hin. discriminate.
  - apply wrapped_cases in HR as (r1 & HR & Hk).
    assert (Hnok : is_ok r1 = false).
    { destruct r1; subst; simpl in *; congruence. }
    destruct (reshare_failed env Plain _ _ _ _ _ _ _ _ _ _ _ Hv HR Hnok)
      as ([e ->] & Hh & Hd & Hnw).
    subst r0. simpl. split; [eauto|]. split; [congruence|].
    split; [rewrite Hev; exact Hnw|].
    right. exists v. split; [rewrite <- Hd1; exact Hst|].
    rewrite Hh, Hh3, Hh2, Hh1. reflexivity.
Qed.

Lemma failure_before_start_leaves_vault_witness :
  let e := Scenario.logged_in
             (Scenario.env_verifier_down (Scenario.joins_after 3 Scenario.four)) in
  let run := runVaultReshare e "vultisig-dca-0000" "http://localhost:8081" "pw"
               Scenario.world2 in
  (exists msg, fst run = Err msg) /\
  disk (snd run) = disk Scenario.world2 /\
  no_write (new_events Scenario.world2 (snd run)) /\
  (heap (snd run) = heap Scenario.world2 \/
   exists v, stored v (disk Scenario.world2) /\
             heap (snd run) = heap Scenario.world2 ++ [v]).
Proof.
  intros e run.
  apply (failure_before_start_leaves_vault e "vultisig-dca-0000"
           "http://localhost:8081" "pw" Scenario.world2 (fst run) (snd run)).
  - intros k cfg H. inversion H. right. vm_compute. discriminate.
  - apply surjective_pairing.
  - vm_compute. repeat constructor.
Defined.

(** ** The deadline of the wait *)

(** No step other than the wait can return the wait's time-out error. *)
Ltac cannot_time_out Hm :=
  lazymatch type of Hm with
  | wrapped _ _ _ = _ =>
      let r1 := fresh "r" in
      apply wrapped_cases in Hm as (r1 & _ & Hm); destruct r1; simpl in Hm;
      discriminate Hm
  | attempt _ _ = _ =>
      let r1 := fresh "r" in
      apply attempt_cases in Hm as (r1 & _ & Hm); destruct r1; discriminate Hm
  | load _ _ = _ =>
      unfold load, bind, get in Hm; simpl in Hm;
      destruct (heap _ !! _); discriminate Hm
  | store _ _ _ = _ =>
      unfold store, bind, get in Hm; simpl in Hm;
      destruct (heap _ !! _); discriminate Hm
  | must ?o _ _ = _ => destruct o; discriminate Hm
  | warn_on_error ?r _ _ = _ => destruct r; discriminate Hm
  | _ => discriminate Hm
  end.

Ltac walk_timeout H Hc :=
  repeat lazymatch type of H with
         | bind (wrapped "wait for parties: " _) _ _ = _ => fail
         | bind _ _ _ = _ =>
             let a := fresh "a" in
             let w1 := fresh "w" in
             let Hq := fresh "Hq" in
             let Hm := fresh "Hm" in
             let r0 := fresh "r" in
             let Hr0 := fresh "Hr" in
             let Hcar := fresh "Hcar" in
             apply bind_quiet in H; [|solve [quiet_tac]];
             destruct H as [(a & w1 & Hq & Hm & H)|(Hq & r0 & Hm & Hr0 & Hcar)];
             [ apply quiet_calm, calm_clock in Hq;
               apply (Z.le_trans _ _ _ Hc) in Hq; clear Hc Hm; rename Hq into Hc
             | exfalso; destruct r0; simpl in Hcar; try discriminate Hcar;
               inversion Hcar; subst; cannot_time_out Hm ]
         end.

Section TimingFacts.

Variable env : Env.


(** The wait, the start and what follows them, in a run that ended with the
    wait's time-out error. *)
Ltac timed_out_end H :=
  lazymatch type of H with
  | bind _ _ _ = _ =>
      let r0 := fresh "r" in
      let Hm := fresh "Hm" in
      let Hcar := fresh "Hcar" in
      apply bind_cases in H as [(? & ? & _ & H)|(r0 & Hm & _ & Hcar)];
      [ cannot_time_out H
      | destruct r0; simpl in Hcar; try discriminate Hcar;
        inversion Hcar; subst; cannot_time_out Hm ]
  | _ => cannot_time_out H
  end.

Ltac timed_out_tail H Hc :=
  let e := fresh "e" in
  let Hr := fresh "Hr" in
  let Hcalm := fresh "Hcalm" in
  let Hk := fresh "Hk" in
  apply recruit_run in H;
  destruct H as [(e & ? & Hr & Hcalm & _ & _ & Hk)
                |(? & ? & ? & _ & _ & Hcalm & _ & [(e & Hr & _)|H])];
  [ simpl in Hr; inversion Hr; subst e;
    destruct Hk as [[_ Hk]|[Hk _]];
    [ lia | destruct (ctx_cause _); discriminate Hk ]
  | simpl in Hr; discriminate Hr
  | apply calm_clock in Hcalm; apply (Z.le_trans _ _ _ Hc) in Hcalm;
    clear Hc; rename Hcalm into Hc;
    walk_timeout H Hc; exfalso; timed_out_end H ].

Lemma timed_out_after_three_minutes t ctx op w w' :
  run env t ctx op w = (Err ("wait for parties: " ++ timeout_msg)%string, w') ->
  clock w + KeygenTimeout <= clock w'.
Proof.
  pose proof (Z.le_refl (clock w)) as Hc.
  destruct op; simpl; intros H;
    (apply bind_cases in H as [(x & w1 & _ & H)|(r0 & H & _ & Hcar)];
     [discriminate H|]);
    destruct r0; simpl in Hcar; try discriminate Hcar; inversion Hcar; subst;
    clear Hcar.
  - unfold Keygen in H. walk_timeout H Hc. timed_out_tail H Hc.
  - unfold Reshare in H. walk_timeout H Hc. timed_out_tail H Hc.
  - unfold ReshareWithPlugin in H. walk_timeout H Hc. timed_out_tail H Hc.
  - unfold Keysign in H. walk_timeout H Hc. timed_out_tail H Hc.
  - unfold KeysignWithVerifier in H. walk_timeout H Hc. timed_out_tail H Hc.
Qed.

(** Every poll of the wait is made before the deadline, and the turns before
    it took a second each. *)
Lemma waitLoop_deadline fuel ctx dl sid expected : forall w r w',
  waitLoop env fuel ctx dl sid expected w = (r, w') ->
  (polls w <= polls w')%nat /\
  (polls w' = polls w \/
   clock w + (Z.of_nat (polls w' - polls w) - 1) * Go.Second < dl).
Proof.
  induction fuel as [|fuel IH]; intros w r w' H.
  - inversion H; subst. split; [lia|left; reflexivity].
  - destruct (ctx_Done ctx (clock w)) eqn:Ec; destruct (dl <=? clock w) eqn:Ed;
      try (simpl in H; unfold bind at 1, get at 1 in H; rewrite Ec, Ed in H;
           simpl in H; try destruct (select_pick env (polls w));
           unfold fail in H; inversion H; subst;
           (split; [lia|left; reflexivity])).
    apply Z.leb_gt in Ed.
    assert (Hturn : short_of expected (relay_GetSession env (polls w) sid) ->
              (polls w <= polls w')%nat /\
              (polls w' = polls w \/
               clock w + (Z.of_nat (polls w' - polls w) - 1) * Go.Second < dl)).
    { intros Hs. rewrite turn_step in H; [|exact Ec|apply Z.leb_gt; exact Ed|exact Hs].
      apply IH in H as [Hle Hb]. simpl in Hle, Hb.
      split; [lia|]. right.
      assert (Hs1 : 0 < Go.Second) by (unfold Go.Second, Go.Nanosecond; lia).
      destruct Hb as [Hb|Hb].
      - rewrite Hb. replace (Z.of_nat (Datatypes.S (polls w) - polls w) - 1) with 0 by lia.
        lia.
      - replace (Z.of_nat (polls w' - polls w) - 1)
          with ((Z.of_nat (polls w' - Datatypes.S (polls w)) - 1) + 1) by lia.
        lia. }
    destruct (relay_GetSession env (polls w) sid) as [e|L] eqn:Er.
    + apply Hturn. exact I.
    + destruct (Z_lt_le_dec (Z.of_nat (length L)) expected) as [Hlt|Hge].
      * apply Hturn. exact Hlt.
      * rewrite (quorum_step env fuel ctx dl sid expected w L Ec) in H;
          [|apply Z.leb_gt; exact Ed|exact Er|exact Hge].
        inversion H; subst; simpl. split; [lia|]. right.
        replace (Z.of_nat (Datatypes.S (polls w) - polls w) - 1) with 0 by lia.
        lia.
Qed.

Lemma waitForParties_polls t ctx sid expected w r w' :
  waitForParties env t ctx sid expected w = (r, w') ->
  (polls w' <= polls w + 180)%nat.
Proof.
  unfold waitForParties, bind at 1, get at 1. intros H.
  apply waitLoop_deadline in H as [Hle [Hb|Hb]]; [lia|].
  unfold KeygenTimeout, Go.Minute, Go.Second, Go.Nanosecond in Hb. lia.
Qed.

End TimingFacts.


(** C6, as the code has it. The wait for the parties polls the relay once
    per turn and sleeps one second after every poll that falls short of the
    expected count, a relay error included; it returns the first list that
    reaches the count, makes at most 180 polls, and gives up with the
    time-out error no sooner than three minutes after it began, unless the
    context ends first. The deadline is the same for every operation: a
    key generation, a reshare or a keysign, with or without the Verifier,
    that returns the time-out error of its wait has run for three minutes. *)
Theorem recruitment_wait_timing env t ctx :
  (forall sid expected w r w',
      waitForParties env t ctx sid expected w = (r, w') ->
      exists resps,
        Forall (short_of expected) resps /\
        new_events w w'
        = concat (map (turn_events sid) resps)
          ++ match r with
             | Ok parties => [EGetSession sid (inr parties)]
             | _ => []
             end /\
        clock w + Z.of_nat (length resps) * Go.Second <= clock w' /\
        (polls w' <= polls w + 180)%nat /\
        match r with
        | Ok parties => expected <= Z.of_nat (length parties)
        | Err e =>
            (e = timeout_msg /\ clock w + 3 * Go.Minute <= clock w') \/
            (e = ctx_err_msg (ctx_cause ctx) /\ ctx_Done ctx (clock w') = true)
        | _ => False
        end) /\
  (forall op w w',
      run env t ctx op w
      = (Err ("wait for parties: " ++ timeout_msg)%string, w') ->
      clock w + 3 * Go.Minute <= clock w').
Proof.
  split.
  - intros sid expected w r w' H.
    pose proof (waitForParties_polls _ _ _ _ _ _ _ _ H) as Hp.
    apply waitForParties_run in H as (_ & resps & Hs & Hk & _ & Hr).
    exists resps. split; [exact Hs|].
    destruct r as [L|e| |]; try contradiction.
    + destruct Hr as [Hev Hq]. auto.
    + destruct Hr as [Hev Hd]. rewrite app_nil_r. auto.
  - intros op w w' H. apply timed_out_after_three_minutes in H. exact H.
Qed.

Lemma recruitment_wait_timing_witness :
  let e := Scenario.env (fun _ => inr ["devctl"]) in
  let op := OpKeysignWithVerifier 0%nat ["68656c6c6f"] "m/44'/60'/0'/0/0"
              "http://localhost:8081" "vultisig-dca-0000" "" in
  let r := run e Scenario.tss Background op Scenario.world1 in
  fst r = Err "wait for parties: timeout waiting for parties" /\
  clock Scenario.world1 + 3 * Go.Minute <= clock (snd r).
Proof.
  intros e op r.
  assert (H : fst r = Err "wait for parties: timeout waiting for parties")
    by (vm_compute; reflexivity).
  split; [exact H|].
  apply (proj2 (recruitment_wait_timing e Scenario.tss Background) op).
  refine (eq_trans (surjective_pairing r) _).
  exact (f_equal (fun x => (x, snd r)) H).
Defined.

(** C6 as stated fails: a keysign with the Verifier whose second party joins
    after two and a half minutes does not time out at two minutes, it
    succeeds; and when nobody joins it times out at three minutes. *)
Lemma recruitment_wait_timing_counterexample :
  (exists sigs w',
      KeysignWithVerifier
        (Scenario.env (Scenario.joins_after 150 ["devctl"; "verifier-3f2a9c1e"]))
        Scenario.tss Background 0%nat ["68656c6c6f"] "m/44'/60'/0'/0/0"
        "http://localhost:8081" "vultisig-dca-0000" "" Scenario.world1
      = (Ok sigs, w') /\
      clock w' = clock Scenario.world1 + 150 * Go.Second /\
      clock Scenario.world1 + MessagePollTimeout < clock w') /\
  (exists w',
      KeysignWithVerifier (Scenario.env (fun _ => inr ["devctl"]))
        Scenario.tss Background 0%nat ["68656c6c6f"] "m/44'/60'/0'/0/0"
        "http://localhost:8081" "vultisig-dca-0000" "" Scenario.world1
      = (Err "wait for parties: timeout waiting for parties", w') /\
      clock w' = clock Scenario.world1 + 3 * Go.Minute).
Proof.
  split.
  - eexists _, _. split; [vm_compute; reflexivity|].
    split; [reflexivity|]. reflexivity.
  - eexists _. split; [vm_compute; reflexivity|]. reflexivity.
Qed.


(** C2. [Reshare] builds no new vault. A successful run returns the very
    pointer it was given, after it has overwritten the signers of the vault
    behind it with the list the relay reported; that list is longer than the
    old one, so the caller's vault is never what it was before the call. *)
Theorem Reshare_overwrites_caller_vault env t ctx vault plugin url auth pw w v
    p w' :
  heap w !! vault = Some v ->
  Z.of_nat (length (Signers v)) + 2 <= Go.max_int ->
  Reshare env t ctx vault plugin url auth pw w = (Ok p, w') ->
  p = vault /\
  (exists L, heap w' !! vault = Some (set_Signers L v) /\
             (length (Signers v) + 2 <= length L)%nat) /\
  heap w' !! vault <> Some v.
Proof.
  intros Hv Hmax H.
  apply Reshare_ok in H as (L & v0 & -> & Hv0 & Hh & _ & Hrec).
  assert (v0 = v) as -> by congruence.
  destruct Hrec as (pre & resps & msg & post & _ & _ & _ & Hlen & _).
  unfold Go.add in Hlen. rewrite wrap_small in Hlen
    by (unfold Go.in_int, Go.min_int, Go.max_int, Go.int_bits in *; lia).
  assert (Hnew : heap w' !! vault = Some (set_Signers L v)).
  { rewrite Hh. eapply lookup_updated. exact Hv. }
  split; [reflexivity|]. split.
  - exists L. split; [exact Hnew|lia].
  - rewrite Hnew. intros Heq. inversion Heq as [Hs].
    apply (f_equal Signers) in Hs. simpl in Hs. rewrite Hs in Hlen. lia.
Qed.

Lemma Reshare_overwrites_caller_vault_witness :
  let e := Scenario.env (Scenario.joins_after 3 Scenario.four) in
  let w' := snd (Reshare e Scenario.tss Background 0%nat "vultisig-dca-0000"
                   "http://localhost:8081" "" "pw" Scenario.world1) in
  (0 = 0)%nat /\
  (exists L, heap w' !! 0%nat = Some (set_Signers L Scenario.vault) /\
             (length (Signers Scenario.vault) + 2 <= length L)%nat) /\
  heap w' !! 0%nat <> Some Scenario.vault.
Proof.
  intros e w'.
  apply (Reshare_overwrites_caller_vault e Scenario.tss Background 0%nat
           "vultisig-dca-0000" "http://localhost:8081" "" "pw"
           Scenario.world1 Scenario.vault 0%nat w').
  - reflexivity.
  - vm_compute. discriminate.
  - vm_compute. reflexivity.
Defined.

(** ** Strings *)

Lemma length_append (a b : string) :
  String.length (a ++ b) = (String.length a + String.length b)%nat.
Proof. induction a as [|c a IH]; simpl; [reflexivity|]. rewrite IH. reflexivity. Qed.

Lemma length_substring_0 (s : string) (n : nat) :
  (n <= String.length s)%nat -> String.length (substring 0 n s) = n.
Proof.
  revert n. induction s as [|c s IH]; intros [|n] H; simpl in *; try lia.
  rewrite IH; lia.
Qed.

Lemma slice_to_Some (s : string) (hi : Z) :
  0 <= hi <= Go.len s ->
  Go.slice_to s hi = Some (substring 0 (Z.to_nat hi) s).
Proof.
  intros [H0 H1]. unfold Go.slice_to.
  replace (hi <? 0) with false by (symmetry; apply Z.ltb_ge; exact H0).
  replace (Go.len s <? hi) with false by (symmetry; apply Z.ltb_ge; exact H1).
  reflexivity.
Qed.

Lemma slice_to_None (s : string) (hi : Z) :
  hi < 0 \/ Go.len s < hi -> Go.slice_to s hi = None.
Proof.
  intros H. unfold Go.slice_to.
  destruct H as [H|H].
  - replace (hi <? 0) with true by (symmetry; apply Z.ltb_lt; exact H). reflexivity.
  - replace (Go.len s <? hi) with true by (symmetry; apply Z.ltb_lt; exact H).
    rewrite orb_true_r. reflexivity.
Qed.

Lemma slice_to_cases (s : string) (hi : Z) :
  (0 <= hi <= Go.len s /\ Go.slice_to s hi = Some (substring 0 (Z.to_nat hi) s)) \/
  ((hi < 0 \/ Go.len s < hi) /\ Go.slice_to s hi = None).
Proof.
  destruct (Z_lt_le_dec hi 0) as [H|H].
  - right. split; [auto|apply slice_to_None; auto].
  - destruct (Z_lt_le_dec (Go.len s) hi) as [H'|H'].
    + right. split; [auto|apply slice_to_None; auto].
    + left. split; [lia|apply slice_to_Some; lia].
Qed.

Lemma slice_to_length (s p : string) (hi : Z) :
  Go.slice_to s hi = Some p -> Go.len p = hi.
Proof.
  destruct (slice_to_cases s hi) as [[Hr ->]|[_ ->]]; [|discriminate].
  intros H. inversion H. unfold Go.len in *.
  rewrite length_substring_0 by lia. lia.
Qed.

(** ** [truncateStr] *)

(** X1. For a width of at least three, [truncateStr] never panics and its
    result fits the width: a string that fits is returned as it is, a longer
    one is cut to its first [maxLen - 3] bytes followed by three dots, which
    makes exactly [maxLen] bytes. *)
Theorem truncateStr_fits (s : string) (maxLen : Z) :
  3 <= maxLen <= Go.max_int ->
  exists r,
    truncateStr s maxLen = Some r /\
    Go.len r <= maxLen /\
    (Go.len s <= maxLen -> r = s) /\
    (maxLen < Go.len s ->
     r = (substring 0 (Z.to_nat (maxLen - 3)) s ++ "...")%string /\
     Go.len r = maxLen).
Proof.
  intros [H3 Hmax]. unfold truncateStr.
  destruct (Go.len s <=? maxLen) eqn:E.
  - apply Z.leb_le in E. exists s. repeat split; auto; lia.
  - apply Z.leb_gt in E.
    assert (Hw : Go.add maxLen (-3) = maxLen - 3).
    { unfold Go.add. apply wrap_small.
      unfold Go.in_int, Go.min_int, Go.max_int, Go.int_bits in *. lia. }
    rewrite Hw, slice_to_Some by lia.
    eexists. split; [reflexivity|].
    assert (Hlen : Go.len (substring 0 (Z.to_nat (maxLen - 3)) s ++ "...") = maxLen).
    { unfold Go.len in *. rewrite length_append, length_substring_0 by lia.
      simpl. lia. }
    repeat split; auto; lia.
Qed.

Lemma truncateStr_fits_witness :
  exists r,
    truncateStr "/home/dev/.vultisig/vaults" 12 = Some r /\
    Go.len r <= 12 /\
    (Go.len "/home/dev/.vultisig/vaults" <= 12 -> r = "/home/dev/.vultisig/vaults") /\
    (12 < Go.len "/home/dev/.vultisig/vaults" ->
     r = (substring 0 (Z.to_nat (12 - 3)) "/home/dev/.vultisig/vaults" ++ "...")%string /\
     Go.len r = 12).
Proof.
  apply (truncateStr_fits "/home/dev/.vultisig/vaults" 12).
  vm_compute. split; discriminate.
Defined.

(** X2. [truncateStr] panics exactly when the string is longer than the
    width and the width is below three, since [s[:maxLen-3]] then has a
    negative bound, or one past the end of the string after wrap-around. *)
Theorem truncateStr_panics (s : string) (maxLen : Z) :
  Go.in_int maxLen -> Go.len s <= Go.max_int - 3 ->
  (truncateStr s maxLen = None <-> maxLen < 3 /\ maxLen < Go.len s).
Proof.
  intros Hin Hs. unfold truncateStr.
  destruct (Go.len s <=? maxLen) eqn:E.
  - apply Z.leb_le in E. split; [discriminate|lia].
  - apply Z.leb_gt in E.
    destruct (Z_lt_le_dec maxLen 3) as [H3|H3].
    + assert (Hbad : Go.add maxLen (-3) < 0 \/ Go.len s < Go.add maxLen (-3)).
      { unfold Go.add, Go.in_int, Go.min_int, Go.max_int, Go.int_bits in *.
        destruct (Z_lt_le_dec (maxLen - 3) (- 2 ^ (64 - 1))) as [Hlow|Hlow].
        - right. unfold Go.wrap, Go.int_bits.
          replace ((maxLen + -3 + 2 ^ (64 - 1)) mod 2 ^ 64)
            with (maxLen + -3 + 2 ^ (64 - 1) + 2 ^ 64).
          + lia.
          + symmetry. rewrite <- (Z.mod_add _ 1) by lia.
            replace (maxLen + -3 + 2 ^ (64 - 1) + 1 * 2 ^ 64)
              with (maxLen + -3 + 2 ^ (64 - 1) + 2 ^ 64) by lia.
            apply Z.mod_small. lia.
        - left. rewrite wrap_small.
          + lia.
          + unfold Go.in_int, Go.min_int, Go.max_int, Go.int_bits. lia. }
      rewrite (slice_to_None _ _ Hbad). split; [intros _; lia|reflexivity].
    + assert (Hw : Go.add maxLen (-3) = maxLen - 3).
      { unfold Go.add. apply wrap_small.
        unfold Go.in_int, Go.min_int, Go.max_int, Go.int_bits in *. lia. }
      rewrite Hw, slice_to_Some by lia. split; [discriminate|lia].
Qed.

Lemma truncateStr_panics_witness :
  truncateStr "vault" 2 = None <-> 2 < 3 /\ 2 < Go.len "vault".
Proof.
  apply (truncateStr_panics "vault" 2).
  - vm_compute. split; discriminate.
  - vm_compute. discriminate.
Defined.
(** ** The vault directory *)

Lemma read_write_same name x d :
  read_entry name (write_entry name x d) = Some x.
Proof.
  induction d as [|[n y] d IH]; simpl.
  - rewrite String.eqb_refl. reflexivity.
  - destruct (String.eqb n name) eqn:E; simpl.
    + rewrite String.eqb_refl. reflexivity.
    + destruct (String.ltb name n); simpl.
      * rewrite String.eqb_refl. reflexivity.
      * rewrite E. exact IH.
Qed.

Lemma read_write_other name other x d :
  other <> name ->
  read_entry other (write_entry name x d) = read_entry other d.
Proof.
  intros Hne. apply String.eqb_neq in Hne.
  assert (Hne' : String.eqb name other = false)
    by (rewrite String.eqb_sym; exact Hne).
  induction d as [|[n y] d IH]; simpl.
  - rewrite Hne'. reflexivity.
  - destruct (String.eqb n name) eqn:E; simpl.
    + apply String.eqb_eq in E. rewrite E, Hne'. reflexivity.
    + destruct (String.ltb name n); simpl.
      * rewrite Hne'. reflexivity.
      * destruct (String.eqb n other); [reflexivity|exact IH].
Qed.

Lemma write_twice name x y d :
  write_entry name y (write_entry name x d) = write_entry name y d.
Proof.
  induction d as [|[n z] d IH]; simpl.
  - rewrite String.eqb_refl. reflexivity.
  - destruct (String.eqb n name) eqn:E; simpl.
    + rewrite String.eqb_refl. reflexivity.
    + destruct (String.ltb name n) eqn:L; simpl.
      * rewrite String.eqb_refl. reflexivity.
      * rewrite E, L, IH. reflexivity.
Qed.

Lemma names_write_data name x y d :
  map fst (write_entry name x d) = map fst (write_entry name y d).
Proof.
  induction d as [|[n z] d IH]; simpl; [reflexivity|].
  destruct (String.eqb n name); simpl; [reflexivity|].
  destruct (String.ltb name n); simpl; [reflexivity|]. rewrite IH. reflexivity.
Qed.

Lemma names_write_in name x d : In name (map fst (write_entry name x d)).
Proof.
  induction d as [|[n z] d IH]; simpl; [auto|].
  destruct (String.eqb n name); simpl; [auto|].
  destruct (String.ltb name n); simpl; auto.
Qed.


Lemma substring_append_tail (a b : string) :
  substring (String.length a) (String.length b) (a ++ b) = b.
Proof.
  induction a as [|c a IH]; simpl; [|exact IH].
  induction b as [|c b IHb]; simpl; [reflexivity|]. rewrite IHb. reflexivity.
Qed.

Lemma HasSuffix_append (a b : string) : HasSuffix (a ++ b) b = true.
Proof.
  unfold HasSuffix. rewrite length_append.
  replace (String.length a + String.length b - String.length b)%nat
    with (String.length a) by lia.
  rewrite substring_append_tail, String.eqb_refl.
  replace (String.length b <=? String.length a + String.length b)%nat with true
    by (symmetry; apply Nat.leb_le; lia).
  reflexivity.
Qed.

Lemma append_assoc (a b c : string) : ((a ++ b) ++ c = a ++ (b ++ c))%string.
Proof. induction a as [|x a IH]; simpl; [reflexivity|]. rewrite IH. reflexivity. Qed.

Lemma vault_file_name_json v name :
  vault_file_name v = Some name -> HasSuffix name ".json" = true.
Proof.
  unfold vault_file_name.
  destruct (negb (String.eqb (PublicKeyECDSA v) "") &&
            (Go.len (PublicKeyECDSA v) >=? 16)).
  - destruct (Go.slice_to (PublicKeyECDSA v) 16); [|discriminate].
    intros H. inversion H. apply HasSuffix_append.
  - destruct (Go.slice_to (CreatedAt v) 10); [|discriminate].
    intros H. inversion H as [E]. clear H E.
    assert (E : (Name v ++ String "-" (s ++ ".json"))%string
                = ((Name v ++ "-" ++ s) ++ ".json")%string)
      by (rewrite append_assoc; reflexivity).
    rewrite E. apply HasSuffix_append.
Qed.





Section StoreFacts.

Variable env : Env.

Ltac run_fs :=
  cbv beta iota zeta delta [bind wrapped attempt outward of_error ret fail
    panic get must load new set_heap set_disk emit fs_call ReadDir ReadFile
    WriteFile put_file MkdirAll Unmarshal SaveVault LoadVault ListVaults];
  simpl.

Lemma path_key_plain name : plain_name name = true -> path_key env name = name.
Proof. intros H. unfold path_key. rewrite H. reflexivity. Qed.

(** What a run of [SaveVault] comes to. *)
Lemma SaveVault_cases p v w r w' :
  heap w !! p = Some v ->
  SaveVault env p w = (r, w') ->
  heap w' = heap w /\
  match r with
  | Ok _ =>
      exists name,
        vault_file_name v = Some name /\
        disk w' = Some (write_entry (path_key env name) (MarshalIndent v)
                          (match disk w with Some d => d | None => [] end)) /\
        trace w' = trace w ++ [EWriteFile name] /\
        fs_fault env (calls w) = None
  | Err _ =>
      ((disk w' = disk w \/ (disk w = None /\ disk w' = Some [])) /\
       trace w' = trace w) \/
      exists name x,
        vault_file_name v = Some name /\
        (x = MarshalIndent v \/ exists raw, x = FileOther raw) /\
        disk w' = Some (write_entry (path_key env name) x
                          (match disk w with Some d => d | None => [] end)) /\
        trace w' = trace w ++ [EWriteFile name]
  | Panic _ =>
      vault_file_name v = None /\
      (disk w' = disk w \/ (disk w = None /\ disk w' = Some [])) /\
      trace w' = trace w
  | OutOfFuel => False
  end.
Proof.
  intros Hv. unfold vault_file_name. run_fs.
  destruct (fs_fault env (calls w)) as [e|] eqn:F0; simpl;
    [intros H; inversion H; subst; simpl; auto|].
  destruct (disk w) as [d|] eqn:Hd; simpl; rewrite Hv; simpl;
    destruct (negb (String.eqb (PublicKeyECDSA v) "") &&
              (Go.len (PublicKeyECDSA v) >=? 16)); simpl;
    repeat match goal with
           | |- context [Go.slice_to ?a ?b] => destruct (Go.slice_to a b); simpl
           | |- context [fs_fault env ?k] => destruct (fs_fault env k); simpl
           | |- context [fs_progress env ?k] =>
               destruct (fs_progress env k); simpl
           end;
    intros H; inversion H; subst; simpl; rewrite ?Hd; eauto 12.
Qed.



Lemma LoadVault_scan_miss names p w :
  Forall (fun name => matches p name = false) names ->
  LoadVault_scan env names p w = (Err "vault not found", w).
Proof.
  induction 1 as [|name names Hn _ IH]; simpl; [reflexivity|].
  unfold matches in Hn. rewrite Hn. exact IH.
Qed.

Lemma LoadVault_scan_skip pre names p w :
  Forall (fun name => matches p name = false) pre ->
  LoadVault_scan env (pre ++ names) p w = LoadVault_scan env names p w.
Proof.
  induction 1 as [|name pre Hn _ IH]; simpl; [reflexivity|].
  unfold matches in Hn. rewrite Hn. exact IH.
Qed.



End StoreFacts.


Section StoreTheory.

Variable env : Env.




End StoreTheory.

Lemma unchanged_files w w' :
  (disk w' = disk w \/ (disk w = None /\ disk w' = Some [])) ->
  trace w' = trace w ->
  (forall name, file_at (disk w') name = file_at (disk w) name) /\
  new_events w w' = [].
Proof.
  intros Hd Ht. split.
  - intros name. destruct Hd as [->|[Hn ->]]; [reflexivity|].
    rewrite Hn. reflexivity.
  - apply new_events_app. rewrite Ht. symmetry. apply app_nil_r.
Qed.

Lemma other_files key x (d : option (list (string * FileData))) other :
  other <> key ->
  read_entry other (write_entry key x (match d with Some l => l | None => [] end))
  = file_at d other.
Proof.
  intros Hne. rewrite read_write_other by exact Hne.
  destruct d; reflexivity.
Qed.

(** X3. [SaveVault] touches one file at most. When it succeeds, the file its
    path names holds what [json.MarshalIndent] wrote for the vault, and every
    other file reads as before. When it returns an error, either no file has
    changed and nothing was written, or it is [os.WriteFile] that failed
    after it had opened the file: then that one file holds the data or an
    unparsable part of it, and every other file reads as before. When it
    panics, no file has changed. The vault in memory is never altered. *)
Theorem SaveVault_touches_one_file env p v w r w' :
  heap w !! p = Some v ->
  SaveVault env p w = (r, w') ->
  heap w' = heap w /\
  match r with
  | Ok _ =>
      exists name,
        vault_file_name v = Some name /\
        file_at (disk w') (path_key env name) = Some (MarshalIndent v) /\
        (forall other, other <> path_key env name ->
                       file_at (disk w') other = file_at (disk w) other) /\
        new_events w w' = [EWriteFile name]
  | Err _ =>
      ((forall other, file_at (disk w') other = file_at (disk w) other) /\
       new_events w w' = []) \/
      exists name,
        vault_file_name v = Some name /\
        (file_at (disk w') (path_key env name) = Some (MarshalIndent v) \/
         exists raw,
           file_at (disk w') (path_key env name) = Some (FileOther raw)) /\
        (forall other, other <> path_key env name ->
                       file_at (disk w') other = file_at (disk w) other) /\
        new_events w w' = [EWriteFile name]
  | _ =>
      (forall other, file_at (disk w') other = file_at (disk w) other) /\
      new_events w w' = []
  end.
Proof.
  intros Hv H. apply (SaveVault_cases env p v) in H as [Hh H]; [|exact Hv].
  split; [exact Hh|].
  destruct r as [u|e|msg|].
  - destruct H as (name & Hname & Hd & Ht & _). exists name.
    split; [exact Hname|]. rewrite Hd. cbn [file_at].
    split; [apply read_write_same|]. split; [|apply new_events_app; exact Ht].
    intros other Hne. apply other_files. exact Hne.
  - destruct H as [[Hd Ht]|(name & x & Hname & Hx & Hd & Ht)].
    + left. apply unchanged_files; assumption.
    + right. exists name. split; [exact Hname|]. rewrite Hd. cbn [file_at].
      rewrite read_write_same. split.
      * destruct Hx as [->|[raw ->]]; [left; reflexivity|right; eauto].
      * split; [|apply new_events_app; exact Ht].
        intros other Hne. apply other_files. exact Hne.
  - destruct H as (_ & Hd & Ht). apply unchanged_files; assumption.
  - contradiction.
Qed.

Lemma SaveVault_touches_one_file_witness :
  let e := Scenario.env (fun _ => inr []) in
  let full := Scenario.disk_full e in
  let saved := SaveVault e 0%nat Scenario.world1 in
  let failed := SaveVault full 0%nat Scenario.world1 in
  (heap (snd saved) = heap Scenario.world1 /\
   exists name,
     vault_file_name Scenario.vault = Some name /\
     file_at (disk (snd saved)) (path_key e name)
     = Some (MarshalIndent Scenario.vault) /\
     (forall other, other <> path_key e name ->
                    file_at (disk (snd saved)) other
                    = file_at (disk Scenario.world1) other) /\
     new_events Scenario.world1 (snd saved) = [EWriteFile name]) /\
  (fst failed = Err "write vault: no space left on device" /\
   file_at (disk (snd failed)) "02a1b2c3d4e5f607.json" = Some (FileOther "{") /\
   heap (snd failed) = heap Scenario.world1 /\
   ((forall other, file_at (disk (snd failed)) other
                   = file_at (disk Scenario.world1) other) /\
    new_events Scenario.world1 (snd failed) = [] \/
    exists name,
      vault_file_name Scenario.vault = Some name /\
      (file_at (disk (snd failed)) (path_key full name)
       = Some (MarshalIndent Scenario.vault) \/
       exists raw,
         file_at (disk (snd failed)) (path_key full name)
         = Some (FileOther raw)) /\
      (forall other, other <> path_key full name ->
                     file_at (disk (snd failed)) other
                     = file_at (disk Scenario.world1) other) /\
      new_events Scenario.world1 (snd failed) = [EWriteFile name])).
Proof.
  intros e full saved failed. split.
  - apply (SaveVault_touches_one_file e 0%nat Scenario.vault Scenario.world1
             (Ok tt) (snd saved)).
    + reflexivity.
    + vm_compute. reflexivity.
  - split; [vm_compute; reflexivity|]. split; [vm_compute; reflexivity|].
    apply (SaveVault_touches_one_file full 0%nat Scenario.vault Scenario.world1
             (Err "write vault: no space left on device") (snd failed)).
    + reflexivity.
    + vm_compute. reflexivity.
Defined.

(** X4. A vault whose ECDSA key has fewer than 16 bytes is filed under its
    name and the first ten bytes of its creation time; when that time has
    fewer than ten bytes, [SaveVault] panics on [vault.CreatedAt[:10]]: no
    file changes and nothing is written. *)
Theorem SaveVault_short_key_and_date env p v w :
  heap w !! p = Some v ->
  fs_fault env (calls w) = None ->
  Go.len (PublicKeyECDSA v) < 16 ->
  Go.len (CreatedAt v) < 10 ->
  exists w',
    SaveVault env p w = (Panic "slice bounds out of range", w') /\
    (forall name, file_at (disk w') name = file_at (disk w) name) /\
    new_events w w' = [].
Proof.
  intros Hv F Hk Hc.
  destruct (SaveVault env p w) as [r w'] eqn:H. exists w'.
  pose proof (SaveVault_cases env p v w r w' Hv H) as [_ Hr].
  assert (Hname : vault_file_name v = None).
  { unfold vault_file_name.
    replace (Go.len (PublicKeyECDSA v) >=? 16) with false
      by (symmetry; rewrite Z.geb_leb; apply Z.leb_gt; exact Hk).
    rewrite andb_false_r, slice_to_None by (right; exact Hc). reflexivity. }
  assert (r = Panic "slice bounds out of range") as ->.
  { revert H. unfold SaveVault, bind, wrapped, MkdirAll, fs_call, bind, outward,
      of_error, get, load, get, bind. rewrite F. simpl.
    unfold vault_file_name in Hname.
    destruct (disk w); simpl; rewrite Hv; simpl;
      destruct (negb (String.eqb (PublicKeyECDSA v) "") &&
                (Go.len (PublicKeyECDSA v) >=? 16));
      repeat match type of Hname with
             | context [Go.slice_to ?a ?b] => destruct (Go.slice_to a b)
             end; try discriminate Hname; simpl;
      intros H; inversion H; reflexivity. }
  split; [reflexivity|]. destruct Hr as (_ & Hd & Ht).
  apply unchanged_files; assumption.
Qed.

Lemma SaveVault_short_key_and_date_witness :
  let v := {| Name := "main"; PublicKeyECDSA := ""; PublicKeyEdDSA := "";
              HexChainCode := "00"; LocalPartyID := "devctl";
              Signers := ["devctl"; "Server-36507"]; KeyShares := [];
              ResharePrefix := ""; CreatedAt := ""; LibType := 1 |} in
  let w := {| clock := 0; calls := 0; polls := 0; heap := [v];
              disk := None; trace := [] |} in
  exists w',
    SaveVault (Scenario.env (fun _ => inr [])) 0%nat w
    = (Panic "slice bounds out of range", w') /\
    (forall name, file_at (disk w') name = file_at (disk w) name) /\
    new_events w w' = [].
Proof.
  intros v w.
  apply (SaveVault_short_key_and_date (Scenario.env (fun _ => inr [])) 0%nat v w).
  - reflexivity.
  - reflexivity.
  - vm_compute. reflexivity.
  - vm_compute. reflexivity.
Defined.







(** X8. The file name depends on the first 16 bytes of the ECDSA key only:
    saving a second vault whose key begins like the first one's overwrites
    the first vault's file. The directory lists the same names as after the
    first save, and the file now holds the second vault. *)
Theorem SaveVault_same_key_prefix_overwrites env p1 p2 v1 v2 w w1 w2 key16 :
  heap w !! p1 = Some v1 ->
  heap w !! p2 = Some v2 ->
  Go.slice_to (PublicKeyECDSA v1) 16 = Some key16 ->
  Go.slice_to (PublicKeyECDSA v2) 16 = Some key16 ->
  SaveVault env p1 w = (Ok tt, w1) ->
  SaveVault env p2 w1 = (Ok tt, w2) ->
  let file := path_key env (key16 ++ ".json") in
  file_at (disk w1) file = Some (MarshalIndent v1) /\
  file_at (disk w2) file = Some (MarshalIndent v2) /\
  dir_names (disk w2) = dir_names (disk w1).
Proof.
  intros Hv1 Hv2 Hk1 Hk2 H1 H2 file.
  assert (Hname : forall v, Go.slice_to (PublicKeyECDSA v) 16 = Some key16 ->
                            vault_file_name v = Some (key16 ++ ".json")%string).
  { intros v Hk. unfold vault_file_name. rewrite Hk.
    destruct (slice_to_cases (PublicKeyECDSA v) 16) as [[Hr _]|[_ Hn]];
      [|congruence].
    replace (Go.len (PublicKeyECDSA v) >=? 16) with true
      by (symmetry; rewrite Z.geb_leb; apply Z.leb_le; lia).
    destruct (String.eqb (PublicKeyECDSA v) "") eqn:E; [|reflexivity].
    apply String.eqb_eq in E. rewrite E in Hr. vm_compute in Hr.
    exfalso. destruct Hr as [_ Hr]. apply Hr. reflexivity. }
  apply (SaveVault_cases env p1 v1) in H1 as (Hh1 & n1 & Hn1 & Hd1 & _);
    [|exact Hv1].
  rewrite <- Hh1 in Hv2.
  apply (SaveVault_cases env p2 v2) in H2 as (_ & n2 & Hn2 & Hd2 & _);
    [|exact Hv2].
  rewrite (Hname v1 Hk1) in Hn1. rewrite (Hname v2 Hk2) in Hn2.
  inversion Hn1; inversion Hn2; subst n1 n2.
  rewrite Hd1 in Hd2. rewrite write_twice in Hd2.
  rewrite Hd1, Hd2. cbn [file_at dir_names]. fold file.
  split; [apply read_write_same|]. split; [apply read_write_same|].
  f_equal. apply names_write_data.
Qed.

Lemma SaveVault_same_key_prefix_overwrites_witness :
  let e := Scenario.env (fun _ => inr []) in
  let v2 := set_Signers Scenario.four Scenario.vault in
  let w := {| clock := 0; calls := 0; polls := 0;
              heap := [Scenario.vault; v2]; disk := Some []; trace := [] |} in
  let w1 := snd (SaveVault e 0%nat w) in
  let w2 := snd (SaveVault e 1%nat w1) in
  file_at (disk w1) "02a1b2c3d4e5f607.json" = Some (FileVault Scenario.vault) /\
  file_at (disk w2) "02a1b2c3d4e5f607.json" = Some (FileVault v2) /\
  dir_names (disk w2) = dir_names (disk w1).
Proof.
  intros e v2 w w1 w2.
  apply (SaveVault_same_key_prefix_overwrites e 0%nat 1%nat Scenario.vault v2
           w w1 w2 "02a1b2c3d4e5f607").
  - reflexivity.
  - reflexivity.
  - vm_compute. reflexivity.
  - vm_compute. reflexivity.
  - vm_compute. reflexivity.
  - vm_compute. reflexivity.
Defined.

(** ** Listing the vaults *)

Section ListFacts.

Variable env : Env.

(** One turn of the loop of [ListVaults] over a [.json] name. *)
Lemma ListVaults_scan_run names :
  Forall (fun name => plain_name name = true) names ->
  forall acc w r w',
  ListVaults_scan env names acc w = (r, w') ->
  disk w' = disk w /\ trace w' = trace w /\
  exists found,
    r = Ok (acc ++ seq (length (heap w)) (length found)) /\
    heap w' = heap w ++ found /\
    match disk w with
    | Some d =>
        sublist found (listed d names) /\
        (no_faults env -> found = listed d names)
    | None => found = []
    end.
Proof.
  induction 1 as [|name names Hname _ IH]; intros acc w r w' H.
  - inversion H; subst. split; [reflexivity|]. split; [reflexivity|].
    exists []. rewrite !app_nil_r. split; [reflexivity|]. split; [reflexivity|].
    destruct (disk w'); [split; [constructor|reflexivity]|reflexivity].
  - cbn [ListVaults_scan] in H. unfold listed. cbn [flat_map].
    fold (listed (match disk w with Some d => d | None => [] end) names).
    destruct (HasSuffix name ".json") eqn:Ej.
    2: { apply IH in H as (Hd & Ht & found & Hr & Hh & Hl).
         split; [exact Hd|]. split; [exact Ht|]. exists found.
         split; [exact Hr|]. split; [exact Hh|].
         destruct (disk w); exact Hl. }
    unfold bind at 1, attempt at 1, ReadFile, fs_call, bind, outward, of_error,
      get in H.
    rewrite (path_key_plain env name Hname) in H.
    destruct (fs_fault env (calls w)) as [e|] eqn:F; cbn in H.
    { apply IH in H as (Hd & Ht & found & Hr & Hh & Hl). cbn in *.
      split; [exact Hd|]. split; [exact Ht|]. exists found.
      split; [exact Hr|]. split; [exact Hh|].
      destruct (disk w) as [d|]; [|exact Hl].
      destruct Hl as [Hsub Hall]. split.
      - destruct (read_entry name d) as [[v|raw]|]; cbn;
          [apply sublist_cons|..]; exact Hsub.
      - intros Fn. rewrite Fn in F. discriminate F. }
    destruct (disk w) as [d|] eqn:Hdw; cbn in H.
    2: { apply IH in H as (Hd & Ht & found & Hr & Hh & Hl). cbn in *.
         rewrite ?Hdw in Hl. split; [congruence|]. split; [exact Ht|].
         exists found. auto. }
    destruct (read_entry name d) as [[v|raw]|] eqn:Hread; cbn in H.
    + apply IH in H as (Hd & Ht & found & Hr & Hh & Hl). cbn in *.
      rewrite ?Hdw in Hl. split; [congruence|]. split; [exact Ht|].
      exists (v :: found). split.
      { rewrite Hr, <- app_assoc, length_app. cbn.
        replace (length (heap w) + 1)%nat with (Datatypes.S (length (heap w)))
          by lia.
        reflexivity. }
      split; [rewrite Hh, <- app_assoc; reflexivity|].
      destruct Hl as [Hsub Hall]. split.
      * apply sublist_skip. exact Hsub.
      * intros Fn. rewrite (Hall Fn). reflexivity.
    + apply IH in H as (Hd & Ht & found & Hr & Hh & Hl). cbn in *.
      rewrite ?Hdw in Hl. split; [congruence|]. split; [exact Ht|].
      exists found. auto.
    + apply IH in H as (Hd & Ht & found & Hr & Hh & Hl). cbn in *.
      rewrite ?Hdw in Hl. split; [congruence|]. split; [exact Ht|].
      exists found. auto.
Qed.

Lemma ListVaults_run w r w' :
  ListVaults env w = (r, w') ->
  disk w' = disk w /\ trace w' = trace w /\
  match fs_fault env (calls w) with
  | Some e => r = Err ("read vault dir: " ++ e)%string /\ heap w' = heap w
  | None =>
      exists found,
        r = Ok (seq (length (heap w)) (length found)) /\
        heap w' = heap w ++ found /\
        sublist found (listed (match disk w with Some d => d | None => [] end)
                         (dir_names (disk w))) /\
        (no_faults env ->
         found = listed (match disk w with Some d => d | None => [] end)
                   (dir_names (disk w)))
  end.
Proof.
  unfold ListVaults, bind at 1, outward. cbn.
  destruct (fs_fault env (calls w)) as [e|]; cbn.
  - intros H. inversion H; subst. auto.
  - destruct (disk w) as [d|] eqn:Hd; cbn.
    + intros H. apply ListVaults_scan_run in H
        as (Hd' & Ht & found & Hr & Hh & Hl);
        [|apply List.Forall_forall; intros n Hin; apply filter_In in Hin; tauto].
      cbn in *. rewrite ?Hd in Hl. split; [congruence|]. split; [exact Ht|].
      exists found. destruct Hl. auto.
    + intros H. inversion H; subst. cbn. split; [auto|]. split; [reflexivity|].
      exists []. rewrite app_nil_r. repeat split; auto.
Qed.

End ListFacts.

(** X9. [ListVaults] never panics and reports one error only, that of
    reading the directory; a file that cannot be read or parsed is skipped
    in silence. It returns fresh objects for a sub-list of the vaults held by
    the [.json] files, in directory order, and changes neither the directory
    nor any vault already in memory. *)
Theorem ListVaults_skips_bad_files env w r w' :
  ListVaults env w = (r, w') ->
  disk w' = disk w /\
  new_events w w' = [] /\
  ((exists e, r = Err ("read vault dir: " ++ e)%string /\ heap w' = heap w) \/
   (exists found,
       r = Ok (seq (length (heap w)) (length found)) /\
       heap w' = heap w ++ found /\
       sublist found (listed (match disk w with Some d => d | None => [] end)
                        (dir_names (disk w))))).
Proof.
  intros H. apply ListVaults_run in H as (Hd & Ht & H).
  split; [exact Hd|]. split.
  { apply new_events_app. rewrite Ht. symmetry. apply app_nil_r. }
  destruct (fs_fault env (calls w)) as [e|].
  - left. exists e. exact H.
  - right. destruct H as (found & Hr & Hh & Hs & _). exists found. auto.
Qed.

Lemma ListVaults_skips_bad_files_witness :
  let e := Scenario.env (fun _ => inr []) in
  let w := {| clock := 0; calls := 0; polls := 0; heap := [];
              disk := Some [("02a1b2c3d4e5f607.json", FileVault Scenario.vault);
                            ("broken.json", FileOther "{");
                            ("notes.txt", FileVault Scenario.vault)];
              trace := [] |} in
  let run := ListVaults e w in
  disk (snd run) = disk w /\
  new_events w (snd run) = [] /\
  ((exists msg, fst run = Err ("read vault dir: " ++ msg)%string /\
                heap (snd run) = heap w) \/
   (exists found,
       fst run = Ok (seq (length (heap w)) (length found)) /\
       heap (snd run) = heap w ++ found /\
       sublist found (listed (match disk w with Some d => d | None => [] end)
                        (dir_names (disk w))))).
Proof.
  intros e w run.
  apply (ListVaults_skips_bad_files e w (fst run) (snd run)).
  apply surjective_pairing.
Defined.

(** X10. When the file system answers every call, [ListVaults] returns
    exactly the vaults of the [.json] files that parse, in directory order;
    and a missing directory is not an error but an empty list. *)
Theorem ListVaults_lists_json_vaults env w :
  no_faults env ->
  exists w',
    ListVaults env w
    = (Ok (seq (length (heap w))
             (length (listed (match disk w with Some d => d | None => [] end)
                        (dir_names (disk w))))), w') /\
    heap w' = heap w ++ listed (match disk w with Some d => d | None => [] end)
                          (dir_names (disk w)) /\
    (disk w = None -> ListVaults env w = (Ok [], w')).
Proof.
  intros F. destruct (ListVaults env w) as [r w'] eqn:H. exists w'.
  pose proof (ListVaults_run env w r w' H) as (_ & _ & Hr).
  rewrite F in Hr. destruct Hr as (found & -> & Hh & _ & Hall).
  rewrite (Hall F) in *. split; [reflexivity|]. split; [exact Hh|].
  intros Hn. rewrite Hn. reflexivity.
Qed.


Lemma ListVaults_lists_json_vaults_witness :
  let e := Scenario.env (fun _ => inr []) in
  let w := {| clock := 0; calls := 0; polls := 0; heap := [];
              disk := Some [("02a1b2c3d4e5f607.json", FileVault Scenario.vault);
                            ("broken.json", FileOther "{");
                            ("notes.txt", FileVault Scenario.vault)];
              trace := [] |} in
  exists w',
    ListVaults e w
    = (Ok (seq (length (heap w))
             (length (listed (match disk w with Some d => d | None => [] end)
                        (dir_names (disk w))))), w') /\
    heap w' = heap w ++ listed (match disk w with Some d => d | None => [] end)
                          (dir_names (disk w)) /\
    (disk w = None -> ListVaults e w = (Ok [], w')).
Proof.
  intros e w.
  apply (ListVaults_lists_json_vaults e w).
  intros k. reflexivity.
Defined.

(** X11. A saved vault is listed. After [SaveVault] succeeded under a plain
    file name (no path separator, so that the file is an entry of the vault
    directory), and with a file system that answers, [ListVaults] returns an
    object for every [.json] vault of the directory, among them a copy of
    the saved vault as JSON carries it: every byte that is not valid UTF-8
    has become U+FFFD and nothing else has changed. *)
Theorem SaveVault_then_ListVaults env p v w w1 name :
  no_faults env ->
  heap w !! p = Some v ->
  vault_file_name v = Some name ->
  plain_name name = true ->
  SaveVault env p w = (Ok tt, w1) ->
  exists ps w2,
    ListVaults env w1 = (Ok ps, w2) /\
    exists q, In q ps /\ heap w2 !! q = Some (json_vault v) /\
              (length (heap w1) <= q)%nat.
Proof.
  intros F Hv Hname Hplain H.
  apply (SaveVault_cases env p v) in H as (_ & name' & Hname' & Hd & _);
    [|exact Hv].
  assert (name' = name) as -> by congruence.
  rewrite (path_key_plain env name Hplain) in Hd.
  destruct (ListVaults env w1) as [r w2] eqn:Hrun.
  pose proof (ListVaults_run env w1 r w2 Hrun) as (_ & _ & Hr).
  rewrite F in Hr. destruct Hr as (found & -> & Hh & _ & Hall).
  rewrite (Hall F) in *. clear Hall Hrun.
  rewrite Hd in Hh |- *. cbn [dir_names] in Hh |- *.
  set (d1 := write_entry name (MarshalIndent v)
               (match disk w with Some d => d | None => [] end)) in *.
  assert (Hin : In (json_vault v)
                  (listed d1 (List.filter plain_name (map fst d1)))).
  { unfold listed. apply in_flat_map. exists name. split.
    - apply filter_In. split; [apply names_write_in|exact Hplain].
    - rewrite (vault_file_name_json v name Hname).
      unfold d1. rewrite read_write_same. left. reflexivity. }
  apply list_elem_of_In, list_elem_of_lookup_1 in Hin as [i Hi].
  eexists _, w2. split; [reflexivity|].
  exists (length (heap w1) + i)%nat.
  pose proof (lookup_lt_Some _ _ _ Hi) as Hlt.
  split; [apply in_seq; lia|]. split; [|lia].
  rewrite Hh, lookup_app_r by lia.
  replace (length (heap w1) + i - length (heap w1))%nat with i by lia.
  exact Hi.
Qed.

Lemma SaveVault_then_ListVaults_witness :
  let e := Scenario.env (fun _ => inr []) in
  let w1 := snd (SaveVault e 0%nat Scenario.world1) in
  exists ps w2,
    ListVaults e w1 = (Ok ps, w2) /\
    exists q, In q ps /\ heap w2 !! q = Some Scenario.vault /\
              (length (heap w1) <= q)%nat.
Proof.
  intros e w1.
  apply (SaveVault_then_ListVaults e 0%nat Scenario.vault Scenario.world1 w1
           "02a1b2c3d4e5f607.json").
  - intros k. reflexivity.
  - reflexivity.
  - vm_compute. reflexivity.
  - vm_compute. reflexivity.
  - vm_compute. reflexivity.
Defined.

(** ** What every step respects *)

Section Frames.

Context {R : World -> World -> Prop} {P : Event -> Prop} `{!Frame R P}.

Lemma keeps_ret {A} (a : A) : keeps R (ret a).
Proof. intros w r w' H. inversion H. apply frame_refl. Qed.

Lemma keeps_fail {A} e : keeps R (@fail A e).
Proof. intros w r w' H. inversion H. apply frame_refl. Qed.

Lemma keeps_panic {A} msg : keeps R (@panic A msg).
Proof. intros w r w' H. inversion H. apply frame_refl. Qed.

Lemma keeps_get : keeps R get.
Proof. intros w r w' H. inversion H. apply frame_refl. Qed.

Lemma keeps_bind {A B} (m : M A) (k : A -> M B) :
  keeps R m -> (forall a, keeps R (k a)) -> keeps R (bind m k).
Proof.
  intros Hm Hk w r w' H.
  apply bind_cases in H as [(a & w1 & H1 & H2)|(r0 & H1 & _ & _)].
  - eapply frame_trans; [eapply Hm|eapply Hk]; eassumption.
  - eapply Hm. eassumption.
Qed.

Lemma keeps_wrapped {A} prefix (m : M A) : keeps R m -> keeps R (wrapped prefix m).
Proof.
  intros Hm w r w' H. apply wrapped_cases in H as (r0 & H & _).
  eapply Hm. eassumption.
Qed.

Lemma keeps_attempt {A} (m : M A) : keeps R m -> keeps R (attempt m).
Proof.
  intros Hm w r w' H. apply attempt_cases in H as (r0 & H & _).
  eapply Hm. eassumption.
Qed.

Lemma keeps_must {A} (o : option A) msg : keeps R (must o msg).
Proof. destruct o; [apply keeps_ret|apply keeps_panic]. Qed.

Lemma keeps_of_error o : keeps R (of_error o).
Proof. destruct o; [apply keeps_fail|apply keeps_ret]. Qed.

Lemma keeps_emit e : P e -> keeps R (emit e).
Proof. intros He w r w' H. inversion H. apply (frame_emit e w He). Qed.

Lemma keeps_log lvl msg : P (ELog lvl msg) -> keeps R (log lvl msg).
Proof. apply keeps_emit. Qed.

Lemma keeps_outward env : keeps R (outward env).
Proof. intros w r w' H. inversion H. apply frame_outward. Qed.

Lemma keeps_advance d : 0 <= d -> keeps R (advance d).
Proof. intros Hd w r w' H. inversion H. apply (frame_advance d w Hd). Qed.

Lemma keeps_set_heap h : keeps R (set_heap h).
Proof. intros w r w' H. inversion H. apply (frame_heap h w). Qed.

Lemma keeps_load p : keeps R (load p).
Proof.
  unfold load. apply keeps_bind; [apply keeps_get|]. intros w.
  destruct (heap w !! p); [apply keeps_ret|apply keeps_panic].
Qed.

Lemma keeps_store p f : keeps R (store p f).
Proof.
  unfold store. apply keeps_bind; [apply keeps_get|]. intros w.
  destruct (heap w !! p); [apply keeps_set_heap|apply keeps_panic].
Qed.

Lemma keeps_new v : keeps R (new v).
Proof.
  unfold new. apply keeps_bind; [apply keeps_get|]. intros w.
  apply keeps_bind; [apply keeps_set_heap|]. intros _. apply keeps_ret.
Qed.

Lemma keeps_Sleep d : 0 <= d -> P (ESleep d) -> keeps R (Sleep d).
Proof.
  intros Hd He. unfold Sleep. apply keeps_bind; [apply keeps_emit; exact He|].
  intros _. apply keeps_advance. exact Hd.
Qed.

Lemma keeps_warn_on_error r msg : P (ELog Warn msg) -> keeps R (warn_on_error r msg).
Proof. intros He. destruct r; [apply keeps_log; exact He|apply keeps_ret]. Qed.

Section Service.

Variable env : Env.

Lemma keeps_RegisterSession sid party :
  P (ERegisterSession sid party) -> keeps R (RegisterSession env sid party).
Proof.
  intros He. unfold RegisterSession.
  apply keeps_bind; [apply keeps_outward|]. intros _.
  apply keeps_bind; [apply keeps_emit; exact He|]. intros _. apply keeps_of_error.
Qed.

Lemma keeps_StartSession sid parties :
  P (EStartSession sid parties) -> keeps R (StartSession env sid parties).
Proof.
  intros He. unfold StartSession.
  apply keeps_bind; [apply keeps_outward|]. intros _.
  apply keeps_bind; [apply keeps_emit; exact He|]. intros _. apply keeps_of_error.
Qed.

Lemma keeps_CompleteSession sid party :
  P (ECompleteSession sid party) -> keeps R (CompleteSession env sid party).
Proof.
  intros He. unfold CompleteSession.
  apply keeps_bind; [apply keeps_outward|]. intros _.
  apply keeps_bind; [apply keeps_emit; exact He|]. intros _. apply keeps_of_error.
Qed.

Lemma keeps_post url auth body who :
  P (EHttpPost url auth body) -> keeps R (post env url auth body who).
Proof.
  intros He. unfold post. apply keeps_bind; [apply keeps_outward|]. intros _.
  destruct (http_Do env url auth body) as [e|e|status rbody].
  - apply keeps_fail.
  - apply keeps_bind; [apply keeps_emit; exact He|]. intros _. apply keeps_fail.
  - apply keeps_bind; [apply keeps_emit; exact He|]. intros _.
    destruct (status =? StatusOK); [apply keeps_ret|apply keeps_fail].
Qed.

Lemma keeps_new_uuid : keeps R (new_uuid env).
Proof.
  unfold new_uuid. apply keeps_bind; [apply keeps_outward|]. intros k.
  apply keeps_ret.
Qed.

Lemma keeps_random_hex : keeps R (random_hex env).
Proof.
  unfold random_hex. apply keeps_bind; [apply keeps_outward|]. intros k.
  destruct (rand_Read env k); [apply keeps_ret|apply keeps_fail].
Qed.

Lemma keeps_time_Now_RFC3339 : keeps R (time_Now_RFC3339 env).
Proof.
  unfold time_Now_RFC3339. apply keeps_bind; [apply keeps_get|]. intros w.
  apply keeps_ret.
Qed.

End Service.

End Frames.

(** *** The two frames *)

Lemma told_refl P w : told P w w.
Proof. split; [reflexivity|]. exists []. split; [symmetry; apply app_nil_r|constructor]. Qed.

Lemma told_trans P w1 w2 w3 : told P w1 w2 -> told P w2 w3 -> told P w1 w3.
Proof.
  intros [D1 (e1 & T1 & F1)] [D2 (e2 & T2 & F2)]. split; [congruence|].
  exists (e1 ++ e2). split; [rewrite T2, T1; symmetry; apply app_assoc|].
  apply Forall_app. split; assumption.
Qed.

Lemma told_same P w w' :
  disk w' = disk w -> trace w' = trace w -> told P w w'.
Proof.
  intros Hd Ht. split; [exact Hd|]. exists [].
  split; [rewrite Ht; symmetry; apply app_nil_r|constructor].
Qed.

#[export] Instance told_frame P : Frame (told P) P.
Proof.
  constructor.
  - apply told_refl.
  - apply told_trans.
  - intros e w He. split; [reflexivity|]. exists [e]. split; [reflexivity|].
    constructor; [exact He|constructor].
  - intros env w. apply told_same; reflexivity.
  - intros d w _. apply told_same; reflexivity.
  - intros h w. apply told_same; reflexivity.
Qed.

#[export] Instance unpolled_frame : Frame unpolled (fun _ => True).
Proof.
  constructor.
  - intros w. split; [reflexivity|lia].
  - intros w1 w2 w3 [P1 C1] [P2 C2]. split; [congruence|lia].
  - intros e w _. split; [reflexivity|simpl; lia].
  - intros env w. split; [reflexivity|simpl; lia].
  - intros d w Hd. split; [reflexivity|simpl; lia].
  - intros h w. split; [reflexivity|simpl; lia].
Qed.

Lemma said_same P w w' : trace w' = trace w -> said P w w'.
Proof.
  intros Ht. exists []. split; [rewrite Ht; symmetry; apply app_nil_r|constructor].
Qed.

#[export] Instance said_frame P : Frame (said P) P.
Proof.
  constructor.
  - intros w. apply said_same. reflexivity.
  - intros w1 w2 w3 (e1 & T1 & F1) (e2 & T2 & F2).
    exists (e1 ++ e2). split; [rewrite T2, T1; symmetry; apply app_assoc|].
    apply Forall_app. split; assumption.
  - intros e w He. exists [e]. split; [reflexivity|].
    constructor; [exact He|constructor].
  - intros env w. apply said_same. reflexivity.
  - intros d w _. apply said_same. reflexivity.
  - intros h w. apply said_same. reflexivity.
Qed.

Lemma said_new_events P w w' : said P w w' -> Forall P (new_events w w').
Proof. intros (evs & Ht & Hf). rewrite (new_events_app _ _ _ Ht). exact Hf. Qed.

Lemma said_set_disk P d : keeps (said P) (set_disk d).
Proof. intros w r w' H. inversion H. apply said_same. reflexivity. Qed.

Lemma told_new_events P w w' :
  told P w w' -> Forall P (new_events w w').
Proof. intros [_ (evs & Ht & Hf)]. rewrite (new_events_app _ _ _ Ht). exact Hf. Qed.

Section PollFacts.

Context {R : World -> World -> Prop} {P : Event -> Prop} `{!Frame R P}.
Hypothesis R_poll : keeps R count_poll.
Variable env : Env.

Lemma keeps_GetSession sid :
  (forall resp, P (EGetSession sid resp)) ->
  keeps R (GetSession env sid).
Proof.
  intros He. unfold GetSession.
  apply keeps_bind; [apply keeps_outward|]. intros _.
  apply keeps_bind; [exact R_poll|].
  intros n. apply keeps_bind; [apply keeps_emit; apply He|]. intros _.
  destruct (relay_GetSession env n sid); [apply keeps_fail|apply keeps_ret].
Qed.

Lemma keeps_waitLoop fuel ctx dl sid expected :
  (forall resp, P (EGetSession sid resp)) ->
  (forall msg, P (ELog Debug msg)) ->
  P (ESleep Go.Second) ->
  keeps R (waitLoop env fuel ctx dl sid expected).
Proof.
  intros Hg Hl Hs.
  assert (H1 : 0 <= Go.Second) by (unfold Go.Second, Go.Nanosecond; lia).
  induction fuel as [|fuel IH]; cbn [waitLoop].
  - intros w r w' H. inversion H. apply frame_refl.
  - apply keeps_bind; [apply keeps_get|]. intros w.
    destruct (select _ _ _); [apply keeps_fail|apply keeps_fail|].
    apply keeps_bind; [apply keeps_attempt, keeps_GetSession, Hg|].
    intros [e|parties].
    + apply keeps_bind; [apply keeps_log, Hl|]. intros _.
      apply keeps_bind; [apply keeps_Sleep; assumption|]. intros _. exact IH.
    + destruct (Z.of_nat (length parties) >=? expected); [apply keeps_ret|].
      apply keeps_bind; [apply keeps_log, Hl|]. intros _.
      apply keeps_bind; [apply keeps_Sleep; assumption|]. intros _. exact IH.
Qed.

Lemma keeps_waitForParties t ctx sid expected :
  (forall resp, P (EGetSession sid resp)) ->
  (forall msg, P (ELog Debug msg)) ->
  P (ESleep Go.Second) ->
  keeps R (waitForParties env t ctx sid expected).
Proof.
  intros Hg Hl Hs. unfold waitForParties.
  apply keeps_bind; [apply keeps_get|]. intros w.
  apply keeps_waitLoop; assumption.
Qed.

End PollFacts.

Lemma told_count_poll P : keeps (told P) count_poll.
Proof. intros w r w' H. inversion H. apply told_same; reflexivity. Qed.

Lemma said_count_poll P : keeps (said P) count_poll.
Proof. intros w r w' H. inversion H. apply said_same. reflexivity. Qed.

Lemma told_waitForParties env P t ctx sid expected :
  (forall resp, P (EGetSession sid resp)) ->
  (forall msg, P (ELog Debug msg)) ->
  P (ESleep Go.Second) ->
  keeps (told P) (waitForParties env t ctx sid expected).
Proof. apply keeps_waitForParties, told_count_poll. Qed.

Lemma said_waitForParties env P t ctx sid expected :
  (forall resp, P (EGetSession sid resp)) ->
  (forall msg, P (ELog Debug msg)) ->
  P (ESleep Go.Second) ->
  keeps (said P) (waitForParties env t ctx sid expected).
Proof. apply keeps_waitForParties, said_count_poll. Qed.

(** Walks a body step by step; what is left are the conditions on the
    events it emits. *)
Ltac frame_step :=
  lazymatch goal with
  | |- keeps _ (bind _ _) => apply keeps_bind; [|intros ?]
  | |- keeps _ (wrapped _ _) => apply keeps_wrapped
  | |- keeps _ (attempt _) => apply keeps_attempt
  | |- keeps _ (ret _) => apply keeps_ret
  | |- keeps _ (fail _) => apply keeps_fail
  | |- keeps _ (panic _) => apply keeps_panic
  | |- keeps _ get => apply keeps_get
  | |- keeps _ (must _ _) => apply keeps_must
  | |- keeps _ (of_error _) => apply keeps_of_error
  | |- keeps _ (load _) => apply keeps_load
  | |- keeps _ (store _ _) => apply keeps_store
  | |- keeps _ (new _) => apply keeps_new
  | |- keeps _ (log _ _) => apply keeps_log
  | |- keeps _ (warn_on_error _ _) => apply keeps_warn_on_error
  | |- keeps _ (new_uuid _) => apply keeps_new_uuid
  | |- keeps _ (random_hex _) => apply keeps_random_hex
  | |- keeps _ (time_Now_RFC3339 _) => apply keeps_time_Now_RFC3339
  | |- keeps _ (RegisterSession _ _ _) => apply keeps_RegisterSession
  | |- keeps _ (StartSession _ _ _) => apply keeps_StartSession
  | |- keeps _ (CompleteSession _ _ _) => apply keeps_CompleteSession
  | |- keeps _ (post _ _ _ _ _) => apply keeps_post
  | |- keeps (told _) (waitForParties _ _ _ _ _) =>
      apply told_waitForParties; [intros ?|intros ?|]
  | |- keeps (said _) (waitForParties _ _ _ _ _) =>
      apply said_waitForParties; [intros ?|intros ?|]
  end.

Ltac frame_walk :=
  repeat first
    [ frame_step
    | progress unfold requestFastVaultKeygen, requestFastVaultReshare,
        requestVerifierReshare, requestVerifierKeysign,
        requestFastVaultKeysign ].

Lemma about_log sid key lvl msg : about sid key (ELog lvl msg).
Proof. split; exact I. Qed.

Lemma about_sleep sid key d : about sid key (ESleep d).
Proof. split; exact I. Qed.

(** The body of an operation, past the session id and the key. *)
Ltac about_walk :=
  frame_walk;
  try apply about_log; try apply about_sleep;
  try (split; [reflexivity|exact I]);
  try (split; reflexivity).

Section SessionFacts.

Variable env : Env.

(** The first two steps of every operation: the session id and the key. *)
Lemma prologue_run {B} (k : string -> string -> M B) w r w' :
  (forall sid key, keeps (told (about sid key)) (k sid key)) ->
  bind (new_uuid env)
    (fun sid => bind (wrapped "generate encryption key: " (random_hex env))
                  (fun key => k sid key)) w = (r, w') ->
  told (about (uuid_String (uuid_New env (calls w))) (session_key env w)) w w'.
Proof.
  intros Hk H. unfold bind at 1, new_uuid, bind at 1, outward, ret in H.
  cbn in H. unfold bind at 1, wrapped at 1, random_hex, bind at 1, outward in H.
  cbn in H. unfold session_key.
  destruct (rand_Read env (Datatypes.S (calls w))) as [bs|]; cbn in H.
  - apply Hk in H. destruct H as [Hd (evs & Ht & Hf)]. cbn in *.
    split; [exact Hd|]. exists evs. auto.
  - inversion H; subst. apply told_same; reflexivity.
Qed.

Lemma run_about t ctx op w r w' :
  run env t ctx op w = (r, w') ->
  told (about (uuid_String (uuid_New env (calls w))) (session_key env w)) w w'.
Proof.
  destruct op; cbn [run]; intros H;
    apply bind_cases in H as [(x & w1 & H & Hr)|(r0 & H & _ & _)];
    try (inversion Hr; subst; clear Hr).
  - revert H. unfold Keygen. apply prologue_run. intros sid key. about_walk.
  - revert H. unfold Keygen. apply prologue_run. intros sid key. about_walk.
  - revert H. unfold Reshare. apply prologue_run. intros sid key. about_walk.
  - revert H. unfold Reshare. apply prologue_run. intros sid key. about_walk.
  - revert H. unfold ReshareWithPlugin. apply prologue_run. intros sid key. about_walk.
  - revert H. unfold ReshareWithPlugin. apply prologue_run. intros sid key. about_walk.
  - revert H. unfold Keysign. apply prologue_run. intros sid key. about_walk.
  - revert H. unfold Keysign. apply prologue_run. intros sid key. about_walk.
  - revert H. unfold KeysignWithVerifier. apply prologue_run. intros sid key. about_walk.
  - revert H. unfold KeysignWithVerifier. apply prologue_run. intros sid key. about_walk.
Qed.

End SessionFacts.

Section OperationFrames.

Variable env : Env.

Ltac plain_walk := frame_walk; try reflexivity; try exact I; try (split; reflexivity).

Lemma run_dry t ctx op :
  keeps (told (fun e => is_write e = false)) (run env t ctx op).
Proof.
  destruct op; cbn [run]; apply keeps_bind; try (intros ?; apply keeps_ret).
  - unfold Keygen. plain_walk.
  - unfold Reshare. plain_walk.
  - unfold ReshareWithPlugin. plain_walk.
  - unfold Keysign. plain_walk.
  - unfold KeysignWithVerifier. plain_walk.
Qed.

Lemma run_routed t ctx op :
  keeps (told (routed env (op_verifier op) (op_auth op))) (run env t ctx op).
Proof.
  destruct op; cbn [run op_verifier op_auth]; apply keeps_bind;
    try (intros ?; apply keeps_ret).
  - unfold Keygen. plain_walk.
  - unfold Reshare. plain_walk.
  - unfold ReshareWithPlugin. plain_walk.
  - unfold Keysign. plain_walk.
  - unfold KeysignWithVerifier. plain_walk.
Qed.

End OperationFrames.

(** X12. One session per operation. Whatever the outcome, every relay call
    (register, poll, start, complete) and every join request of an operation
    names the session id drawn at its start, and every join request carries
    the one encryption key read right after it. *)
Theorem one_session_per_operation env t ctx op w :
  Forall (about (uuid_String (uuid_New env (calls w))) (session_key env w))
    (new_events w (snd (run env t ctx op w))).
Proof.
  apply told_new_events. eapply run_about. apply surjective_pairing.
Qed.

(** X13. No operation of the service touches the vault directory: whatever
    the outcome, the directory is as it was and the trace holds no file
    write. A generated or reshared vault exists in memory only until the
    caller saves it. *)
Theorem operations_leave_the_store env t ctx op w :
  disk (snd (run env t ctx op w)) = disk w /\
  no_write (new_events w (snd (run env t ctx op w))).
Proof.
  pose proof (run_dry env t ctx op w _ _ (surjective_pairing _)) as H.
  split; [exact (proj1 H)|]. apply (told_new_events _ _ _ H).
Qed.

(** X14. Where the requests go. In every run of an operation, a request to
    the Fast Vault Server (the bodies that hold the vault password) goes to
    the Fast Vault Server's own endpoint and never carries an Authorization
    header; a request to the Verifier goes to the caller's verifier URL and
    carries the caller's header, or none when that header is empty. *)
Theorem requests_are_routed env t ctx op w :
  Forall (routed env (op_verifier op) (op_auth op))
    (new_events w (snd (run env t ctx op w))).
Proof.
  apply told_new_events. eapply run_routed. apply surjective_pairing.
Qed.

(** ** Signing *)

Lemma map_const {A B} (c : B) (l : list A) :
  map (fun _ => c) l = repeat c (length l).
Proof. induction l as [|a l IH]; simpl; [reflexivity|]. rewrite IH. reflexivity. Qed.

(** Peels the steps of a run that returned. *)
Ltac peel_ok H :=
  repeat lazymatch type of H with
         | bind ?m ?k ?w = (Ok ?b, ?w') => apply bind_ok in H as (? & ? & _ & H)
         end.

Section SigningFacts.

Variable env : Env.

Lemma Keysign_panics t ctx vault v msgs path (ed : bool) pw w bs :
  heap w !! vault = Some v ->
  rand_Read env (Datatypes.S (calls w)) = Some bs ->
  Go.len (if ed then PublicKeyEdDSA v else PublicKeyECDSA v) < 16 ->
  Keysign env t ctx vault msgs path ed pw w
  = (Panic "slice bounds out of range", after_call env (after_call env w)).
Proof.
  intros Hv Hr Hk. unfold Keysign, bind at 1, new_uuid, bind at 1, outward, ret.
  cbn. unfold bind at 1, wrapped at 1, random_hex, bind at 1, outward. cbn.
  rewrite Hr. cbn. unfold bind at 1, load, bind at 1, get. cbn. rewrite Hv. cbn.
  rewrite slice_to_None by (right; exact Hk). reflexivity.
Qed.

Lemma KeysignWithVerifier_panics t ctx vault v msgs path url plugin auth w bs :
  heap w !! vault = Some v ->
  rand_Read env (Datatypes.S (calls w)) = Some bs ->
  Go.len (PublicKeyECDSA v) < 16 ->
  KeysignWithVerifier env t ctx vault msgs path url plugin auth w
  = (Panic "slice bounds out of range", after_call env (after_call env w)).
Proof.
  intros Hv Hr Hk.
  unfold KeysignWithVerifier, bind at 1, new_uuid, bind at 1, outward, ret.
  cbn. unfold bind at 1, wrapped at 1, random_hex, bind at 1, outward. cbn.
  rewrite Hr. cbn. unfold bind at 1, load, bind at 1, get. cbn. rewrite Hv. cbn.
  rewrite slice_to_None by (right; exact Hk). reflexivity.
Qed.

Lemma Keysign_result t ctx vault msgs path ed pw w res w' :
  Keysign env t ctx vault msgs path ed pw w = (Ok res, w') ->
  res = map (fun _ => {| ks_R := "placeholder"; ks_S := "placeholder";
                         ks_RecoveryID := "00";
                         ks_DerSignature := "placeholder" |}) msgs.
Proof.
  unfold Keysign. intros H. peel_ok H. inversion H. reflexivity.
Qed.

Lemma KeysignWithVerifier_result t ctx vault msgs path url plugin auth w res w' :
  KeysignWithVerifier env t ctx vault msgs path url plugin auth w = (Ok res, w') ->
  res = map (fun _ => {| ks_R := "placeholder_r"; ks_S := "placeholder_s";
                         ks_RecoveryID := "1b";
                         ks_DerSignature := "placeholder_der" |}) msgs.
Proof.
  unfold KeysignWithVerifier. intros H. peel_ok H. inversion H. reflexivity.
Qed.

End SigningFacts.

(** X15. A keysign takes the first 16 bytes of the public key for its log
    line before it does anything else with the vault: on a vault whose key
    for the chosen curve (the ECDSA key, for a keysign with the Verifier) has
    fewer than 16 bytes it panics, before the session is registered and
    before any request is sent. *)
Theorem keysign_short_key_panics env t ctx vault v w bs :
  heap w !! vault = Some v ->
  rand_Read env (Datatypes.S (calls w)) = Some bs ->
  (forall msgs path (ed : bool) pw,
      Go.len (if ed then PublicKeyEdDSA v else PublicKeyECDSA v) < 16 ->
      exists w',
        Keysign env t ctx vault msgs path ed pw w
        = (Panic "slice bounds out of range", w') /\
        new_events w w' = []) /\
  (forall msgs path url plugin auth,
      Go.len (PublicKeyECDSA v) < 16 ->
      exists w',
        KeysignWithVerifier env t ctx vault msgs path url plugin auth w
        = (Panic "slice bounds out of range", w') /\
        new_events w w' = []).
Proof.
  intros Hv Hr. split.
  - intros msgs path ed pw Hk. eexists. split.
    + eapply Keysign_panics; eassumption.
    + apply new_events_app. symmetry. apply app_nil_r.
  - intros msgs path url plugin auth Hk. eexists. split.
    + eapply KeysignWithVerifier_panics; eassumption.
    + apply new_events_app. symmetry. apply app_nil_r.
Qed.

Lemma keysign_short_key_panics_witness :
  let e := Scenario.env (fun _ => inr ["devctl"; "Server-36507"]) in
  let v := {| Name := "main"; PublicKeyECDSA := "02a1b2c3";
              PublicKeyEdDSA := ""; HexChainCode := "00112233";
              LocalPartyID := "devctl"; Signers := ["devctl"; "Server-36507"];
              KeyShares := []; ResharePrefix := "";
              CreatedAt := "2025-01-01T00:00:00Z"; LibType := 1 |} in
  let w := {| clock := 0; calls := 0; polls := 0; heap := [v];
              disk := Some []; trace := [] |} in
  (forall msgs path (ed : bool) pw,
      Go.len (if ed then PublicKeyEdDSA v else PublicKeyECDSA v) < 16 ->
      exists w',
        Keysign e Scenario.tss Background 0%nat msgs path ed pw w
        = (Panic "slice bounds out of range", w') /\
        new_events w w' = []) /\
  (forall msgs path url plugin auth,
      Go.len (PublicKeyECDSA v) < 16 ->
      exists w',
        KeysignWithVerifier e Scenario.tss Background 0%nat msgs path url
          plugin auth w
        = (Panic "slice bounds out of range", w') /\
        new_events w w' = []).
Proof.
  intros e v w.
  apply (keysign_short_key_panics e Scenario.tss Background 0%nat v w
           (repeat x00 32)).
  - reflexivity.
  - reflexivity.
Defined.

(** X16. The vault [Keygen] returns cannot sign. [Keygen] leaves both public
    keys empty, so a keysign on the vault of a successful [Keygen], on either
    curve and with or without the Verifier, panics on the slice of the
    key. *)
Theorem Keygen_vault_cannot_sign env t ctx name w p w1 bs :
  Keygen env t ctx name w = (Ok p, w1) ->
  rand_Read env (Datatypes.S (calls w1)) = Some bs ->
  (forall t' ctx' msgs path ed pw,
      fst (Keysign env t' ctx' p msgs path ed pw w1)
      = Panic "slice bounds out of range") /\
  (forall t' ctx' msgs path url plugin auth,
      fst (KeysignWithVerifier env t' ctx' p msgs path url plugin auth w1)
      = Panic "slice bounds out of range").
Proof.
  intros H Hr.
  apply Keygen_ok in H as (L & chain & now & -> & Hh & _).
  assert (Hv : heap w1 !! length (heap w)
               = Some {| Name := name; PublicKeyECDSA := "";
                         PublicKeyEdDSA := ""; HexChainCode := chain;
                         LocalPartyID := localPartyID t; Signers := L;
                         KeyShares := []; ResharePrefix := "";
                         CreatedAt := now; LibType := 1 |}).
  { rewrite Hh. apply lookup_appended. }
  split.
  - intros t' ctx' msgs path ed pw.
    rewrite (Keysign_panics env t' ctx' _ _ msgs path ed pw w1 bs Hv Hr);
      [reflexivity|]. destruct ed; reflexivity.
  - intros t' ctx' msgs path url plugin auth.
    rewrite (KeysignWithVerifier_panics env t' ctx' _ _ msgs path url plugin
               auth w1 bs Hv Hr); reflexivity.
Qed.

Lemma Keygen_vault_cannot_sign_witness :
  let e := Scenario.env (Scenario.joins_after 2 ["devctl"; "Server-36507"]) in
  let w1 := snd (Keygen e Scenario.tss Background "main" Scenario.world0) in
  (forall t' ctx' msgs path ed pw,
      fst (Keysign e t' ctx' 0%nat msgs path ed pw w1)
      = Panic "slice bounds out of range") /\
  (forall t' ctx' msgs path url plugin auth,
      fst (KeysignWithVerifier e t' ctx' 0%nat msgs path url plugin auth w1)
      = Panic "slice bounds out of range").
Proof.
  intros e w1.
  apply (Keygen_vault_cannot_sign e Scenario.tss Background "main"
           Scenario.world0 0%nat w1 (repeat x00 32)).
  - vm_compute. reflexivity.
  - reflexivity.
Defined.

(** X17. A keysign that succeeds returns one result per message, and every
    result is the same fixed placeholder, whatever the vault, the messages
    and the curve: no signature is computed. *)
Theorem keysign_returns_placeholders env t ctx op w sigs w' :
  run env t ctx op w = (Ok (Signatures sigs), w') ->
  match op with
  | OpKeysign _ msgs _ _ _ =>
      sigs = repeat {| ks_R := "placeholder"; ks_S := "placeholder";
                       ks_RecoveryID := "00";
                       ks_DerSignature := "placeholder" |} (length msgs)
  | OpKeysignWithVerifier _ msgs _ _ _ _ =>
      sigs = repeat {| ks_R := "placeholder_r"; ks_S := "placeholder_s";
                       ks_RecoveryID := "1b";
                       ks_DerSignature := "placeholder_der" |} (length msgs)
  | _ => False
  end.
Proof.
  destruct op; cbn [run]; intros H;
    apply bind_ok in H as (x & w1 & H & Hr); inversion Hr; subst.
  - apply Keysign_result in H. rewrite H. apply map_const.
  - apply KeysignWithVerifier_result in H. rewrite H. apply map_const.
Qed.

Lemma keysign_returns_placeholders_witness :
  let e := Scenario.env (Scenario.joins_after 2 ["devctl"; "Server-36507"]) in
  let op := OpKeysign 0%nat ["68656c6c6f"; "776f726c64"] "m/44'/60'/0'/0/0"
              false "pw" in
  let r := run e Scenario.tss Background op Scenario.world1 in
  exists sigs,
    fst r = Ok (Signatures sigs) /\
    sigs = repeat {| ks_R := "placeholder"; ks_S := "placeholder";
                     ks_RecoveryID := "00";
                     ks_DerSignature := "placeholder" |} 2.
Proof.
  intros e op r.
  assert (H : exists sigs, r = (Ok (Signatures sigs), snd r)).
  { eexists. vm_compute. reflexivity. }
  destruct H as [sigs H]. exists sigs. split; [rewrite H; reflexivity|].
  apply (keysign_returns_placeholders e Scenario.tss Background op
           Scenario.world1 sigs (snd r)).
  exact H.
Defined.

(** ** The wait under a context *)

Lemma keeps_after {R1 R2 : World -> World -> Prop} {A B}
    (m : M A) (k : A -> M B) :
  (forall w1 w2 w3, R1 w1 w2 -> R2 w2 w3 -> R2 w1 w3) ->
  (forall w w', R1 w w' -> R2 w w') ->
  keeps R1 m -> (forall a, keeps R2 (k a)) -> keeps R2 (bind m k).
Proof.
  intros Hc Hi Hm Hk w r w' H.
  apply bind_cases in H as [(a & w1 & H1 & H2)|(r0 & H1 & _ & _)].
  - eapply Hc; [eapply Hm|eapply Hk]; eassumption.
  - apply Hi. eapply Hm. eassumption.
Qed.

Lemma keeps_before {R1 R2 : World -> World -> Prop} {A B}
    (m : M A) (k : A -> M B) :
  (forall w1 w2 w3, R2 w1 w2 -> R1 w2 w3 -> R2 w1 w3) ->
  keeps R2 m -> (forall a, keeps R1 (k a)) -> keeps R2 (bind m k).
Proof.
  intros Hc Hm Hk w r w' H.
  apply bind_cases in H as [(a & w1 & H1 & H2)|(r0 & H1 & _ & _)].
  - eapply Hc; [eapply Hm|eapply Hk]; eassumption.
  - eapply Hm. eassumption.
Qed.

Lemma Second_pos : 0 < Go.Second.
Proof. unfold Go.Second, Go.Nanosecond. lia. Qed.

Lemma unpolled_within T w1 w2 w3 :
  unpolled w1 w2 -> within T w2 w3 -> within T w1 w3.
Proof.
  intros [P1 C1] (C2 & L2 & B2). pose proof Second_pos as Hs.
  split; [lia|]. split; [lia|].
  destruct B2 as [B2|B2]; [left; congruence|right].
  rewrite <- P1.
  assert (0 <= Z.of_nat (polls w3 - polls w2) - 1 \/ polls w3 = polls w2) as [H|H]
    by lia; [nia|].
  rewrite H in *. replace (polls w2 - polls w2)%nat with 0%nat in * by lia. lia.
Qed.

Lemma within_unpolled T w1 w2 w3 :
  within T w1 w2 -> unpolled w2 w3 -> within T w1 w3.
Proof.
  intros (C1 & L1 & B1) [P2 C2]. split; [lia|]. split; [lia|].
  rewrite P2. exact B1.
Qed.

Lemma unpolled_is_within T w w' : unpolled w w' -> within T w w'.
Proof. intros [P1 C1]. split; [exact C1|]. split; [lia|]. left. exact P1. Qed.

Section ContextFacts.

Variable env : Env.

Lemma waitLoop_within fuel ctx T dl sid expected :
  ctx_done_at ctx = Some T ->
  keeps (within T) (waitLoop env fuel ctx dl sid expected).
Proof.
  intros HT. pose proof Second_pos as Hs.
  induction fuel as [|fuel IH]; intros w r w' H.
  - inversion H; subst. apply unpolled_is_within. split; [reflexivity|lia].
  - destruct (ctx_Done ctx (clock w)) eqn:Ec; destruct (dl <=? clock w) eqn:Ed;
      try (simpl in H; unfold bind at 1, get at 1 in H; rewrite Ec, Ed in H;
           simpl in H; try destruct (select_pick env (polls w));
           unfold fail in H; inversion H; subst;
           (apply unpolled_is_within; split; [reflexivity|lia])).
    assert (Hnow : clock w < T).
    { unfold ctx_Done in Ec. rewrite HT in Ec. apply Z.leb_gt in Ec. exact Ec. }
    assert (Hturn : short_of expected (relay_GetSession env (polls w) sid) ->
                    within T w w').
    { intros Hshort.
      rewrite turn_step in H; [|exact Ec|exact Ed|exact Hshort].
      apply IH in H as (C & L & B). simpl in C, L, B.
      split; [lia|]. split; [lia|]. right.
      destruct B as [B|B].
      - rewrite B.
        replace (Z.of_nat (Datatypes.S (polls w) - polls w) - 1) with 0 by lia.
        lia.
      - replace (Z.of_nat (polls w' - polls w) - 1)
          with ((Z.of_nat (polls w' - Datatypes.S (polls w)) - 1) + 1) by lia.
        lia. }
    destruct (relay_GetSession env (polls w) sid) as [e|L] eqn:Er.
    + apply Hturn. exact I.
    + destruct (Z_lt_le_dec (Z.of_nat (length L)) expected) as [Hlt|Hge].
      * apply Hturn. exact Hlt.
      * rewrite (quorum_step env fuel ctx dl sid expected w L Ec Ed Er Hge) in H.
        inversion H; subst. split; simpl; [lia|]. split; [lia|]. right.
        replace (Z.of_nat (Datatypes.S (polls w) - polls w) - 1) with 0 by lia.
        lia.
Qed.

Lemma waitForParties_within t ctx T sid expected :
  ctx_done_at ctx = Some T ->
  keeps (within T) (waitForParties env t ctx sid expected).
Proof.
  intros HT w r w'. unfold waitForParties, bind at 1, get at 1.
  apply waitLoop_within. exact HT.
Qed.

Lemma waitForParties_cancelled t ctx T sid expected w :
  ctx_done_at ctx = Some T -> T <= clock w ->
  waitForParties env t ctx sid expected w = (Err (ctx_err_msg (ctx_cause ctx)), w).
Proof.
  intros HT Hdone. unfold waitForParties, bind at 1, get at 1, wait_fuel.
  cbn [waitLoop]. unfold bind at 1, get at 1.
  replace (ctx_Done ctx (clock w)) with true
    by (unfold ctx_Done; rewrite HT; symmetry; apply Z.leb_le; exact Hdone).
  replace (clock w + KeygenTimeout <=? clock w) with false
    by (symmetry; apply Z.leb_gt; unfold KeygenTimeout, Go.Minute, Go.Second,
        Go.Nanosecond; lia).
  reflexivity.
Qed.

End ContextFacts.

(** X18. The wait under a context that ends. Every poll of the wait begins
    before the context's [Done] channel is closed, and each poll but the last
    is followed by a one-second sleep: the wait makes [n] polls only if
    [Done] is still open [n - 1] seconds after the wait began. A wait entered
    when [Done] is closed returns the context's error at once, without a
    poll. ([T] is the instant at which [Done] is closed; for a context with
    a deadline that is the deadline or later.) *)
Theorem waitForParties_within_context env t ctx T sid expected w r w' :
  ctx_done_at ctx = Some T ->
  waitForParties env t ctx sid expected w = (r, w') ->
  (polls w' = polls w \/
   clock w + (Z.of_nat (polls w' - polls w) - 1) * Go.Second < T) /\
  (T <= clock w -> r = Err (ctx_err_msg (ctx_cause ctx)) /\ w' = w).
Proof.
  intros HT H. split.
  - apply (waitForParties_within env t ctx T sid expected HT) in H.
    exact (proj2 (proj2 H)).
  - intros Hdone.
    rewrite (waitForParties_cancelled env t ctx T sid expected w HT Hdone) in H.
    inversion H. auto.
Qed.

Lemma waitForParties_within_context_witness :
  let e := Scenario.env (fun _ => inr ["devctl"]) in
  let ctx := WithTimeout 0 (30 * Go.Second) (timer_lag e 0) in
  let T := 30 * Go.Second + 250000 in
  let run := waitForParties e Scenario.tss ctx "s" 2 Scenario.world0 in
  let late := {| clock := 31 * Go.Second; calls := 0; polls := 0; heap := [];
                 disk := Some []; trace := [] |} in
  let run' := waitForParties e Scenario.tss ctx "s" 2 late in
  (polls (snd run) = 31%nat /\
   (polls (snd run) = polls Scenario.world0 \/
    clock Scenario.world0
    + (Z.of_nat (polls (snd run) - polls Scenario.world0) - 1) * Go.Second
    < T)) /\
  (fst run' = Err "context deadline exceeded" /\ snd run' = late).
Proof.
  intros e ctx T run late run'. split.
  - split; [vm_compute; reflexivity|].
    apply (waitForParties_within_context e Scenario.tss ctx T "s" 2
             Scenario.world0 (fst run) (snd run)).
    + reflexivity.
    + apply surjective_pairing.
  - apply (waitForParties_within_context e Scenario.tss ctx T "s" 2
             late (fst run') (snd run')).
    + reflexivity.
    + apply surjective_pairing.
    + vm_compute. discriminate.
Defined.

(** ** The reshare command under its 30-second context *)

Lemma unpolled_set_disk d : keeps unpolled (set_disk d).
Proof. intros w r w' H. inversion H. split; [reflexivity|simpl; lia]. Qed.

Ltac store_walk :=
  repeat first
    [ exact I
    | frame_step
    | lazymatch goal with
      | |- keeps _ (set_disk _) => apply unpolled_set_disk
      | |- keeps _ (emit _) => apply keeps_emit
      | |- keeps _ (outward _) => apply keeps_outward
      | |- keeps _ (match ?x with _ => _ end) => destruct x
      | |- keeps _ (if ?b then _ else _) => destruct b
      end
    | progress unfold fs_call, MkdirAll, ReadDir, ReadFile, WriteFile,
        put_file, Unmarshal, SaveVault, LoadVault, LoadConfig, LoadAuthToken,
        GetAuthHeader ].

Section CommandFacts.

Variable env : Env.

Lemma unpolled_SaveVault p : keeps unpolled (SaveVault env p).
Proof. store_walk. Qed.

Lemma unpolled_LoadVault_scan files p : keeps unpolled (LoadVault_scan env files p).
Proof.
  induction files as [|name files IH]; cbn [LoadVault_scan]; [store_walk|].
  destruct (HasPrefix name p || Contains name p); [store_walk|exact IH].
Qed.

Lemma unpolled_LoadVault p : keeps unpolled (LoadVault env p).
Proof.
  unfold LoadVault. apply keeps_bind; [store_walk|]. intros files.
  apply unpolled_LoadVault_scan.
Qed.

Lemma unpolled_LoadConfig : keeps unpolled (LoadConfig env).
Proof. store_walk. Qed.

Lemma unpolled_GetAuthHeader : keeps unpolled (GetAuthHeader env).
Proof. store_walk. Qed.

(** Walks an operation up to its wait, through it, and to its end. *)
Ltac within_walk HT :=
  repeat lazymatch goal with
         | |- keeps (within _) (bind (wrapped _ (waitForParties _ _ _ _ _)) _) =>
             apply (keeps_before (R1 := unpolled));
             [ apply within_unpolled
             | apply keeps_wrapped, waitForParties_within; exact HT
             | intros ?; frame_walk; exact I ]
         | |- keeps (within _) (bind _ _) =>
             apply (keeps_after (R1 := unpolled));
             [ apply unpolled_within
             | apply unpolled_is_within
             | frame_walk; exact I
             | intros ? ]
         end.

Lemma Reshare_within t ctx T vault plugin url auth pw :
  ctx_done_at ctx = Some T ->
  keeps (within T) (Reshare env t ctx vault plugin url auth pw).
Proof. intros HT. unfold Reshare. within_walk HT. Qed.

Lemma within_seconds n T w0 w' :
  T <= clock w0 + Z.of_nat n * Go.Second ->
  within T w0 w' -> polled_at_most n w0 w'.
Proof.
  intros HT (_ & L & [B|B]); unfold polled_at_most; [lia|].
  pose proof Second_pos. nia.
Qed.

Lemma unpolled_polled n w1 w2 w3 :
  unpolled w1 w2 -> polled_at_most n w2 w3 -> polled_at_most n w1 w3.
Proof. intros [P1 _] H. unfold polled_at_most in *. lia. Qed.

Lemma polled_unpolled n w1 w2 w3 :
  polled_at_most n w1 w2 -> unpolled w2 w3 -> polled_at_most n w1 w3.
Proof. intros H [P1 _]. unfold polled_at_most in *. lia. Qed.

Lemma unpolled_is_polled n w w' : unpolled w w' -> polled_at_most n w w'.
Proof. intros [P1 _]. unfold polled_at_most. lia. Qed.

Lemma runVaultReshare_polls plugin url pw late :
  (forall k, Z.of_N (timer_lag env k) <= Z.of_nat late * Go.Second) ->
  keeps (polled_at_most (30 + late)) (runVaultReshare env plugin url pw).
Proof.
  intros Hlag. unfold runVaultReshare.
  apply (keeps_after (R1 := unpolled));
    [apply unpolled_polled|apply unpolled_is_polled|
     apply keeps_wrapped, unpolled_LoadConfig|intros cfg].
  destruct (String.eqb (cfg_PublicKeyECDSA cfg) "").
  { intros w r w' H. inversion H. unfold polled_at_most. lia. }
  apply (keeps_after (R1 := unpolled));
    [apply unpolled_polled|apply unpolled_is_polled|apply keeps_must|intros p].
  apply (keeps_after (R1 := unpolled));
    [apply unpolled_polled|apply unpolled_is_polled|
     apply keeps_wrapped, unpolled_LoadVault|intros vault].
  apply (keeps_after (R1 := unpolled));
    [apply unpolled_polled|apply unpolled_is_polled|apply keeps_load|intros v].
  apply (keeps_after (R1 := unpolled));
    [apply unpolled_polled|apply unpolled_is_polled|
     apply keeps_attempt, unpolled_GetAuthHeader|intros a].
  intros w0 r w' H. unfold bind at 1, get at 1 in H. cbv zeta in H.
  apply (within_seconds (30 + late)
           (clock w0 + 30 * Go.Second + Z.of_N (timer_lag env (calls w0)))).
  { specialize (Hlag (calls w0)). lia. }
  revert H.
  apply (keeps_before (R1 := unpolled)); [apply within_unpolled| |].
  - apply keeps_wrapped, Reshare_within. reflexivity.
  - intros newVault.
    apply keeps_bind; [apply keeps_wrapped, unpolled_SaveVault|]. intros _.
    frame_walk.
Qed.

End CommandFacts.

(** X19. The reshare command gives its reshare a context of 30 seconds, so
    the three-minute wait is cut short by the context. How many polls fit
    depends on how late the runtime closes the context's channel after the
    deadline: when that is at most [late] seconds, the command polls the
    relay at most [30 + late] times, however long the parties take. That is
    30 polls when the channel is closed right at the deadline and 31 when it
    is closed within the second that follows. *)
Theorem runVaultReshare_polls_bounded env plugin url pw w late :
  (forall k, Z.of_N (timer_lag env k) <= Z.of_nat late * Go.Second) ->
  (polls (snd (runVaultReshare env plugin url pw w)) <= polls w + (30 + late))%nat.
Proof.
  intros Hlag.
  apply (runVaultReshare_polls env plugin url pw late Hlag w _ _
           (surjective_pairing _)).
Qed.

Lemma runVaultReshare_polls_bounded_witness :
  let e := Scenario.logged_in (Scenario.env (fun _ => inr ["devctl"])) in
  let run := runVaultReshare e "vultisig-dca-0000" "http://localhost:8081" "pw"
               Scenario.world2 in
  fst run = Err "reshare failed: wait for parties: context deadline exceeded" /\
  polls (snd run) = 31%nat /\
  (polls (snd run) <= polls Scenario.world2 + (30 + 1))%nat.
Proof.
  intros e run. split; [vm_compute; reflexivity|].
  split; [vm_compute; reflexivity|].
  apply (runVaultReshare_polls_bounded e "vultisig-dca-0000"
           "http://localhost:8081" "pw" Scenario.world2 1).
  intros k. vm_compute. discriminate.
Defined.

(** X20. What a successful reshare command leaves on disk. When the command
    succeeds, the vault it loaded from the directory is written back to the
    file [SaveVault] derives from it, with the signers replaced by the list
    the session was started with and no other field changed; every other
    file reads as before. *)
Theorem runVaultReshare_saves_new_signers env plugin url pw w w' :
  runVaultReshare env plugin url pw w = (Ok tt, w') ->
  exists v L name,
    stored v (disk w) /\
    vault_file_name v = Some name /\
    file_at (disk w') (path_key env name)
    = Some (MarshalIndent (set_Signers L v)) /\
    (forall other, other <> path_key env name ->
                   file_at (disk w') other = file_at (disk w) other) /\
    exists sid, In (EStartSession sid L) (new_events w w').
Proof.
  intros H. unfold runVaultReshare in H.
  apply bind_ok in H as (cfg & w1 & H1 & H).
  apply wrapped_ok, LoadConfig_run in H1 as (Hh1 & Hd1 & Ht1 & _).
  destruct (String.eqb (cfg_PublicKeyECDSA cfg) ""); [discriminate H|].
  apply bind_ok in H as (p16 & w1' & Hm & H).
  apply must_ok in Hm as (_ & ->).
  apply bind_ok in H as (vault & w2 & H2 & H).
  apply wrapped_ok, LoadVault_run in H2 as (Hd2 & Ht2 & -> & v & Hst & Hh2).
  apply bind_ok in H as (v0 & w2' & Hl & H).
  apply load_ok in Hl as (Hv0 & ->).
  apply bind_ok in H as (a & w3 & H3 & H).
  apply GetAuthHeader_run in H3 as (Hh3 & Hd3 & Ht3 & _).
  unfold bind at 1, get at 1 in H. cbv zeta in H.
  apply bind_ok in H as (q & wR & HR & H).
  apply wrapped_ok, Reshare_ok in HR as (L & vR & -> & HvR & HhR & HdR & Hrec).
  apply recruited_started in Hrec.
  apply bind_ok in H as (u & wS & HS & H).
  apply wrapped_ok in HS.
  assert (vR = v) as ->.
  { rewrite Hh3, Hh2, lookup_appended in HvR. inversion HvR. reflexivity. }
  pose proof HvR as Hv3.
  assert (HvS : heap wR !! length (heap w1) = Some (set_Signers L v)).
  { rewrite HhR. eapply lookup_updated. exact Hv3. }
  apply (SaveVault_cases env _ _ _ _ _ HvS) in HS
    as (HhS & name & Hname & HdS & HtS & _).
  apply bind_ok in H as (v1 & wS' & Hl & H).
  apply load_ok in Hl as (_ & ->). apply ret_ok in H as (_ & ->).
  assert (Hdisk : disk wR = disk w).
  { rewrite HdR, Hd3, Hd2, Hd1. reflexivity. }
  exists v, L, name. split; [rewrite <- Hd1; exact Hst|].
  split; [exact Hname|]. rewrite HdS, Hdisk. cbn [file_at].
  split; [apply read_write_same|]. split.
  - intros other Hne. apply other_files. exact Hne.
  - eexists. apply (started_stays w wR _ _ [EWriteFile name]); [|exact HtS].
    unfold new_events in *. rewrite <- Ht1, <- Ht2, <- Ht3. exact Hrec.
Qed.

Lemma runVaultReshare_saves_new_signers_witness :
  let e := Scenario.logged_in
             (Scenario.env (Scenario.joins_after 3 Scenario.four)) in
  let w' := snd (runVaultReshare e "vultisig-dca-0000" "http://localhost:8081"
                   "pw" Scenario.world2) in
  exists v L name,
    stored v (disk Scenario.world2) /\
    vault_file_name v = Some name /\
    file_at (disk w') (path_key e name)
    = Some (MarshalIndent (set_Signers L v)) /\
    (forall other, other <> path_key e name ->
                   file_at (disk w') other = file_at (disk Scenario.world2) other) /\
    exists sid, In (EStartSession sid L) (new_events Scenario.world2 w').
Proof.
  intros e w'.
  apply (runVaultReshare_saves_new_signers e "vultisig-dca-0000"
           "http://localhost:8081" "pw" Scenario.world2 w').
  vm_compute. reflexivity.
Defined.

(** ** The keysign command *)

Section KeysignCommand.

Variable env : Env.
Variable P : Event -> Prop.

Lemma told_LoadVault_scan files p : keeps (told P) (LoadVault_scan env files p).
Proof.
  induction files as [|name files IH]; cbn [LoadVault_scan]; [store_walk|].
  destruct (HasPrefix name p || Contains name p); [store_walk|exact IH].
Qed.

Lemma told_LoadVault p : keeps (told P) (LoadVault env p).
Proof.
  unfold LoadVault. apply keeps_bind; [store_walk|]. intros files.
  apply told_LoadVault_scan.
Qed.

Lemma told_LoadConfig : keeps (told P) (LoadConfig env).
Proof. store_walk. Qed.

End KeysignCommand.

Lemma runVaultKeysign_told env message path ed pw :
  keeps (told (signing_request message path ed pw))
    (runVaultKeysign env message path ed pw).
Proof.
  unfold runVaultKeysign.
  apply keeps_bind; [apply keeps_wrapped, told_LoadConfig|]. intros cfg.
  destruct (String.eqb (cfg_PublicKeyECDSA cfg) ""); [apply keeps_fail|].
  apply keeps_bind; [apply keeps_must|]. intros p.
  apply keeps_bind; [apply keeps_wrapped, told_LoadVault|]. intros vault.
  apply keeps_bind; [apply keeps_load|]. intros v.
  apply keeps_bind; [apply keeps_get|]. intros w0. cbv zeta.
  apply keeps_bind; [|intros ?; apply keeps_ret].
  apply keeps_wrapped. unfold Keysign.
  frame_walk; try exact I. cbn. destruct ed; repeat split.
Qed.

(** X21. The keysign command sends one kind of request only, a sign request
    to the Fast Vault Server for the one message it was given; for EdDSA the
    derive path the user passed is dropped and the request carries an empty
    one. The command writes no file and leaves the vault directory as it
    was. *)
Theorem runVaultKeysign_request env message path ed pw w :
  let w' := snd (runVaultKeysign env message path ed pw w) in
  Forall (signing_request message path ed pw) (new_events w w') /\
  disk w' = disk w.
Proof.
  intros w'.
  pose proof (runVaultKeysign_told env message path ed pw w _ _
                (surjective_pairing _)) as H.
  split; [apply (told_new_events _ _ _ H)|exact (proj1 H)].
Qed.

(** ** What [Keygen] returns and what it told the servers *)

Lemma told_nothing w w' : told (fun _ => False) w w' -> trace w' = trace w.
Proof.
  intros [_ (evs & Ht & Hf)]. destruct evs as [|e evs].
  - rewrite Ht. apply app_nil_r.
  - inversion Hf; contradiction.
Qed.

(** X22. The vault a successful [Keygen] returns agrees with what the run
    told the outside: it has the name the caller gave, its local party id is
    the party registered with the relay, and its name, chain code and
    library type are those of the create request sent to the Fast Vault
    Server. *)
Theorem Keygen_vault_agrees env t ctx name w p w' :
  Keygen env t ctx name w = (Ok p, w') ->
  exists v,
    heap w' !! p = Some v /\
    Name v = name /\
    Forall (agrees_with v) (new_events w w').
Proof.
  intros H. unfold Keygen in H.
  apply bind_ok in H as (sid & w1 & H1 & H).
  apply bind_ok in H as (key & w2 & H2 & H).
  apply bind_ok in H as (chain & w3 & H3 & H).
  assert (Ht : trace w3 = trace w).
  { apply (keeps_new_uuid (R := told (fun _ => False))), told_nothing in H1.
    apply (keeps_wrapped (R := told (fun _ => False))), told_nothing in H2;
      [|apply keeps_random_hex].
    apply (keeps_wrapped (R := told (fun _ => False))), told_nothing in H3;
      [|apply keeps_random_hex].
    congruence. }
  pose proof H as Hrun. peel_ok H.
  match type of H with
  | new ?v ?wl = _ =>
      exists v; unfold new, bind, get, set_heap, ret in H; inversion H; subst;
      cbn [heap]; split; [apply lookup_appended|]; split; [reflexivity|];
      match type of Hrun with
      | ?m _ = _ =>
          assert (Hk : keeps (told (agrees_with v)) m)
            by (frame_walk; try exact I; cbn; auto)
      end
  end.
  apply Hk, told_new_events in Hrun.
  unfold new_events in *. rewrite <- Ht. exact Hrun.
Qed.

Lemma Keygen_vault_agrees_witness :
  let e := Scenario.env (Scenario.joins_after 2 ["devctl"; "Server-36507"]) in
  let w' := snd (Keygen e Scenario.tss Background "main" Scenario.world0) in
  exists v,
    heap w' !! 0%nat = Some v /\
    Name v = "main" /\
    Forall (agrees_with v) (new_events Scenario.world0 w').
Proof.
  intros e w'.
  apply (Keygen_vault_agrees e Scenario.tss Background "main" Scenario.world0
           0%nat w').
  vm_compute. reflexivity.
Defined.

(** ** The header of the reshare command *)

Lemma in_drop_le (e : Event) (m n : nat) (l : list Event) :
  (m <= n)%nat -> In e (drop n l) -> In e (drop m l).
Proof.
  intros Hle. replace n with (m + (n - m))%nat by lia.
  rewrite <- drop_drop. generalize (drop m l). intros l'.
  generalize (n - m)%nat. intros k. revert l'.
  induction k as [|k IH]; intros [|x l']; simpl; auto.
Qed.

Lemma later_events w w1 w' e :
  said (fun _ => True) w w1 -> In e (new_events w1 w') -> In e (new_events w w').
Proof.
  intros (evs & Ht & _). unfold new_events. apply in_drop_le.
  rewrite Ht, length_app. lia.
Qed.

Lemma tells_first {A B} Q (m : M A) (k : A -> M B) :
  tells Q m -> (forall a, keeps (said (fun _ => True)) (k a)) ->
  tells Q (bind m k).
Proof.
  intros Hm Hk w b w' H. apply bind_ok in H as (a & w1 & H1 & H2).
  apply Hm in H1 as (e & He & Hin). apply Hk in H2 as (evs & Ht & _).
  exists e. split; [exact He|]. exact (started_stays _ _ _ _ _ Hin Ht).
Qed.

Lemma tells_later {A B} Q (m : M A) (k : A -> M B) :
  keeps (said (fun _ => True)) m -> (forall a, tells Q (k a)) ->
  tells Q (bind m k).
Proof.
  intros Hm Hk w b w' H. apply bind_ok in H as (a & w1 & H1 & H2).
  apply Hm in H1. apply Hk in H2 as (e & He & Hin).
  exists e. split; [exact He|]. exact (later_events _ _ _ _ H1 Hin).
Qed.

Lemma tells_wrapped {A} Q prefix (m : M A) : tells Q m -> tells Q (wrapped prefix m).
Proof. intros Hm w a w' H. apply wrapped_ok in H. exact (Hm _ _ _ H). Qed.

Lemma carry_failed {A B} (r : Res A) (b : B) : carry r <> Ok b.
Proof. destruct r; discriminate. Qed.

Section HeaderFacts.

Variable env : Env.

Lemma GetAuthHeader_ok w h w' :
  GetAuthHeader env w = (Ok h, w') -> bearer_of env h /\ auth_of h = Some h.
Proof.
  cbv beta iota zeta delta [GetAuthHeader bind attempt LoadAuthToken LoadConfig
    outward get ret fail]. cbn.
  destruct (cfg_Load env (calls w)) as [e|cfg] eqn:Hc; cbn; [discriminate|].
  destruct (String.eqb (cfg_AuthToken cfg) "") eqn:Et; cbn; [discriminate|].
  destruct (time_Parse env (cfg_AuthExpiresAt cfg)) as [z|]; cbn; [|discriminate].
  match goal with |- context [if ?b then _ else _] => destruct b end;
    cbn; [discriminate|].
  intros H. inversion H. split; [|reflexivity]. exists (calls w), cfg.
  split; [exact Hc|]. split; [apply String.eqb_neq; exact Et|reflexivity].
Qed.

(** What [GetAuthHeader] answers depends on the configuration it finds and
    on the time only. *)
Lemma GetAuthHeader_fst w1 w2 :
  calls w1 = calls w2 -> clock w1 = clock w2 ->
  fst (GetAuthHeader env w1) = fst (GetAuthHeader env w2).
Proof.
  intros Hc Hk.
  cbv beta iota zeta delta [GetAuthHeader bind attempt LoadAuthToken LoadConfig
    outward get ret fail]. cbn. rewrite Hc, Hk.
  destruct (cfg_Load env (calls w2)) as [e|cfg]; cbn; [reflexivity|].
  destruct (String.eqb (cfg_AuthToken cfg) ""); cbn; [reflexivity|].
  destruct (time_Parse env (cfg_AuthExpiresAt cfg)) as [z|]; cbn; [|reflexivity].
  match goal with |- context [if ?b then _ else _] => destruct b end;
    reflexivity.
Qed.

Lemma LoadConfig_world w r w' :
  LoadConfig env w = (r, w') ->
  calls w' = calls (after_call env w) /\ clock w' = clock (after_call env w).
Proof.
  unfold LoadConfig, bind, outward. cbn.
  destruct (cfg_Load env (calls w)); intros H; inversion H; auto.
Qed.

Lemma LoadVault_scan_world files p w q w' :
  LoadVault_scan env files p w = (Ok q, w') ->
  calls w' = calls (after_call env w) /\ clock w' = clock (after_call env w).
Proof.
  induction files as [|name files IH]; cbn [LoadVault_scan]; [discriminate|].
  destruct (HasPrefix name p || Contains name p); [|exact IH].
  cbv beta iota zeta delta [bind wrapped ReadFile fs_call outward of_error get
    ret fail Unmarshal new set_heap]. cbn.
  destruct (fs_fault env (calls w)); cbn; [discriminate|].
  destruct (disk w) as [d|]; cbn; [|discriminate].
  destruct (read_entry (path_key env name) d) as [[v|raw]|]; cbn;
    intros H; inversion H; auto.
Qed.

Lemma LoadVault_world p w q w' :
  LoadVault env p w = (Ok q, w') ->
  calls w' = calls (after_call env (after_call env w)) /\
  clock w' = clock (after_call env (after_call env w)).
Proof.
  unfold LoadVault. intros H. apply bind_ok in H as (files & w1 & H1 & H2).
  apply LoadVault_scan_world in H2 as [Hc Hk].
  revert H1.
  cbv beta iota zeta delta [bind wrapped ReadDir fs_call outward of_error get
    ret fail]. cbn.
  destruct (fs_fault env (calls w)); cbn; [discriminate|].
  destruct (disk w) as [d|]; cbn; intros H; inversion H; subst.
  cbn in *. auto.
Qed.

Lemma said_SaveVault P p :
  (forall name, P (EWriteFile name)) -> keeps (said P) (SaveVault env p).
Proof.
  intros Hw. unfold SaveVault, MkdirAll, WriteFile, put_file, fs_call.
  repeat first
    [ frame_step
    | lazymatch goal with
      | |- keeps _ (set_disk _) => apply said_set_disk
      | |- keeps _ (emit _) => apply keeps_emit; apply Hw
      | |- keeps _ (outward _) => apply keeps_outward
      | |- keeps _ (match ?x with _ => _ end) => destruct x
      | |- keeps _ (if ?b then _ else _) => destruct b
      end ].
Qed.

Lemma Reshare_said t ctx vault plugin url hdr pw :
  keeps (said (routed env url hdr)) (Reshare env t ctx vault plugin url hdr pw).
Proof.
  unfold Reshare. frame_walk; try exact I; try (split; reflexivity).
Qed.

Lemma post_ok url auth body who w u w' :
  post env url auth body who w = (Ok u, w') ->
  trace w' = trace w ++ [EHttpPost url auth body].
Proof.
  unfold post, bind, outward, emit, ret, fail. cbn.
  destruct (http_Do env url auth body) as [e|e|status rbody]; cbn;
    try discriminate.
  destruct (status =? StatusOK); intros H; inversion H; reflexivity.
Qed.

Lemma requestVerifierReshare_tells t ctx vault sid key plugin url auth :
  tells (verifier_reshare_request url (auth_of auth))
    (requestVerifierReshare env t ctx vault sid key plugin url auth).
Proof.
  intros w u w' H. unfold requestVerifierReshare in H.
  apply bind_ok in H as (v & w1 & Hl & H). apply load_ok in Hl as (_ & ->).
  apply bind_ok in H as (sid8 & w1 & Hm & H). apply must_ok in Hm as (_ & ->).
  apply post_ok in H. eexists. split; [eexists; reflexivity|].
  rewrite (new_events_app _ _ _ H). left. reflexivity.
Qed.

(** A reshare that returns has asked the Verifier. *)
Lemma Reshare_tells t ctx vault plugin url auth pw :
  tells (verifier_reshare_request url (auth_of auth))
    (Reshare env t ctx vault plugin url auth pw).
Proof.
  unfold Reshare.
  repeat lazymatch goal with
         | |- tells _ (bind (wrapped _ (requestVerifierReshare _ _ _ _ _ _ _ _ _)) _) =>
             apply tells_first;
             [ apply tells_wrapped, requestVerifierReshare_tells
             | intros ?; frame_walk; exact I ]
         | |- tells _ (bind _ _) =>
             apply tells_later; [frame_walk; exact I|intros ?]
         end.
Qed.

End HeaderFacts.

(** X23. The header of the reshare command. The command asks
    [GetAuthHeader] once, after it has read the configuration and the vault,
    and goes on whatever the answer. When the answer is a header, that is
    the stored token as a bearer, and every request to the Verifier carries
    it as its Authorization header; when [GetAuthHeader] fails (no token, an
    unparsable or a past expiry), every request to the Verifier goes without
    an Authorization header. The Fast Vault Server is never sent the token.
    A command that succeeds has sent the Verifier its reshare request. *)
Theorem runVaultReshare_authorization env plugin url pw w r w' :
  runVaultReshare env plugin url pw w = (r, w') ->
  let asked := fst (GetAuthHeader env (at_login env w)) in
  Forall (routed env url (header_of asked)) (new_events w w') /\
  match asked with
  | Ok h => bearer_of env h /\ auth_of (header_of asked) = Some h
  | _ => auth_of (header_of asked) = None
  end /\
  (r = Ok tt ->
   exists e, verifier_reshare_request url (auth_of (header_of asked)) e /\
             In e (new_events w w')).
Proof.
  intros H asked.
  assert (Hasked : match asked with
                   | Ok h => bearer_of env h /\ auth_of (header_of asked) = Some h
                   | _ => auth_of (header_of asked) = None
                   end).
  { destruct asked as [h|e|msg|] eqn:Ea; try reflexivity.
    unfold asked in Ea.
    destruct (GetAuthHeader env (at_login env w)) as [r0 w0] eqn:Eg.
    simpl in Ea. subst r0. exact (GetAuthHeader_ok env _ _ _ Eg). }
  assert (Hnone : trace w' = trace w ->
                  Forall (routed env url (header_of asked)) (new_events w w')).
  { intros Ht. rewrite (new_events_app w w' []); [constructor|].
    rewrite Ht. symmetry. apply app_nil_r. }
  assert (Hfail : forall (A : Type) (r0 : Res A),
            r = carry r0 ->
            r = Ok tt ->
            exists e, verifier_reshare_request url (auth_of (header_of asked)) e /\
                      In e (new_events w w')).
  { intros A r0 -> Hr. exfalso. exact (carry_failed _ _ Hr). }
  unfold runVaultReshare in H.
  apply bind_cases in H as [(cfg & w1 & H1 & H)|(r0 & H1 & _ & Hr)].
  2: { apply wrapped_cases in H1 as (r1 & H1 & _).
       apply LoadConfig_run in H1 as (_ & _ & Ht & _). eauto. }
  apply wrapped_ok in H1.
  pose proof (LoadConfig_world env _ _ _ H1) as (Hc1 & Hk1).
  apply LoadConfig_run in H1 as (_ & _ & Ht1 & _).
  destruct (String.eqb (cfg_PublicKeyECDSA cfg) "").
  { inversion H; subst. split; [auto|]. split; [exact Hasked|discriminate]. }
  apply bind_cases in H as [(p16 & w1' & Hm & H)|(r0 & Hm & _ & Hr)].
  2: { destruct (Go.slice_to (cfg_PublicKeyECDSA cfg) 16); inversion Hm; subst;
         eauto. }
  apply must_ok in Hm as (_ & ->).
  apply bind_cases in H as [(vault & w2 & H2 & H)|(r0 & H2 & _ & Hr)].
  2: { apply wrapped_cases in H2 as (r1 & H2 & _).
       apply LoadVault_run in H2 as (_ & Ht & _).
       split; [apply Hnone; congruence|eauto]. }
  apply wrapped_ok in H2.
  pose proof (LoadVault_world env _ _ _ _ H2) as (Hc2 & Hk2).
  apply LoadVault_run in H2 as (_ & Ht2 & _).
  apply bind_cases in H as [(v & w2' & Hl & H)|(r0 & Hl & _ & Hr)].
  2: { apply (keeps_load (R := told (fun _ => False))), told_nothing in Hl.
       split; [apply Hnone; congruence|eauto]. }
  apply load_ok in Hl as (_ & ->).
  apply bind_cases in H as [(a & w3 & H3 & H)|(r0 & H3 & Hr0 & _)].
  2: { apply GetAuthHeader_run in H3 as (_ & _ & _ & Hok). congruence. }
  pose proof (GetAuthHeader_run env _ _ _ H3) as (_ & _ & Ht3 & _).
  assert (Ha : match a with inl _ => "" | inr h => h end = header_of asked).
  { apply attempt_cases in H3 as (r1 & H3 & Hr1).
    assert (Hsame : asked = r1).
    { unfold asked. rewrite (GetAuthHeader_fst env (at_login env w) w2).
      - rewrite H3. reflexivity.
      - rewrite Hc2. unfold at_login, after_call in *. cbn in *.
        rewrite Hc1. reflexivity.
      - rewrite Hk2. unfold at_login, after_call in *. cbn in *.
        rewrite Hc1, Hk1. reflexivity. }
    rewrite Hsame. destruct r1; inversion Hr1; reflexivity. }
  unfold bind at 1, get at 1 in H. cbv zeta in H. rewrite Ha in H.
  assert (Hev : forall wk, new_events w wk = new_events w3 wk).
  { intros wk. unfold new_events. rewrite Ht3, Ht2, Ht1. reflexivity. }
  split; [|split; [exact Hasked|]].
  - assert (Hs : said (routed env url (header_of asked)) w3 w').
    { revert H. apply keeps_bind; [apply keeps_wrapped, Reshare_said|].
      intros newVault.
      apply keeps_bind; [apply keeps_wrapped, said_SaveVault; intros; exact I|].
      intros _. frame_walk. }
    rewrite Hev. apply said_new_events. exact Hs.
  - intros ->. rewrite Hev. revert H. apply tells_first.
    + apply tells_wrapped, Reshare_tells.
    + intros newVault.
      apply keeps_bind; [apply keeps_wrapped, said_SaveVault; intros; exact I|].
      intros _. frame_walk.
Qed.

Lemma runVaultReshare_authorization_witness :
  let members := Scenario.joins_after 3 Scenario.four in
  let e := Scenario.logged_in (Scenario.env members) in
  let out := Scenario.logged_out (Scenario.env members) in
  let run := runVaultReshare e "vultisig-dca-0000" "http://localhost:8081" "pw"
               Scenario.world2 in
  let run' := runVaultReshare out "vultisig-dca-0000" "http://localhost:8081"
                "pw" Scenario.world2 in
  let bearer := "Bearer eyJhbGciOiJIUzI1NiJ9" in
  (Forall (routed e "http://localhost:8081" bearer)
     (new_events Scenario.world2 (snd run)) /\
   (bearer_of e bearer /\ auth_of bearer = Some bearer) /\
   exists ev, verifier_reshare_request "http://localhost:8081" (Some bearer) ev /\
              In ev (new_events Scenario.world2 (snd run))) /\
  (fst (GetAuthHeader out (at_login out Scenario.world2))
   = Err "not authenticated. Run 'devctl auth login' first" /\
   Forall (routed out "http://localhost:8081" "")
     (new_events Scenario.world2 (snd run')) /\
   exists ev, verifier_reshare_request "http://localhost:8081" None ev /\
              In ev (new_events Scenario.world2 (snd run'))).
Proof.
  intros members e out run run' bearer. split.
  - destruct (runVaultReshare_authorization e "vultisig-dca-0000"
                "http://localhost:8081" "pw" Scenario.world2 (fst run) (snd run)
                (surjective_pairing run)) as (H1 & H2 & H3).
    split; [exact H1|]. split; [exact H2|]. apply H3. vm_compute. reflexivity.
  - destruct (runVaultReshare_authorization out "vultisig-dca-0000"
                "http://localhost:8081" "pw" Scenario.world2 (fst run')
                (snd run') (surjective_pairing run')) as (H1 & _ & H3).
    split; [vm_compute; reflexivity|]. split; [exact H1|].
    apply H3. vm_compute. reflexivity.
Defined.
